(** * pgrtk post-processing layer: a shallow embedding and its properties

    The Python module [pgrtk/__init__.py] turns raw index-engine output into
    alignment regions ([query_sdb], [merge_regions]), variant calls
    ([get_variant_calls]), bundle partitions
    ([group_smps_by_principle_bundle_id]) and a graph diffusion summary
    ([compute_graph_diffusion_entropy]).  Each function is embedded below
    as a Rocq function that follows the Python text statement by statement;
    Python integers are [Z], strings are lists of characters, dictionaries
    are [gmap]s (or association lists where the insertion order is
    observable), list objects that are shared between a caller and the
    callee live in an explicit store, and the cells of a float32 array are
    IEEE 754 binary32 numbers with the arithmetic of [SpecFloat]. *)

From Stdlib Require Import ZArith SpecFloat Ascii String Permutation Sorted Lia.
From stdpp Require Import gmap list pretty.

Local Open Scope Z_scope.

(** ** Python sequence primitives *)

Module Py.

(** [s[i]]: a negative index counts from the end; anything outside
    [-len, len) raises IndexError, rendered as [None]. *)
Definition index {A} (l : list A) (i : Z) : option A :=
  let n := Z.of_nat (length l) in
  if (0 <=? i) && (i <? n) then l !! Z.to_nat i
  else if (- n <=? i) && (i <? 0) then l !! Z.to_nat (i + n)
  else None.

(** Slice bounds are clamped, never raise. *)
Definition clamp (n i : Z) : Z :=
  if i <? 0 then Z.max 0 (i + n) else Z.min i n.

(** [s[a:b]] *)
Definition slice {A} (l : list A) (a b : Z) : list A :=
  let n := Z.of_nat (length l) in
  let a' := clamp n a in
  let b' := clamp n b in
  take (Z.to_nat (b' - a')) (drop (Z.to_nat a') l).

(** [l[-1]] and [l[0]] on lists. *)
Definition last_item {A} (l : list A) : option A := index l (-1).
Definition first_item {A} (l : list A) : option A := index l 0.

Lemma index_nonneg {A} (l : list A) (i : Z) :
  0 <= i -> index l i = l !! Z.to_nat i.
Proof.
  intros Hi. unfold index.
  destruct (Z.leb_spec 0 i); [|lia]. simpl.
  destruct (Z.ltb_spec i (Z.of_nat (length l))); [reflexivity|].
  destruct (Z.ltb_spec i 0); [lia|]. rewrite andb_false_r.
  symmetry. apply lookup_ge_None. lia.
Qed.

Lemma index_is_Some {A} (l : list A) (i : Z) :
  is_Some (index l i) <-> - Z.of_nat (length l) <= i < Z.of_nat (length l).
Proof.
  unfold index. cbv zeta.
  destruct (Z.leb_spec 0 i), (Z.ltb_spec i (Z.of_nat (length l))); simpl.
  - rewrite lookup_lt_is_Some. lia.
  - destruct (Z.leb_spec (- Z.of_nat (length l)) i), (Z.ltb_spec i 0); simpl;
      try (split; [intros [? ?]; discriminate | lia]).
    lia.
  - destruct (Z.leb_spec (- Z.of_nat (length l)) i), (Z.ltb_spec i 0); simpl;
      try (split; [intros [? ?]; discriminate | lia]).
    rewrite lookup_lt_is_Some. lia.
  - destruct (Z.leb_spec (- Z.of_nat (length l)) i), (Z.ltb_spec i 0); simpl;
      try (split; [intros [? ?]; discriminate | lia]).
    lia.
Qed.

Lemma first_item_cons {A} (x : A) l : first_item (x :: l) = Some x.
Proof. unfold first_item. rewrite index_nonneg by lia. reflexivity. Qed.

Lemma last_item_snoc {A} (l : list A) (x : A) : last_item (l ++ [x]) = Some x.
Proof.
  unfold last_item, index. rewrite length_app. simpl.
  replace (Z.of_nat (length l + 1)) with (Z.of_nat (length l) + 1) by lia.
  destruct (Z.leb_spec 0 (-1)); [lia|]. simpl.
  destruct (Z.leb_spec (- (Z.of_nat (length l) + 1)) (-1)); [|lia]. simpl.
  replace (Z.to_nat (-1 + (Z.of_nat (length l) + 1))) with (length l) by lia.
  rewrite lookup_app_r by lia. rewrite Nat.sub_diag. reflexivity.
Qed.

Lemma last_item_last {A} (l : list A) : last_item l = last l.
Proof.
  destruct (decide (l = [])) as [->|Hne]; [reflexivity|].
  destruct (exists_last Hne) as (l' & x & ->).
  rewrite last_item_snoc, last_snoc. reflexivity.
Qed.

Lemma first_item_head {A} (l : list A) : first_item l = head l.
Proof. destruct l; [reflexivity | apply first_item_cons]. Qed.

End Py.

(** ** get_variant_calls *)

Module Variants.

(** Exceptions the function can raise.  [Diverged] is not a Python
    exception: it marks an exhausted iteration budget of a [while] loop
    and is shown below never to occur. *)
Inductive exn := IndexError | UnboundLocalError | Diverged.

(** Which of the two sequence strings a subscript expression reads. *)
Inductive seqname := RefSeq | CtgSeq.

(** Every evaluated subscript [rs0[i]] / [cs0[i]] is logged with the index
    exactly as the expression computed it (before Python wraps a negative
    one), so that claims about the indices read can be stated. *)
Definition read : Type := seqname * Z.

Definition M (A : Type) : Type := list read * (exn + A).

Definition ret {A} (a : A) : M A := ([], inr a).
Definition raise {A} (e : exn) : M A := ([], inl e).
Definition bind {A B} (m : M A) (f : A -> M B) : M B :=
  match m with
  | (log, inl e) => (log, inl e)
  | (log, inr a) => let '(log', r) := f a in (log ++ log', r)
  end.

Notation "'let*' x ':=' m 'in' k" := (bind m (fun x => k))
  (at level 10, x name, m at level 100, k at level 200).

Definition seq := list ascii.

(** [which[i]] on a string, logged. *)
Definition rd (which : seqname) (s : seq) (i : Z) : M ascii :=
  ([(which, i)],
   match Py.index s i with Some c => inr c | None => inl IndexError end).

(** The Rust structs as pyo3 exposes them: [SeqLocus] is the tuple
    (id, bgn, len); the segment type is the byte code of its letter. *)
Record SeqLocus := { l_id : Z; l_bgn : Z; l_len : Z }.
Record AlnSegment := { ref_loc : SeqLocus; tgt_loc : SeqLocus; t : Z }.

Definition ord_M : Z := 77.
Definition ord_X : Z := 88.
Definition ord_I : Z := 73.
Definition ord_D : Z := 68.

(** value = (chr(s.t), ref_bases, alt_bases, (key[0], key[1], ref len),
             (tgt id, ctg_bgn + tgt bgn, tgt len), strand) *)
Record variant := {
  v_kind : Z;
  v_ref_bases : seq;
  v_alt_bases : seq;
  v_ref : Z * Z * Z;
  v_tgt : Z * Z * Z;
  v_strand : Z }.

(** The function-level names [key], [ref_bases], [alt_bases]: unbound
    until a Mismatch, Insertion or Deletion branch assigns all three, and
    kept from one loop iteration to the next. *)
Definition locals : Type := option ((Z * Z) * seq * seq).

Section Call.
Variables (ref_bgn ctg_bgn : Z) (rs0 cs0 : seq) (strand : Z).

(** [while 1:] of the Insertion branch. *)
Fixpoint ins_loop (fuel : nat) (tlen p0 p1 : Z) : M (Z * Z) :=
  match fuel with
  | O => raise Diverged
  | S fuel' =>
      let* a := rd RefSeq rs0 (p0 - 1) in
      let* b := rd CtgSeq cs0 (p1 + tlen - 1) in
      if Ascii.eqb a b then
        let* c := rd RefSeq rs0 (p0 - 2) in
        let* d := rd CtgSeq cs0 (p1 - 2) in
        if Ascii.eqb c d then ins_loop fuel' tlen (p0 - 1) (p1 - 1)
        else ret (p0, p1)
      else ret (p0, p1)
  end.

(** [while 1 and p0 > 0 and p1 > 0:] of the Deletion branch. *)
Fixpoint del_loop (fuel : nat) (rlen p0 p1 : Z) : M (Z * Z) :=
  match fuel with
  | O => raise Diverged
  | S fuel' =>
      if (0 <? p0) && (0 <? p1) then
        let* a := rd RefSeq rs0 (p0 + rlen - 1) in
        let* b := rd CtgSeq cs0 (p1 - 1) in
        if Ascii.eqb a b then
          let* c := rd RefSeq rs0 (p0 - 2) in
          let* d := rd CtgSeq cs0 (p1 - 2) in
          if Ascii.eqb c d then del_loop fuel' rlen (p0 - 1) (p1 - 1)
          else ret (p0, p1)
        else ret (p0, p1)
      else ret (p0, p1)
  end.

(** Iteration budgets: each pass lowers [p0] by one, and a pass of the
    Insertion loop that continues has read [rs0[p0-2]] successfully. *)
Definition ins_fuel (p0 : Z) : nat := S (Z.to_nat (p0 + Z.of_nat (length rs0))).
Definition del_fuel (p0 : Z) : nat := S (Z.to_nat p0).

Definition branch_X (s : AlnSegment) (loc : locals) : M locals :=
  if t s =? ord_X then
    let rb := l_bgn (ref_loc s) in
    let tb := l_bgn (tgt_loc s) in
    ret (Some ((l_id (ref_loc s), rb + ref_bgn + 1),
               Py.slice rs0 rb (rb + l_len (ref_loc s)),
               Py.slice cs0 tb (tb + l_len (tgt_loc s))))
  else ret loc.

Definition branch_I (s : AlnSegment) (loc : locals) : M locals :=
  if t s =? ord_I then
    let p0 := l_bgn (ref_loc s) in
    let p1 := l_bgn (tgt_loc s) in
    let* p := ins_loop (ins_fuel p0) (l_len (tgt_loc s)) p0 p1 in
    let '(p0, p1) := p in
    ret (Some ((l_id (ref_loc s), p0 + ref_bgn),
               Py.slice rs0 (p0 - 1) (p0 + l_len (ref_loc s)),
               Py.slice cs0 (p1 - 1) (p1 + l_len (tgt_loc s))))
  else ret loc.

Definition branch_D (s : AlnSegment) (loc : locals) : M locals :=
  if t s =? ord_D then
    let p0 := l_bgn (ref_loc s) in
    let p1 := l_bgn (tgt_loc s) in
    let* p := del_loop (del_fuel p0) (l_len (ref_loc s)) p0 p1 in
    let '(p0, p1) := p in
    ret (Some ((l_id (ref_loc s), p0 + ref_bgn),
               Py.slice rs0 (p0 - 1) (p0 + l_len (ref_loc s)),
               Py.slice cs0 (p1 - 1) (p1 + l_len (tgt_loc s))))
  else ret loc.

(** One store into the result: [variant_calls[key][(tgt id, strand)] = value]. *)
Definition write : Type := (Z * Z) * (Z * Z) * variant.

(** The body of [for s in aln_segs:]: the new locals and the store it
    performs, if any. *)
Definition seg_step (loc : locals) (s : AlnSegment) : M (locals * option write) :=
  if negb (t s =? ord_M) then
    let* loc := branch_X s loc in
    let* loc := branch_I s loc in
    let* loc := branch_D s loc in
    match loc with
    | None => raise UnboundLocalError
    | Some (key, ref_bases, alt_bases) =>
        let value :=
          {| v_kind := t s;
             v_ref_bases := ref_bases;
             v_alt_bases := alt_bases;
             v_ref := (key.1, key.2, l_len (ref_loc s));
             v_tgt := (l_id (tgt_loc s), ctg_bgn + l_bgn (tgt_loc s),
                       l_len (tgt_loc s));
             v_strand := strand |} in
        ret (loc, Some (key, (l_id (tgt_loc s), strand), value))
    end
  else ret (loc, None).

(** [variant_calls.setdefault(key, {}); variant_calls[key][ik] = value] *)
Definition store_call (vc : gmap (Z * Z) (gmap (Z * Z) variant)) (w : write)
  : gmap (Z * Z) (gmap (Z * Z) variant) :=
  let '(key, ik, value) := w in
  <[key := <[ik := value]> (default ∅ (vc !! key))]> vc.

Definition store_opt (vc : gmap (Z * Z) (gmap (Z * Z) variant)) (w : option write) :=
  match w with Some w => store_call vc w | None => vc end.

Fixpoint run (loc : locals) (vc : gmap (Z * Z) (gmap (Z * Z) variant))
    (segs : list AlnSegment) : M (gmap (Z * Z) (gmap (Z * Z) variant)) :=
  match segs with
  | [] => ret vc
  | s :: segs' =>
      let* r := seg_step loc s in
      run r.1 (store_opt vc r.2) segs'
  end.

Definition get_variant_calls (aln_segs : list AlnSegment)
  : M (gmap (Z * Z) (gmap (Z * Z) variant)) :=
  run None ∅ aln_segs.

(** The stores performed, in execution order (the same loop, keeping the
    stores instead of applying them). *)
Fixpoint run_writes (loc : locals) (segs : list AlnSegment) : M (list write) :=
  match segs with
  | [] => ret []
  | s :: segs' =>
      let* r := seg_step loc s in
      let* ws := run_writes r.1 segs' in
      ret (match r.2 with Some w => w :: ws | None => ws end)
  end.

Definition writes (aln_segs : list AlnSegment) : M (list write) :=
  run_writes None aln_segs.

End Call.

(** The record found in a result at an outer and an inner key. *)
Definition lookup2 (vc : gmap (Z * Z) (gmap (Z * Z) variant)) (key ik : Z * Z)
  : option variant :=
  vc !! key ≫= λ inner, inner !! ik.

Definition str (s : string) : seq := list_ascii_of_string s.

Definition mk_seg (rid rb rl tid tb tl kind : Z) : AlnSegment :=
  {| ref_loc := {| l_id := rid; l_bgn := rb; l_len := rl |};
     tgt_loc := {| l_id := tid; l_bgn := tb; l_len := tl |};
     t := kind |}.

(** *** The monad *)

Arguments bind : simpl never.
Arguments rd : simpl never.
Arguments ret : simpl never.
Arguments raise : simpl never.
Arguments store_call : simpl never.

Lemma bind_inr {A B} (m : M A) (f : A -> M B) log b :
  bind m f = (log, inr b) ->
  exists l1 a l2, m = (l1, inr a) /\ f a = (l2, inr b) /\ log = l1 ++ l2.
Proof.
  unfold bind. destruct m as [l1 [e|a]]; simpl; [discriminate|].
  destruct (f a) as [l2 r] eqn:E. intros [= <- ->]. eauto 6.
Qed.

Lemma bind_outcome {A B} (m : M A) (f : A -> M B) e :
  snd (bind m f) = inl e ->
  snd m = inl e \/ exists l a, m = (l, inr a) /\ snd (f a) = inl e.
Proof.
  unfold bind. destruct m as [l1 [e'|a]]; simpl; [intros [= ->]; by left|].
  destruct (f a) as [l2 r] eqn:E. simpl. intros ->. right.
  exists l1, a. by rewrite E.
Qed.

Lemma rd_inr which s i l c :
  rd which s i = (l, inr c) -> Py.index s i = Some c /\ l = [(which, i)].
Proof. unfold rd. destruct (Py.index s i); intros [= <- <-]; done. Qed.

Lemma rd_not_diverged which s i : snd (rd which s i) <> inl Diverged.
Proof. unfold rd. simpl. by destruct (Py.index s i). Qed.

(** *** The loops never exhaust their budget *)

Section Total.
Variables (ref_bgn ctg_bgn : Z) (rs0 cs0 : seq) (strand : Z).

Lemma ins_loop_total fuel tlen p0 p1 :
  (Z.to_nat (p0 + Z.of_nat (length rs0)) < fuel)%nat ->
  snd (ins_loop rs0 cs0 fuel tlen p0 p1) <> inl Diverged.
Proof.
  revert p0 p1. induction fuel as [|fuel IH]; intros p0 p1 Hf; [lia|].
  simpl. intros H.
  apply bind_outcome in H as [H|(l & a & Ha & H)]; [by apply rd_not_diverged in H|].
  apply bind_outcome in H as [H|(l' & b & Hb & H)]; [by apply rd_not_diverged in H|].
  destruct (Ascii.eqb a b); [|discriminate].
  apply bind_outcome in H as [H|(l2 & c & Hc & H)]; [by apply rd_not_diverged in H|].
  apply bind_outcome in H as [H|(l3 & d & Hd & H)]; [by apply rd_not_diverged in H|].
  destruct (Ascii.eqb c d); [|discriminate].
  apply rd_inr in Hc as [Hc _].
  assert (is_Some (Py.index rs0 (p0 - 2))) as Hs by eauto.
  apply Py.index_is_Some in Hs.
  revert H. apply IH. lia.
Qed.

Lemma del_loop_total fuel rlen p0 p1 :
  (Z.to_nat p0 < fuel)%nat ->
  snd (del_loop rs0 cs0 fuel rlen p0 p1) <> inl Diverged.
Proof.
  revert p0 p1. induction fuel as [|fuel IH]; intros p0 p1 Hf; [lia|].
  simpl. intros H.
  destruct (Z.ltb_spec 0 p0); simpl in H; [|discriminate].
  destruct (0 <? p1); [|discriminate].
  apply bind_outcome in H as [H|(l & a & Ha & H)]; [by apply rd_not_diverged in H|].
  apply bind_outcome in H as [H|(l' & b & Hb & H)]; [by apply rd_not_diverged in H|].
  destruct (Ascii.eqb a b); [|discriminate].
  apply bind_outcome in H as [H|(l2 & c & Hc & H)]; [by apply rd_not_diverged in H|].
  apply bind_outcome in H as [H|(l3 & d & Hd & H)]; [by apply rd_not_diverged in H|].
  destruct (Ascii.eqb c d); [|discriminate].
  revert H. apply IH. lia.
Qed.

Lemma seg_step_total loc s :
  snd (seg_step ref_bgn ctg_bgn rs0 cs0 strand loc s) <> inl Diverged.
Proof.
  unfold seg_step. destruct (negb (t s =? ord_M)); [|discriminate].
  intros H.
  apply bind_outcome in H as [H|(l & a & Ha & H)].
  { unfold branch_X in H. by destruct (t s =? ord_X). }
  apply bind_outcome in H as [H|(l1 & a1 & Ha1 & H)].
  { unfold branch_I in H. destruct (t s =? ord_I); [|done].
    apply bind_outcome in H as [H|(l2 & [q0 q1] & _ & H)]; [|done].
    revert H. apply ins_loop_total. unfold ins_fuel. lia. }
  apply bind_outcome in H as [H|(l2 & a2 & Ha2 & H)].
  { unfold branch_D in H. destruct (t s =? ord_D); [|done].
    apply bind_outcome in H as [H|(l3 & [q0 q1] & _ & H)]; [|done].
    revert H. apply del_loop_total. unfold del_fuel. lia. }
  by destruct a2 as [[[? ?] ?]|].
Qed.

Lemma run_total segs : forall loc vc,
  snd (run ref_bgn ctg_bgn rs0 cs0 strand loc vc segs) <> inl Diverged.
Proof.
  induction segs as [|s segs IH]; intros loc vc; [discriminate|].
  simpl. intros H.
  apply bind_outcome in H as [H|(l & a & Ha & H)].
  - by apply seg_step_total in H.
  - by apply IH in H.
Qed.

(** [get_variant_calls] always terminates: it returns a mapping or raises
    one of the two Python exceptions. *)
Lemma get_variant_calls_total segs :
  snd (get_variant_calls ref_bgn ctg_bgn rs0 cs0 strand segs) <> inl Diverged.
Proof. apply run_total. Qed.

End Total.

(** *** What the loop stores *)

Section Stores.
Variables (ref_bgn ctg_bgn : Z) (rs0 cs0 : seq) (strand : Z).

Lemma bind_eval {A B} (m : M A) (f : A -> M B) l1 a l2 r :
  m = (l1, inr a) -> f a = (l2, r) -> bind m f = (l1 ++ l2, r).
Proof. intros -> Hf. unfold bind. by rewrite Hf. Qed.

Lemma run_as_writes segs : forall loc vc log vc',
  run ref_bgn ctg_bgn rs0 cs0 strand loc vc segs = (log, inr vc') ->
  exists ws,
    run_writes ref_bgn ctg_bgn rs0 cs0 strand loc segs = (log, inr ws)
    /\ vc' = foldl store_call vc ws.
Proof.
  induction segs as [|s segs IH]; intros loc vc log vc' H; simpl in *.
  - injection H as <- <-. by exists [].
  - apply bind_inr in H as (l1 & [loc1 w] & l2 & Hs & Hr & ->).
    apply IH in Hr as (ws & Hws & ->). simpl in *.
    exists (match w with Some w => w :: ws | None => ws end). split.
    + eapply bind_eval; [exact Hs|]. simpl.
      replace l2 with (l2 ++ []) by apply app_nil_r.
      eapply bind_eval; [exact Hws|]. reflexivity.
    + by destruct w.
Qed.

Lemma lookup2_store_call vc k i v key ik :
  lookup2 (store_call vc (k, i, v)) key ik =
  if decide ((k, i) = (key, ik)) then Some v else lookup2 vc key ik.
Proof.
  unfold lookup2, store_call.
  destruct (decide (k = key)) as [->|Hk].
  - rewrite lookup_insert_eq. simpl.
    destruct (decide (i = ik)) as [->|Hi].
    + rewrite lookup_insert_eq. by rewrite decide_True.
    + rewrite lookup_insert_ne by done.
      rewrite decide_False by congruence.
      by destruct (vc !! key).
  - rewrite lookup_insert_ne by done. rewrite decide_False by congruence. done.
Qed.

(** A store is the last one to its pair of keys when no later store of
    the run addresses the same pair. *)
Definition last_store (ws : list write) (key ik : Z * Z) (v : variant) : Prop :=
  exists ws1 ws2, ws = ws1 ++ (key, ik, v) :: ws2
                  /\ forall w, w ∈ ws2 -> w.1 <> (key, ik).

Lemma last_store_cons_other w ws key ik v :
  w.1 <> (key, ik) -> last_store (w :: ws) key ik v <-> last_store ws key ik v.
Proof.
  intros Hw. split.
  - intros ([|w1 ws1] & ws2 & E & Hn); simpl in E; injection E as -> ->.
    + by destruct Hw.
    + by exists ws1, ws2.
  - intros (ws1 & ws2 & -> & Hn). by exists (w :: ws1), ws2.
Qed.

Lemma lookup2_foldl ws : forall vc key ik v,
  lookup2 (foldl store_call vc ws) key ik = Some v <->
  last_store ws key ik v \/
  ((forall w, w ∈ ws -> w.1 <> (key, ik)) /\ lookup2 vc key ik = Some v).
Proof.
  induction ws as [|[[k i] v0] ws IH]; intros vc key ik v; simpl.
  - split.
    + intros H. right. split; [|done]. intros w Hw. by apply elem_of_nil in Hw.
    + intros [([|? ?] & ? & E & _)|[_ H]]; [discriminate E|discriminate E|done].
  - rewrite IH, lookup2_store_call. destruct (decide ((k, i) = (key, ik))) as [E|Hne].
    + injection E as -> ->. split.
      * intros [H|[Hn [= ->]]].
        -- left. destruct H as (ws1 & ws2 & -> & Hn).
           by exists ((key, ik, v0) :: ws1), ws2.
        -- left. by exists [], ws.
      * intros [H|[Hn _]].
        -- destruct H as ([|w1 ws1] & ws2 & E & Hn); simpl in E; injection E as E1 E2.
           ++ subst. right. done.
           ++ subst. left. by exists ws1, ws2.
        -- exfalso. eapply (Hn (key, ik, v0)); [left|done].
    + rewrite (last_store_cons_other (k, i, v0)) by done.
      split; (intros [H|[Hn H]]; [by left|right; split; [|done]]).
      * intros w [->|Hw]%elem_of_cons; [done|by apply Hn].
      * intros w Hw. apply Hn. by right.
Qed.

End Stores.

(** *** Segment kinds *)

(** A Match segment performs no store and leaves the locals alone. *)
Lemma match_segment_skipped ref_bgn ctg_bgn rs0 cs0 strand loc s :
  t s = ord_M ->
  seg_step ref_bgn ctg_bgn rs0 cs0 strand loc s = ret (loc, None).
Proof. intros E. unfold seg_step. by rewrite E. Qed.

(** A segment of any other kind than M, X, I, D reaches the store with
    whatever [key], [ref_bases], [alt_bases] the previous iterations left:
    nothing when there were none yet ... *)
Lemma other_kind_unbound ref_bgn ctg_bgn rs0 cs0 strand s :
  t s <> ord_M -> t s <> ord_X -> t s <> ord_I -> t s <> ord_D ->
  seg_step ref_bgn ctg_bgn rs0 cs0 strand None s = raise UnboundLocalError.
Proof.
  intros HM HX HI HD. unfold seg_step, branch_X, branch_I, branch_D.
  apply Z.eqb_neq in HM, HX, HI, HD. by rewrite HM, HX, HI, HD.
Qed.

(** ... and otherwise the stale ones, under which it stores a record. *)
Lemma other_kind_stale ref_bgn ctg_bgn rs0 cs0 strand s key rb ab :
  t s <> ord_M -> t s <> ord_X -> t s <> ord_I -> t s <> ord_D ->
  exists v,
    seg_step ref_bgn ctg_bgn rs0 cs0 strand (Some (key, rb, ab)) s
    = ret (Some (key, rb, ab), Some (key, (l_id (tgt_loc s), strand), v))
    /\ v_kind v = t s /\ v_ref_bases v = rb /\ v_alt_bases v = ab.
Proof.
  intros HM HX HI HD. unfold seg_step, branch_X, branch_I, branch_D.
  apply Z.eqb_neq in HM, HX, HI, HD. rewrite HM, HX, HI, HD. simpl.
  eexists. split; [reflexivity|done].
Qed.

Definition below_start (r : read) : bool := r.2 <? 0.

(** C1 (the code departs from the claim): an Insertion in a homopolymer
    run walks its pointers past the start of both strings: the shift loop
    evaluates [rs0[-1]], keeps going on the wrapped characters and ends in
    IndexError at [rs0[-5]]; the Deletion loop, guarded by [p0 > 0 and
    p1 > 0] only, still evaluates [rs0[p0-2]] = [rs0[-1]] at [p0 = 1]. *)
Theorem C1_shift_reads_below_start :
  let ins := get_variant_calls 0 0 (str "AAAA") (str "AAAAA") 0
               [mk_seg 0 2 0 0 2 1 ord_I] in
  let del := get_variant_calls 0 0 (str "AAAAA") (str "AAAA") 0
               [mk_seg 0 2 1 0 2 0 ord_D] in
  existsb below_start ins.1 = true /\ (RefSeq, -1) ∈ ins.1
  /\ ins.2 = inl IndexError
  /\ existsb below_start del.1 = true /\ (RefSeq, -1) ∈ del.1.
Proof.
  cbv zeta. repeat split; try (vm_compute; reflexivity);
    apply list_elem_of_In; vm_compute; tauto.
Qed.

(** C4 (the code departs from the claim): a segment whose kind is none of
    M, X, I, D is not skipped.  As the first segment it raises
    UnboundLocalError; after a Mismatch it stores a record of its own kind
    under the Mismatch's key, replacing the Mismatch record. *)
Theorem C4_unspecified_segment_not_skipped :
  let unspecified := mk_seg 0 3 1 0 3 1 63 in
  let mismatch := mk_seg 0 2 1 0 2 1 ord_X in
  (get_variant_calls 0 0 (str "ACGT") (str "ACTT") 0 [unspecified]).2
    = inl UnboundLocalError
  /\ exists vc v,
      get_variant_calls 0 0 (str "ACGT") (str "ACTT") 0 [mismatch; unspecified]
        = ([], inr vc)
      /\ lookup2 vc (0, 3) (0, 0) = Some v
      /\ v_kind v = 63 /\ v_ref_bases v = str "G" /\ v_alt_bases v = str "T".
Proof.
  cbv zeta. split; [vm_compute; reflexivity|].
  eexists _, _. split; [vm_compute; reflexivity|].
  split; [vm_compute; reflexivity|]. done.
Qed.

(** C8: in the mapping returned, the entry at an outer key and an inner
    key is exactly the record of the last store the loop made to that
    pair: a later segment that produces the same reference key and the
    same (target id, strand) bucket replaces the earlier record. *)
Theorem C8_later_record_replaces ref_bgn ctg_bgn rs0 cs0 strand segs log vc :
  get_variant_calls ref_bgn ctg_bgn rs0 cs0 strand segs = (log, inr vc) ->
  exists ws,
    writes ref_bgn ctg_bgn rs0 cs0 strand segs = (log, inr ws)
    /\ forall key ik v, lookup2 vc key ik = Some v <-> last_store ws key ik v.
Proof.
  intros H. apply run_as_writes in H as (ws & Hws & ->).
  exists ws. split; [exact Hws|]. intros key ik v.
  rewrite lookup2_foldl. split; [|by left].
  intros [H|[_ H]]; [done|]. unfold lookup2 in H. by rewrite lookup_empty in H.
Qed.

Lemma C8_later_record_replaces_witness :
  let first := mk_seg 0 2 1 0 2 1 ord_X in
  let second := mk_seg 0 2 1 0 3 1 ord_X in
  let w2 : write :=
    ((0, 3), (0, 0),
     {| v_kind := ord_X; v_ref_bases := str "G"; v_alt_bases := str "T";
        v_ref := (0, 3, 1); v_tgt := (0, 3, 1); v_strand := 0 |}) in
  exists ws,
    writes 0 0 (str "ACGT") (str "ACTT") 0 [first; second] = ([], inr ws)
    /\ forall key ik v,
        lookup2 (store_call ∅ w2) key ik = Some v <-> last_store ws key ik v.
Proof.
  cbv zeta.
  apply (C8_later_record_replaces 0 0 (str "ACGT") (str "ACTT") 0
           [mk_seg 0 2 1 0 2 1 ord_X; mk_seg 0 2 1 0 3 1 ord_X]).
  vm_compute. reflexivity.
Defined.

End Variants.

(** ** Python comparison and [list.sort] *)

Module Order.

(** Tuples and lists compare lexicographically: the first position that
    differs decides. *)
Definition lex (c1 c2 : comparison) : comparison :=
  match c1 with Eq => c2 | _ => c1 end.

Definition pair_cmp {A B} (cA : A -> A -> comparison) (cB : B -> B -> comparison)
    (x y : A * B) : comparison :=
  lex (cA x.1 y.1) (cB x.2 y.2).

Fixpoint list_cmp {A} (c : A -> A -> comparison) (l1 l2 : list A) : comparison :=
  match l1, l2 with
  | [], [] => Eq
  | [], _ :: _ => Lt
  | _ :: _, [] => Gt
  | x :: l1', y :: l2' => lex (c x y) (list_cmp c l1' l2')
  end.

(** Python's [a < b]. *)
Definition lt_of {A} (c : A -> A -> comparison) (a b : A) : bool :=
  match c a b with Lt => true | _ => false end.

(** A three-way comparison of a total order whose equality is [==] on
    values. *)
Class TotalCmp {A} (c : A -> A -> comparison) : Prop := {
  cmp_eq a b : c a b = Eq <-> a = b;
  cmp_opp a b : c b a = CompOpp (c a b);
  cmp_lt_trans a b d : c a b = Lt -> c b d = Lt -> c a d = Lt }.

Section Sort.
Context {A : Type} (ltb : A -> A -> bool).

(** [l.sort()] is stable and only ever asks [y < x]; on a total order
    every stable sort returns the same list, here computed by insertion. *)
Fixpoint insert (x : A) (l : list A) : list A :=
  match l with
  | [] => [x]
  | y :: l' => if ltb y x then y :: insert x l' else x :: y :: l'
  end.

Fixpoint sort (l : list A) : list A :=
  match l with
  | [] => []
  | x :: l' => insert x (sort l')
  end.

(** [a <= b], as the negation of [b < a]. *)
Definition le (a b : A) : Prop := ltb b a = false.

End Sort.

Lemma lex_opp c1 c2 : lex (CompOpp c1) (CompOpp c2) = CompOpp (lex c1 c2).
Proof. by destruct c1. Qed.

Lemma lex_Eq c1 c2 : lex c1 c2 = Eq <-> c1 = Eq /\ c2 = Eq.
Proof. destruct c1; simpl; intuition congruence. Qed.

Lemma lex_Lt c1 c2 : lex c1 c2 = Lt <-> c1 = Lt \/ (c1 = Eq /\ c2 = Lt).
Proof. destruct c1; simpl; intuition congruence. Qed.

Lemma cmp_refl `{TotalCmp A c} a : c a a = Eq.
Proof. by apply cmp_eq. Qed.

#[export] Instance Z_TotalCmp : TotalCmp Z.compare.
Proof.
  split.
  - apply Z.compare_eq_iff.
  - intros a b. apply Z.compare_antisym.
  - intros a b d. rewrite !Z.compare_lt_iff. lia.
Qed.

#[export] Instance pair_TotalCmp `{TotalCmp A cA, TotalCmp B cB} :
  TotalCmp (pair_cmp cA cB).
Proof.
  split.
  - intros [a1 b1] [a2 b2]. unfold pair_cmp. simpl.
    rewrite lex_Eq, !cmp_eq. split; [intros [-> ->]; done|by intros [= -> ->]].
  - intros [a1 b1] [a2 b2]. unfold pair_cmp. simpl.
    rewrite (cmp_opp (c:=cA) a1 a2), (cmp_opp (c:=cB) b1 b2). apply lex_opp.
  - intros [a1 b1] [a2 b2] [a3 b3]. unfold pair_cmp. simpl.
    rewrite !lex_Lt.
    intros [H1|[H1 H1']] [H2|[H2 H2']].
    + left. eapply cmp_lt_trans; eauto.
    + apply cmp_eq in H2 as ->. by left.
    + apply cmp_eq in H1 as ->. by left.
    + apply cmp_eq in H1 as ->. apply cmp_eq in H2 as ->. right.
      split; [apply cmp_refl|]. eapply cmp_lt_trans; eauto.
Qed.

#[export] Instance list_TotalCmp `{TotalCmp A c} : TotalCmp (list_cmp c).
Proof.
  split.
  - intros l1. induction l1 as [|x l1 IH]; intros [|y l2]; simpl;
      try (split; [discriminate|discriminate]); [done|].
    rewrite lex_Eq, cmp_eq, IH. split; [intros [-> ->]; done|by intros [= -> ->]].
  - intros l1. induction l1 as [|x l1 IH]; intros [|y l2]; simpl; try done.
    rewrite (cmp_opp (c:=c) x y), (IH l2). apply lex_opp.
  - intros l1. induction l1 as [|x l1 IH]; intros [|y l2] [|z l3]; simpl;
      try done.
    rewrite !lex_Lt.
    intros [H1|[H1 H1']] [H2|[H2 H2']].
    + left. eapply cmp_lt_trans; eauto.
    + apply cmp_eq in H2 as ->. by left.
    + apply cmp_eq in H1 as ->. by left.
    + apply cmp_eq in H1 as ->. apply cmp_eq in H2 as ->. right.
      split; [apply cmp_refl|]. eapply IH; eauto.
Qed.

(** A comparison read through a key function orders the elements. *)
Section Keyed.
Context {A K : Type} (c : K -> K -> comparison) `{!TotalCmp c} (key : A -> K).

Definition keyed_lt (a b : A) : bool := lt_of c (key a) (key b).

Lemma keyed_asym a b : keyed_lt a b = true -> keyed_lt b a = false.
Proof.
  unfold keyed_lt, lt_of. rewrite (cmp_opp (c:=c) (key a) (key b)).
  by destruct (c (key a) (key b)).
Qed.

Lemma keyed_le_iff a b : le keyed_lt a b <-> c (key a) (key b) <> Gt.
Proof.
  unfold le, keyed_lt, lt_of. rewrite (cmp_opp (c:=c) (key a) (key b)).
  by destruct (c (key a) (key b)).
Qed.

Lemma keyed_le_trans a b d :
  le keyed_lt a b -> le keyed_lt b d -> le keyed_lt a d.
Proof.
  rewrite !keyed_le_iff. intros H1 H2.
  destruct (c (key a) (key b)) eqn:E1; [| |done].
  - apply cmp_eq in E1. by rewrite E1.
  - destruct (c (key b) (key d)) eqn:E2; [| |done].
    + apply cmp_eq in E2. rewrite <- E2, E1. done.
    + rewrite (cmp_lt_trans _ _ _ E1 E2). done.
Qed.

Lemma keyed_le_total a b : le keyed_lt a b \/ le keyed_lt b a.
Proof.
  unfold le. destruct (keyed_lt b a) eqn:E; [right; by apply keyed_asym|by left].
Qed.

End Keyed.

Section SortFacts.
Context {A : Type} (ltb : A -> A -> bool).
Hypothesis asym : forall a b, ltb a b = true -> ltb b a = false.
Hypothesis le_trans : forall a b d, le ltb a b -> le ltb b d -> le ltb a d.

Lemma insert_perm x l : insert ltb x l ≡ₚ x :: l.
Proof.
  induction l as [|y l IH]; simpl; [done|].
  destruct (ltb y x); [|done]. rewrite IH. apply Permutation_swap.
Qed.

Lemma sort_perm l : sort ltb l ≡ₚ l.
Proof.
  induction l as [|x l IH]; simpl; [done|].
  by rewrite insert_perm, IH.
Qed.

Lemma insert_sorted x l :
  StronglySorted (le ltb) l -> StronglySorted (le ltb) (insert ltb x l).
Proof.
  induction 1 as [|y l Hl IH Hy]; simpl.
  - repeat constructor.
  - destruct (ltb y x) eqn:E.
    + constructor; [done|].
      rewrite (insert_perm x l). constructor; [|done].
      by apply asym.
    + constructor; [by constructor|].
      constructor; [exact E|].
      eapply Forall_impl; [exact Hy|]. intros z Hz. by eapply le_trans.
Qed.

Lemma sort_sorted l : StronglySorted (le ltb) (sort ltb l).
Proof.
  induction l as [|x l IH]; simpl; [constructor|by apply insert_sorted].
Qed.

Lemma insert_head x l : Forall (le ltb x) l -> insert ltb x l = x :: l.
Proof.
  destruct 1 as [|y l Hy _]; simpl; [done|].
  unfold le in Hy. by rewrite Hy.
Qed.

(** Sorting a sorted list changes nothing. *)
Lemma sort_id l : StronglySorted (le ltb) l -> sort ltb l = l.
Proof.
  induction 1 as [|x l Hl IH Hx]; simpl; [done|].
  rewrite IH. by apply insert_head.
Qed.

(** A stable sort commutes with a comprehension that filters. *)
Lemma insert_filter (P : A -> Prop) `{!forall a, Decision (P a)} x l :
  StronglySorted (le ltb) l ->
  filter P (insert ltb x l) =
  if decide (P x) then insert ltb x (filter P l) else filter P l.
Proof.
  induction 1 as [|y l Hl IH Hy]; simpl.
  - rewrite filter_cons, filter_nil. by destruct (decide (P x)).
  - destruct (ltb y x) eqn:E.
    + rewrite !filter_cons, IH.
      destruct (decide (P x)), (decide (P y)); simpl; try done.
      by rewrite E.
    + rewrite !filter_cons.
      destruct (decide (P x)); [|done].
      destruct (decide (P y)); simpl.
      * by rewrite E.
      * symmetry. apply insert_head.
        apply Forall_forall. intros z Hz.
        apply list_elem_of_filter in Hz as [_ Hz].
        rewrite Forall_forall in Hy.
        eapply le_trans; [exact E|]. by apply Hy.
Qed.

Lemma sort_filter (P : A -> Prop) `{!forall a, Decision (P a)} l :
  filter P (sort ltb l) = sort ltb (filter P l).
Proof.
  induction l as [|x l IH]; simpl; [done|].
  rewrite insert_filter by apply sort_sorted.
  rewrite filter_cons, IH. by destruct (decide (P x)).
Qed.

End SortFacts.

(** Sorting by a key is sorting the keys. *)
Lemma insert_map {A K} (ltk : K -> K -> bool) (key : A -> K) x l :
  key <$> insert (fun a b => ltk (key a) (key b)) x l
  = insert ltk (key x) (key <$> l).
Proof.
  induction l as [|y l IH]; [done|].
  rewrite fmap_cons. cbn [insert].
  destruct (ltk (key y) (key x)); [by rewrite fmap_cons, IH|done].
Qed.

Lemma sort_map {A K} (ltk : K -> K -> bool) (key : A -> K) l :
  key <$> sort (fun a b => ltk (key a) (key b)) l = sort ltk (key <$> l).
Proof.
  induction l as [|x l IH]; [done|].
  rewrite fmap_cons. cbn [sort]. by rewrite insert_map, IH.
Qed.

Section SortEnds.
Context {A : Type} (ltb : A -> A -> bool).
Hypothesis asym : forall a b, ltb a b = true -> ltb b a = false.
Hypothesis le_trans : forall a b d, le ltb a b -> le ltb b d -> le ltb a d.

Lemma le_refl a : le ltb a a.
Proof.
  unfold le. destruct (ltb a a) eqn:E; [|done].
  by rewrite (asym a a E) in E.
Qed.

Lemma sorted_head_le l x :
  StronglySorted (le ltb) l -> head l = Some x -> forall y, y ∈ l -> le ltb x y.
Proof.
  intros Hs Hh y Hy. destruct Hs as [|z l Hl Hz]; [done|].
  injection Hh as ->. apply elem_of_cons in Hy as [->|Hy]; [apply le_refl|].
  rewrite Forall_forall in Hz. by apply Hz.
Qed.

Lemma sorted_last_ge l x :
  StronglySorted (le ltb) l -> last l = Some x -> forall y, y ∈ l -> le ltb y x.
Proof.
  induction 1 as [|z l Hl IH Hz]; [done|].
  intros Hlast y Hy. destruct l as [|z' l'].
  - injection Hlast as ->. apply elem_of_cons in Hy as [->|Hy]; [apply le_refl|].
    by apply elem_of_nil in Hy.
  - change (last (z' :: l') = Some x) in Hlast.
    apply elem_of_cons in Hy as [->|Hy]; [|by apply IH].
    rewrite Forall_forall in Hz.
    eapply le_trans; [apply (Hz z'); by left|]. apply IH; [done|by left].
Qed.

(** The first item of a sorted list is a least element of the original,
    the last item a greatest one. *)
Lemma sort_first l x :
  head (sort ltb l) = Some x -> x ∈ l /\ forall y, y ∈ l -> le ltb x y.
Proof.
  intros Hh. split.
  - rewrite <- (sort_perm ltb l). by apply head_Some_elem_of.
  - intros y Hy. eapply sorted_head_le; [by apply sort_sorted|done|].
    by rewrite (sort_perm ltb l).
Qed.

Lemma sort_last l x :
  last (sort ltb l) = Some x -> x ∈ l /\ forall y, y ∈ l -> le ltb y x.
Proof.
  intros Hh. split.
  - rewrite <- (sort_perm ltb l). by apply last_Some_elem_of.
  - intros y Hy. eapply sorted_last_ge; [by apply sort_sorted|done|].
    by rewrite (sort_perm ltb l).
Qed.

End SortEnds.

(** Pairs of integers, as Python orders 2-tuples. *)
Definition lt_pair : Z * Z -> Z * Z -> bool :=
  lt_of (pair_cmp Z.compare Z.compare).

Lemma le_pair_iff a b :
  le lt_pair a b <-> a.1 < b.1 \/ (a.1 = b.1 /\ a.2 <= b.2).
Proof.
  unfold le, lt_pair, lt_of, pair_cmp.
  destruct (Z.compare_spec b.1 a.1), (Z.compare_spec b.2 a.2); simpl;
    split; try done; try lia.
Qed.

Lemma lt_pair_asym a b : lt_pair a b = true -> lt_pair b a = false.
Proof. apply (keyed_asym (pair_cmp Z.compare Z.compare) id). Qed.

Lemma le_pair_trans a b d :
  le lt_pair a b -> le lt_pair b d -> le lt_pair a d.
Proof. rewrite !le_pair_iff. lia. Qed.

End Order.

(** ** query_sdb: from hit-pairs to regions *)

Module Hits.

(** (start, end, orientation) and a hit-pair (query interval, target
    interval), as the index engine returns them. *)
Definition interval : Type := Z * Z * Z.
Definition hitpair : Type := interval * interval.

Definition i_start (i : interval) : Z := i.1.1.
Definition i_end (i : interval) : Z := i.1.2.
Definition i_orient (i : interval) : Z := i.2.

(** The emitted tuple (bgn, end, end-bgn, orientation, aln). *)
Record region := {
  r_bgn : Z; r_end : Z; r_len : Z; r_orientation : Z; r_aln : list hitpair }.

(** [hp[0][2] == hp[1][2]] *)
Definition agree (hp : hitpair) : bool := i_orient hp.1 =? i_orient hp.2.

(** [for hp in aln:] over the counters (f_count, r_count). *)
Definition count_hp (c : Z * Z) (hp : hitpair) : Z * Z :=
  if agree hp then (c.1 + 1, c.2) else (c.1, c.2 + 1).

(** [sid_to_alns.setdefault(sid, []); sid_to_alns[sid].append(x)] *)
Definition append_at {V} (m : gmap Z (list V)) (sid : Z) (x : V) : gmap Z (list V) :=
  <[sid := default [] (m !! sid) ++ [x]]> m.

Section Query.
Context {Score : Type}.

(** The body of [for s, aln in alns:].  The counters are those of the
    enclosing [for (sid, alns) in r:] iteration. *)
Definition aln_step (sid : Z)
    (st : Z * Z * gmap Z (list (list hitpair * Z))) (sa : Score * list hitpair)
  : Z * Z * gmap Z (list (list hitpair * Z)) :=
  let '(f_count, r_count, sid_to_alns) := st in
  let aln := sa.2 in
  if (2 <? Z.of_nat (length aln)) then
    let '(f_count, r_count) := foldl count_hp (f_count, r_count) aln in
    let orientation := if r_count <? f_count then 0 else 1 in
    (f_count, r_count, append_at sid_to_alns sid (aln, orientation))
  else st.

(** The body of [for (sid, alns) in r:]: both counters start at 0 here. *)
Definition sid_step (sid_to_alns : gmap Z (list (list hitpair * Z)))
    (e : Z * list (Score * list hitpair)) : gmap Z (list (list hitpair * Z)) :=
  (foldl (aln_step e.1) (0, 0, sid_to_alns) e.2).2.

Definition sid_to_alns (r : list (Z * list (Score * list hitpair)))
  : gmap Z (list (list hitpair * Z)) :=
  foldl sid_step ∅ r.

End Query.

(** The body of [for aln, orientation in alns:]; [None] is the IndexError
    of [target_coor[0]] on an empty alignment. *)
Definition region_of (ao : list hitpair * Z) : option region :=
  let '(aln, orientation) := ao in
  let target_coor := (fun hp : hitpair => (i_start hp.2, i_end hp.2)) <$> aln in
  let target_coor := Order.sort Order.lt_pair target_coor in
  first ← Py.first_item target_coor;
  last ← Py.last_item target_coor;
  let bgn := Z.min first.1 first.2 in
  let end_ := Z.max last.1 last.2 in
  Some {| r_bgn := bgn; r_end := end_; r_len := end_ - bgn;
          r_orientation := orientation; r_aln := aln |}.

(** [aln_range] as it stands before the optional merging pass; [None]
    when some [region_of] raised. *)
Definition aln_range {Score} (r : list (Z * list (Score * list hitpair)))
  : option (gmap Z (list region)) :=
  let m := mapM region_of <$> sid_to_alns r in
  if decide (map_Forall (fun _ v => is_Some v) m)
  then Some (default [] <$> m) else None.

(** The two tallies of one alignment taken on its own. *)
Definition own_counts (aln : list hitpair) : Z * Z := foldl count_hp (0, 0) aln.

(** All start and end values of the target intervals of an alignment. *)
Definition target_values (aln : list hitpair) : list Z :=
  aln ≫= fun hp => [i_start hp.2; i_end hp.2].

Definition is_min (x : Z) (l : list Z) : Prop := x ∈ l /\ forall y, y ∈ l -> x <= y.
Definition is_max (x : Z) (l : list Z) : Prop := x ∈ l /\ forall y, y ∈ l -> y <= x.

Definition hp (qs qe qo ts te to : Z) : hitpair := ((qs, qe, qo), (ts, te, to)).

(** Target intervals that do not nest: a later start never comes with an
    earlier end.  Nothing is asked of the order of start and end within
    an interval. *)
Definition non_nesting (aln : list hitpair) : Prop :=
  Forall (fun h1 => Forall (fun h2 =>
    i_start h1.2 < i_start h2.2 -> i_end h1.2 <= i_end h2.2) aln) aln.

(** What the code reads the bounds off: [first] is a least and [last] a
    greatest target interval of the alignment in the order of the sorted
    (start, end) pairs. *)
Definition sorted_ends (aln : list hitpair) (first last : hitpair) : Prop :=
  first ∈ aln /\ last ∈ aln
  /\ (forall h, h ∈ aln ->
        Order.le Order.lt_pair (i_start first.2, i_end first.2)
                               (i_start h.2, i_end h.2))
  /\ (forall h, h ∈ aln ->
        Order.le Order.lt_pair (i_start h.2, i_end h.2)
                               (i_start last.2, i_end last.2)).

(** *** The tallies *)

Lemma count_hp_shift aln : forall f0 r0,
  foldl count_hp (f0, r0) aln
  = (f0 + (own_counts aln).1, r0 + (own_counts aln).2).
Proof.
  unfold own_counts.
  induction aln as [|h aln IH] using rev_ind; intros f0 r0.
  - simpl. f_equal; lia.
  - rewrite !foldl_snoc, IH.
    destruct (foldl count_hp (0, 0) aln) as [a b]. unfold count_hp.
    destruct (agree h); simpl; f_equal; lia.
Qed.

(** What the code decides for a retained alignment: the counters it
    compares carry over from the alignments of the same target id that
    were tallied before it. *)
Lemma aln_step_orientation {Score} sid f0 r0 m (sa : Score * list hitpair) :
  2 < Z.of_nat (length sa.2) ->
  aln_step sid (f0, r0, m) sa
  = (f0 + (own_counts sa.2).1, r0 + (own_counts sa.2).2,
     append_at m sid
       (sa.2, if r0 + (own_counts sa.2).2 <? f0 + (own_counts sa.2).1
              then 0 else 1)).
Proof.
  intros Hlen. unfold aln_step. apply Z.ltb_lt in Hlen. rewrite Hlen.
  by rewrite count_hp_shift.
Qed.

(** *** Every emitted region comes from [region_of] *)

Lemma aln_range_lookup {Score} (r : list (Z * list (Score * list hitpair)))
    m sid regs :
  aln_range r = Some m -> m !! sid = Some regs ->
  exists alns, sid_to_alns r !! sid = Some alns
               /\ Forall2 (fun ao reg => region_of ao = Some reg) alns regs.
Proof.
  unfold aln_range. intros H Hl. case_decide as Hall; [|done].
  injection H as <-. rewrite !lookup_fmap in Hl.
  destruct (sid_to_alns r !! sid) as [alns|] eqn:E; [|done].
  exists alns. split; [done|]. simpl in Hl.
  destruct (mapM region_of alns) as [regs'|] eqn:E'.
  - simpl in Hl. injection Hl as <-. by apply mapM_Some in E'.
  - specialize (Hall sid None). rewrite lookup_fmap, E in Hall. simpl in Hall.
    rewrite E' in Hall. by destruct (Hall eq_refl).
Qed.

Lemma aln_range_region {Score} (r : list (Z * list (Score * list hitpair)))
    m sid regs reg :
  aln_range r = Some m -> m !! sid = Some regs -> reg ∈ regs ->
  region_of (r_aln reg, r_orientation reg) = Some reg.
Proof.
  intros H Hl Hin.
  destruct (aln_range_lookup r m sid regs H Hl) as (alns & _ & HF).
  apply list_elem_of_lookup in Hin as [i Hi].
  destruct (Forall2_lookup_r _ _ _ _ _ HF Hi) as ([aln o] & _ & Hr).
  assert (r_aln reg = aln /\ r_orientation reg = o) as [-> ->]; [|done].
  unfold region_of in Hr.
  destruct (Py.first_item _); [|done]. destruct (Py.last_item _); [|done].
  simpl in Hr. by injection Hr as <-.
Qed.

(** *** The bounds of a region *)

Lemma region_of_bounds aln o reg :
  region_of (aln, o) = Some reg ->
  exists first last : hitpair,
    first ∈ aln /\ last ∈ aln
    /\ r_bgn reg = Z.min (i_start first.2) (i_end first.2)
    /\ r_end reg = Z.max (i_start last.2) (i_end last.2)
    /\ (forall h, h ∈ aln ->
          Order.le Order.lt_pair (i_start first.2, i_end first.2)
                                 (i_start h.2, i_end h.2))
    /\ (forall h, h ∈ aln ->
          Order.le Order.lt_pair (i_start h.2, i_end h.2)
                                 (i_start last.2, i_end last.2)).
Proof.
  unfold region_of. rewrite Py.first_item_head, Py.last_item_last.
  set (tc := fun h : hitpair => (i_start h.2, i_end h.2)).
  destruct (head _) as [f|] eqn:Hf; [|done].
  destruct (last _) as [l|] eqn:Hl; [|done]. simpl. intros [= <-]. simpl.
  apply (Order.sort_first _ Order.lt_pair_asym Order.le_pair_trans) in Hf
    as [Hfin Hfle].
  apply (Order.sort_last _ Order.lt_pair_asym Order.le_pair_trans) in Hl
    as [Hlin Hlle].
  apply list_elem_of_fmap in Hfin as (hf & -> & Hfin).
  apply list_elem_of_fmap in Hlin as (hl & -> & Hlin).
  exists hf, hl. repeat split; try done.
  - intros h Hh. apply Hfle. apply list_elem_of_fmap. by exists h.
  - intros h Hh. apply Hlle. apply list_elem_of_fmap. by exists h.
Qed.

Lemma elem_of_target_values aln v :
  v ∈ target_values aln <-> exists h, h ∈ aln /\ (v = i_start h.2 \/ v = i_end h.2).
Proof.
  unfold target_values. rewrite list_elem_of_bind. split.
  - intros (h & Hv & Hh). exists h. split; [done|].
    apply elem_of_cons in Hv as [->|Hv]; [by left|].
    apply elem_of_cons in Hv as [->|Hv]; [by right|]. by apply elem_of_nil in Hv.
  - intros (h & Hh & [->| ->]); exists h; (split; [|done]).
    + by left.
    + right. by left.
Qed.

(** *** Only alignments of more than two hit-pairs are kept, so no
    [region_of] raises *)

Definition retained (m : gmap Z (list (list hitpair * Z))) : Prop :=
  forall sid alns, m !! sid = Some alns ->
    Forall (fun ao => 2 < Z.of_nat (length ao.1)) alns.

Lemma append_at_retained m sid aln o :
  retained m -> 2 < Z.of_nat (length aln) -> retained (append_at m sid (aln, o)).
Proof.
  intros Hm Hlen sid' alns. unfold append_at.
  destruct (decide (sid = sid')) as [->|Hne].
  - rewrite lookup_insert_eq. intros [= <-]. apply Forall_app. split.
    + destruct (m !! sid') eqn:E; simpl; [by eapply Hm|constructor].
    + by repeat constructor.
  - rewrite lookup_insert_ne by done. apply Hm.
Qed.

Lemma aln_step_retained {Score} sid st (sa : Score * list hitpair) :
  retained st.2 -> retained (aln_step sid st sa).2.
Proof.
  destruct st as [[f0 r0] m]. simpl. intros Hm. unfold aln_step.
  destruct (Z.ltb_spec 2 (Z.of_nat (length sa.2))); [|done].
  destruct (foldl count_hp (f0, r0) sa.2). simpl. by apply append_at_retained.
Qed.

Lemma sid_to_alns_retained {Score} (r : list (Z * list (Score * list hitpair))) :
  retained (sid_to_alns r).
Proof.
  unfold sid_to_alns.
  induction r as [|e r IH] using rev_ind.
  - intros sid alns. simpl. by rewrite lookup_empty.
  - rewrite foldl_snoc. unfold sid_step at 1.
    generalize (foldl sid_step ∅ r) IH. intros m Hm.
    assert (retained (0, 0, m).2) as H0 by done.
    revert H0. generalize (0, 0, m).
    induction e.2 as [|sa sas IHs] using rev_ind; intros st Hst; [done|].
    rewrite foldl_snoc. apply aln_step_retained. by apply IHs.
Qed.

Lemma region_of_is_Some aln o : aln <> [] -> is_Some (region_of (aln, o)).
Proof.
  intros Hne. unfold region_of. rewrite Py.first_item_head, Py.last_item_last.
  set (l := Order.sort _ _).
  assert (l <> []) as Hl.
  { intros E. apply Hne. apply (fmap_nil_inv (fun h : hitpair => (i_start h.2, i_end h.2))).
    apply Permutation_nil_r. rewrite <- E. symmetry. apply Order.sort_perm. }
  destruct (head l) eqn:Eh; [|by apply head_None in Eh].
  destruct (last l) eqn:El; [|by apply last_None in El]. simpl. eauto.
Qed.

(** The part of [query_sdb] before the merging pass always produces its
    dictionary. *)
Lemma aln_range_total {Score} (r : list (Z * list (Score * list hitpair))) :
  is_Some (aln_range r).
Proof.
  unfold aln_range. rewrite decide_True; [eauto|].
  intros sid v. rewrite lookup_fmap.
  destruct (sid_to_alns r !! sid) as [alns|] eqn:E; [|done].
  simpl. intros [= <-]. apply mapM_is_Some.
  eapply Forall_impl; [by eapply sid_to_alns_retained|].
  intros [aln o] Hlen. apply region_of_is_Some. intros ->. simpl in Hlen. lia.
Qed.

(** C2 (the code departs from the claim): [f_count] and [r_count] are
    set to 0 once per target id, not once per alignment.  With a first
    alignment of four agreeing hit-pairs and a second of three
    disagreeing ones, the second region is emitted with orientation 0
    although none of its own hit-pairs agree. *)
Theorem C2_orientation_counts_accumulate :
  let a1 := [hp 0 10 0 100 110 0; hp 20 30 0 120 130 0;
             hp 40 50 0 140 150 0; hp 60 70 0 160 170 0] in
  let a2 := [hp 0 10 0 200 210 1; hp 20 30 0 220 230 1; hp 40 50 0 240 250 1] in
  own_counts a2 = (0, 3)
  /\ (fun m => m !! 7) <$> aln_range [(7, [(tt, a1); (tt, a2)])]
     = Some (Some [ {| r_bgn := 100; r_end := 170; r_len := 70;
                       r_orientation := 0; r_aln := a1 |};
                    {| r_bgn := 200; r_end := 250; r_len := 50;
                       r_orientation := 0; r_aln := a2 |} ]).
Proof. cbv zeta. split; vm_compute; reflexivity. Qed.

(** C3, as stated, fails: the bounds are read off the first and the last
    target interval in sorted order only.  An interval that starts first
    and ends last hides its end from the region. *)
Lemma C3_counterexample :
  let a := [hp 0 10 0 0 100 0; hp 20 30 0 10 20 0; hp 40 50 0 30 40 0] in
  (fun m => m !! 7) <$> aln_range [(7, [(tt, a)])]
  = Some (Some [ {| r_bgn := 0; r_end := 40; r_len := 40;
                    r_orientation := 0; r_aln := a |} ])
  /\ ~ is_max 40 (target_values a).
Proof.
  cbv zeta. split; [vm_compute; reflexivity|].
  intros [_ H]. specialize (H 100).
  assert (100 <= 40) as Hle; [|lia].
  apply H. apply elem_of_target_values. exists (hp 0 10 0 0 100 0).
  split; [by left|by right].
Qed.

(** C3 (amended): the region emitted for a retained alignment begins at
    the smaller value of a least target interval and ends at the larger
    value of a greatest target interval, in the order of the sorted
    (start, end) pairs; and when the target intervals do not nest (a
    later start never has an earlier end), these are the minimum and the
    maximum of all target-interval start and end values. *)
Theorem C3_region_bounds {Score} (r : list (Z * list (Score * list hitpair)))
    m sid regs reg :
  aln_range r = Some m -> m !! sid = Some regs -> reg ∈ regs ->
  (exists first last,
     sorted_ends (r_aln reg) first last
     /\ r_bgn reg = Z.min (i_start first.2) (i_end first.2)
     /\ r_end reg = Z.max (i_start last.2) (i_end last.2))
  /\ (non_nesting (r_aln reg) ->
      is_min (r_bgn reg) (target_values (r_aln reg))
      /\ is_max (r_end reg) (target_values (r_aln reg))).
Proof.
  intros H Hl Hin.
  pose proof (aln_range_region r m sid regs reg H Hl Hin) as Hreg.
  apply region_of_bounds in Hreg
    as (f & l & Hf & Hlast & Hb & He & Hfle & Hlle).
  split.
  { exists f, l. by repeat split. }
  intros Hnest. rewrite Hb, He.
  assert (forall h1 h2, h1 ∈ r_aln reg -> h2 ∈ r_aln reg ->
            i_start h1.2 < i_start h2.2 -> i_end h1.2 <= i_end h2.2) as Hn.
  { intros h1 h2 H1 H2. unfold non_nesting in Hnest.
    rewrite Forall_forall in Hnest.
    specialize (Hnest h1 H1). rewrite Forall_forall in Hnest. by apply Hnest. }
  split; split.
  - apply elem_of_target_values. exists f. split; [done|]. lia.
  - intros v (h & Hh & Hv)%elem_of_target_values.
    specialize (Hfle h Hh). apply Order.le_pair_iff in Hfle. simpl in Hfle.
    destruct Hfle as [Hlt|[Heq Hle]].
    + pose proof (Hn f h Hf Hh Hlt). destruct Hv as [-> | ->]; lia.
    + destruct Hv as [-> | ->]; lia.
  - apply elem_of_target_values. exists l. split; [done|]. lia.
  - intros v (h & Hh & Hv)%elem_of_target_values.
    specialize (Hlle h Hh). apply Order.le_pair_iff in Hlle. simpl in Hlle.
    destruct Hlle as [Hlt|[Heq Hle]].
    + pose proof (Hn h l Hh Hlast Hlt). destruct Hv as [-> | ->]; lia.
    + destruct Hv as [-> | ->]; lia.
Qed.

(** Target intervals given end first, which do not nest: the bounds are
    the minimum and the maximum all the same. *)
Definition reversed_targets : list hitpair :=
  [hp 0 10 0 110 100 1; hp 20 30 0 130 120 1; hp 40 50 0 150 140 1].

Lemma C3_region_bounds_witness :
  (exists first last,
     sorted_ends reversed_targets first last
     /\ 100 = Z.min (i_start first.2) (i_end first.2)
     /\ 150 = Z.max (i_start last.2) (i_end last.2))
  /\ is_min 100 (target_values reversed_targets)
  /\ is_max 150 (target_values reversed_targets).
Proof.
  destruct (C3_region_bounds
              [(7, [(tt, reversed_targets)])]
              {[ 7 := [ {| r_bgn := 100; r_end := 150; r_len := 50;
                           r_orientation := 1; r_aln := reversed_targets |} ] ]}
              7
              [ {| r_bgn := 100; r_end := 150; r_len := 50; r_orientation := 1;
                   r_aln := reversed_targets |} ]
              {| r_bgn := 100; r_end := 150; r_len := 50; r_orientation := 1;
                 r_aln := reversed_targets |}) as [Hgen Hnest].
  - vm_compute. reflexivity.
  - vm_compute. reflexivity.
  - left.
  - split; [exact Hgen|]. apply Hnest.
    repeat (apply Forall_cons; split); try apply Forall_nil;
      vm_compute; done.
Defined.

End Hits.

(** ** group_smps_by_principle_bundle_id *)

Module Bundles.

(** (shimmer0, shimmer1, pos0, pos1, direction) *)
Record smp := { shimmer0 : Z; shimmer1 : Z; pos0 : Z; pos1 : Z; direction : Z }.

(** (bundle id, bundle direction, position in bundle) *)
Definition bundle_info : Type := Z * Z * Z.

(** (smp, bid, d, bpos) *)
Record entry := { e_smp : smp; e_bid : Z; e_d : Z; e_bpos : Z }.

Abbreviation smp_partition := (list entry).

(** [p[-1][0][3] - p[0][0][2]]; [None] is the IndexError on an empty list. *)
Definition span (p : smp_partition) : option Z :=
  last ← Py.last_item p;
  first ← Py.first_item p;
  Some (pos1 (e_smp last) - pos0 (e_smp first)).

(** [x != o] where [o] may still be the initial [None]. *)
Definition differs (x : Z) (o : option Z) : bool :=
  match o with Some y => negb (x =? y) | None => true end.

Record seg_state := {
  pbid : option Z;
  pdirection : option Z;
  all_partitions : list smp_partition;
  new_partition : smp_partition }.

(** The body of [for smp, bundle_info in smps:]. *)
Definition seg_step (len_cutoff : Z) (st : seg_state)
    (x : smp * option bundle_info) : option seg_state :=
  match x.2 with
  | None => Some st
  | Some bi =>
      let d := if direction x.1 =? bi.1.2 then 0 else 1 in
      let bid := bi.1.1 in
      let bpos := bi.2 in
      let e := {| e_smp := x.1; e_bid := bid; e_d := d; e_bpos := bpos |} in
      match pbid st, pdirection st with
      | None, None =>
          Some {| pbid := Some bid; pdirection := Some d;
                  all_partitions := all_partitions st; new_partition := [e] |}
      | _, _ =>
          if differs bid (pbid st) || differs d (pdirection st) then
            sp ← span (new_partition st);
            let all := if len_cutoff <? sp
                       then all_partitions st ++ [new_partition st]
                       else all_partitions st in
            Some {| pbid := Some bid; pdirection := Some d;
                    all_partitions := all; new_partition := [e] |}
          else
            Some {| pbid := pbid st; pdirection := pdirection st;
                    all_partitions := all_partitions st;
                    new_partition := new_partition st ++ [e] |}
      end
  end.

Fixpoint seg_loop (len_cutoff : Z) (st : seg_state)
    (smps : list (smp * option bundle_info)) : option seg_state :=
  match smps with
  | [] => Some st
  | x :: smps' => st' ← seg_step len_cutoff st x; seg_loop len_cutoff st' smps'
  end.

(** Phase 1, up to and including the closing of the last partition. *)
Definition segment_phase (smps : list (smp * option bundle_info))
    (len_cutoff : Z) : option (list smp_partition) :=
  st ← seg_loop len_cutoff
        {| pbid := None; pdirection := None;
           all_partitions := []; new_partition := [] |} smps;
  match new_partition st with
  | [] => Some (all_partitions st)
  | _ :: _ =>
      sp ← span (new_partition st);
      Some (if len_cutoff <? sp
            then all_partitions st ++ [new_partition st]
            else all_partitions st)
  end.

(** The test of the merge loop on the running partition and the next one. *)
Definition merge_test (merge_length : Z) (partition p : smp_partition) : option bool :=
  last ← Py.last_item partition;
  first ← Py.first_item p;
  let p_end := pos1 (e_smp last) in
  let np_bgn := pos0 (e_smp first) in
  Some ((e_bid last =? e_bid first) && (e_d last =? e_d first)
        && (Z.abs (np_bgn - p_end) <? merge_length)).

(** [for p in all_partitions[1:]:] followed by the final append. *)
Fixpoint merge_loop (merge_length : Z) (rtn_partitions : list smp_partition)
    (partition : smp_partition) (ps : list smp_partition) : option (list smp_partition) :=
  match ps with
  | [] => Some (rtn_partitions ++ [partition])
  | p :: ps' =>
      b ← merge_test merge_length partition p;
      if b : bool then merge_loop merge_length rtn_partitions (partition ++ p) ps'
      else merge_loop merge_length (rtn_partitions ++ [partition]) p ps'
  end.

Definition merge_phase (merge_length : Z) (all : list smp_partition)
  : option (list smp_partition) :=
  match all with
  | [] => Some []
  | p0 :: rest => merge_loop merge_length [] p0 rest
  end.

Definition group_smps_by_principle_bundle_id
    (smps : list (smp * option bundle_info)) (len_cutoff merge_length : Z)
  : option (list smp_partition) :=
  all ← segment_phase smps len_cutoff;
  merge_phase merge_length all.

(** *** The properties claimed of the result *)

(** A partition closed in the first phase was kept: its span, from the
    start position of its first entry to the end position of its last,
    exceeds the cutoff. *)
Definition kept (len_cutoff : Z) (p : smp_partition) : Prop :=
  exists sp, span p = Some sp /\ len_cutoff < sp.

(** Two consecutive kept partitions qualify for fusion: same bundle id and
    direction, and the distance between the end position of the first and
    the begin position of the second is below [merge_length]. *)
Definition mergeable (merge_length : Z) (p q : smp_partition) : Prop :=
  exists a b, last p = Some a /\ head q = Some b
    /\ e_bid a = e_bid b /\ e_d a = e_d b
    /\ Z.abs (pos0 (e_smp b) - pos1 (e_smp a)) < merge_length.

(** [fused ml closed out]: [out] cuts the sequence of kept partitions
    exactly between the consecutive pairs that do not qualify, and
    concatenates each run in between. *)
Inductive fused (ml : Z) : list smp_partition -> list smp_partition -> Prop :=
  | fused_nil : fused ml [] []
  | fused_single p : fused ml [p] [p]
  | fused_merge p q ps g gs :
      mergeable ml p q -> fused ml (q :: ps) (g :: gs) ->
      fused ml (p :: q :: ps) ((p ++ g) :: gs)
  | fused_keep p q ps gs :
      ~ mergeable ml p q -> fused ml (q :: ps) gs ->
      fused ml (p :: q :: ps) (p :: gs).

Definition mk_smp (b e d : Z) : smp :=
  {| shimmer0 := 0; shimmer1 := 0; pos0 := b; pos1 := e; direction := d |}.

(** *** Phase 1 *)

Lemma span_nonempty p : p <> [] -> is_Some (span p).
Proof.
  intros Hne. unfold span. rewrite Py.last_item_last, Py.first_item_head.
  destruct (last p) eqn:El; [|by apply last_None in El].
  destruct (head p) eqn:Eh; [|by apply head_None in Eh]. simpl. eauto.
Qed.

Lemma kept_nonempty lc p : kept lc p -> p <> [].
Proof. intros (sp & Hsp & _) ->. discriminate Hsp. Qed.

(** Once the first entry has been seen the open partition is never empty,
    and everything closed so far was kept. *)
Definition seg_inv (lc : Z) (st : seg_state) : Prop :=
  Forall (kept lc) (all_partitions st)
  /\ ((pbid st = None /\ pdirection st = None) \/ new_partition st <> []).

Lemma close_kept lc all p sp :
  Forall (kept lc) all -> span p = Some sp ->
  Forall (kept lc) (if lc <? sp then all ++ [p] else all).
Proof.
  intros Hall Hsp. destruct (Z.ltb_spec lc sp); [|done].
  apply Forall_app. split; [done|]. constructor; [|done]. by exists sp.
Qed.

Lemma seg_step_inv lc st x :
  seg_inv lc st -> exists st', seg_step lc st x = Some st' /\ seg_inv lc st'.
Proof.
  intros [Hall Hopen]. unfold seg_step.
  destruct x.2 as [bi|]; [|by exists st].
  assert (forall e, new_partition st ++ [e] <> []) as Hsnoc.
  { intros e. by destruct (new_partition st). }
  destruct Hopen as [[Eb Ed]|Hne].
  { rewrite Eb, Ed. eexists. split; [reflexivity|]. split; simpl; [done|by right]. }
  destruct (span_nonempty _ Hne) as [sp Hsp].
  destruct (pbid st) as [b|], (pdirection st) as [d|];
    try (destruct (differs _ _ || differs _ _);
         [ rewrite Hsp; simpl; eexists; split; [reflexivity|];
           split; simpl; [by apply close_kept|by right]
         | eexists; split; [reflexivity|]; split; simpl; [done|by right] ]).
  eexists. split; [reflexivity|]. split; simpl; [done|by right].
Qed.

Lemma seg_loop_inv lc smps : forall st,
  seg_inv lc st -> exists st', seg_loop lc st smps = Some st' /\ seg_inv lc st'.
Proof.
  induction smps as [|x smps IH]; intros st Hst; simpl; [by exists st|].
  destruct (seg_step_inv lc st x Hst) as (st1 & -> & H1). simpl. by apply IH.
Qed.

Lemma segment_phase_kept smps lc :
  exists closed, segment_phase smps lc = Some closed /\ Forall (kept lc) closed.
Proof.
  unfold segment_phase.
  edestruct (seg_loop_inv lc smps) as (st & -> & [Hall Hopen]).
  { split; simpl; [constructor|by left]. }
  simpl. destruct (new_partition st) as [|e l] eqn:E; [by eexists|].
  destruct (span_nonempty (e :: l)) as [sp Hsp]; [done|].
  rewrite Hsp. simpl. eexists. split; [done|]. by apply close_kept.
Qed.

(** *** Phase 2 *)

Lemma merge_test_spec ml cur p :
  cur <> [] -> p <> [] ->
  exists b, merge_test ml cur p = Some b /\ (b = true <-> mergeable ml cur p).
Proof.
  intros Hc Hp. unfold merge_test, mergeable.
  rewrite Py.last_item_last, Py.first_item_head.
  destruct (last cur) as [a|] eqn:El; [|by apply last_None in El].
  destruct (head p) as [f|] eqn:Eh; [|by apply head_None in Eh]. simpl.
  eexists. split; [reflexivity|].
  rewrite !andb_true_iff, !Z.eqb_eq, Z.ltb_lt. split.
  - intros [[? ?] ?]. by exists a, f.
  - intros (a' & f' & [= <-] & [= <-] & ? & ? & ?). done.
Qed.

Lemma mergeable_app ml pre cur p :
  cur <> [] -> mergeable ml (pre ++ cur) p <-> mergeable ml cur p.
Proof.
  intros Hc. unfold mergeable.
  destruct (exists_last Hc) as (c' & x & ->).
  by rewrite app_assoc, !last_snoc.
Qed.

Lemma merge_loop_fused ml ps : forall rtn pre cur,
  cur <> [] -> Forall (fun p => p <> []) ps ->
  exists g gs,
    merge_loop ml rtn (pre ++ cur) ps = Some (rtn ++ (pre ++ g) :: gs)
    /\ fused ml (cur :: ps) (g :: gs).
Proof.
  induction ps as [|p ps IH]; intros rtn pre cur Hc Hps; simpl.
  - exists cur, []. split; [done|constructor].
  - apply Forall_cons in Hps as [Hp Hps].
    assert (pre ++ cur <> []) as Hpc by (by destruct pre, cur).
    destruct (merge_test_spec ml (pre ++ cur) p Hpc Hp) as (b & -> & Hb).
    rewrite mergeable_app in Hb by done. simpl. destruct b.
    + destruct (IH rtn (pre ++ cur) p Hp Hps) as (g & gs & Hm & Hf).
      exists (cur ++ g), gs. split; [by rewrite Hm, <- app_assoc|].
      apply fused_merge; [by apply Hb|done].
    + destruct (IH (rtn ++ [pre ++ cur]) [] p Hp Hps) as (g & gs & Hm & Hf).
      simpl in Hm.
      exists cur, (g :: gs). split; [by rewrite Hm, <- app_assoc|].
      apply fused_keep; [|done]. intros Hm'. apply Hb in Hm'. done.
Qed.

Lemma merge_phase_fused ml closed :
  Forall (fun p => p <> []) closed ->
  exists out, merge_phase ml closed = Some out /\ fused ml closed out.
Proof.
  intros Hne. destruct closed as [|p0 rest]; simpl.
  - exists []. split; [done|constructor].
  - apply Forall_cons in Hne as [H0 Hrest].
    destruct (merge_loop_fused ml rest [] [] p0 H0 Hrest) as (g & gs & Hm & Hf).
    simpl in Hm. eauto.
Qed.

(** The merge phase neither drops nor reorders entries. *)
Lemma fused_concat ml closed out : fused ml closed out -> concat out = concat closed.
Proof.
  induction 1 as [| |p q ps g gs _ _ IH|p q ps gs _ _ IH]; simpl in *; try done.
  - rewrite <- IH. by rewrite app_assoc.
  - by rewrite IH.
Qed.

(** The function returns a list for every input and both parameters. *)
Lemma group_smps_total smps lc ml :
  is_Some (group_smps_by_principle_bundle_id smps lc ml).
Proof.
  unfold group_smps_by_principle_bundle_id.
  destruct (segment_phase_kept smps lc) as (closed & -> & Hk). simpl.
  destruct (merge_phase_fused ml closed) as (out & -> & _); [|done].
  eapply Forall_impl; [exact Hk|]. apply kept_nonempty.
Qed.

(** C5: the partitions returned are built from the partitions closed in
    the segmentation phase, each of which has a span (end position of its
    last entry minus start position of its first entry) strictly above
    [len_cutoff]; and the merge phase fuses two consecutive kept
    partitions exactly when they share bundle id and direction and the
    gap (the distance [abs (np_bgn - p_end)]) between the end position of
    the running partition and the begin position of the next one is below
    [merge_length]: a qualifying pair is always fused, any other pair is
    always kept apart. *)
Theorem C5_partitions_kept_and_fused smps len_cutoff merge_length rtn :
  group_smps_by_principle_bundle_id smps len_cutoff merge_length = Some rtn ->
  exists closed,
    segment_phase smps len_cutoff = Some closed
    /\ Forall (kept len_cutoff) closed
    /\ fused merge_length closed rtn.
Proof.
  unfold group_smps_by_principle_bundle_id. intros H.
  destruct (segment_phase_kept smps len_cutoff) as (closed & Hc & Hk).
  rewrite Hc in H. simpl in H. exists closed. split; [done|]. split; [done|].
  destruct (merge_phase_fused merge_length closed) as (out & Hm & Hf).
  { eapply Forall_impl; [exact Hk|]. apply kept_nonempty. }
  rewrite Hm in H. by injection H as <-.
Qed.

Definition mk_entry (b e bid d bpos : Z) : entry :=
  {| e_smp := mk_smp b e 0; e_bid := bid; e_d := d; e_bpos := bpos |}.

Lemma C5_partitions_kept_and_fused_witness :
  let smps := [ (mk_smp 0 100 0, Some (1, 0, 0));
                (mk_smp 100 200 0, Some (1, 0, 1));
                (mk_smp 200 210 0, Some (2, 0, 0));
                (mk_smp 210 300 0, None);
                (mk_smp 300 400 0, Some (1, 0, 2));
                (mk_smp 5000 5100 0, Some (1, 0, 7)) ] in
  exists closed,
    segment_phase smps 50 = Some closed
    /\ Forall (kept 50) closed
    /\ fused 1000 closed
         [ [mk_entry 0 100 1 0 0; mk_entry 100 200 1 0 1;
            mk_entry 300 400 1 0 2; mk_entry 5000 5100 1 0 7] ].
Proof.
  cbv zeta.
  apply (C5_partitions_kept_and_fused
           [ (mk_smp 0 100 0, Some (1, 0, 0));
             (mk_smp 100 200 0, Some (1, 0, 1));
             (mk_smp 200 210 0, Some (2, 0, 0));
             (mk_smp 210 300 0, None);
             (mk_smp 300 400 0, Some (1, 0, 2));
             (mk_smp 5000 5100 0, Some (1, 0, 7)) ] 50 1000).
  vm_compute. reflexivity.
Defined.

End Bundles.

(** ** merge_regions *)

Module Regions.

Import Order.

(** A region tuple (bgn, end, len, orientation, aln).  Its fifth field is
    a reference to a list object: [list(r)] copies the five fields, not the
    list behind the fifth, and [x[4] += y[4]] extends that list in place.
    The alignment lists therefore live in a store, addressed by the
    reference the tuples carry. *)
Abbreviation loc := Z.

Record region := {
  bgn : Z; end_ : Z; len : Z; orientation : Z; aln : loc }.

Abbreviation store := (gmap Z (list Hits.hitpair)).

Definition deref (st : store) (l : loc) : list Hits.hitpair :=
  default [] (st !! l).

(** What a region tuple compares and prints as: the fifth field followed. *)
Definition rvalue : Type := Z * Z * Z * Z * list Hits.hitpair.

Definition vb (v : rvalue) : Z := v.1.1.1.1.
Definition ve (v : rvalue) : Z := v.1.1.1.2.
Definition vl (v : rvalue) : Z := v.1.1.2.
Definition vo (v : rvalue) : Z := v.1.2.
Definition va (v : rvalue) : list Hits.hitpair := v.2.

Definition value (st : store) (r : region) : rvalue :=
  (bgn r, end_ r, len r, orientation r, deref st (aln r)).

Definition cmp_interval : Hits.interval -> Hits.interval -> comparison :=
  pair_cmp (pair_cmp Z.compare Z.compare) Z.compare.

Definition cmp_hitpair : Hits.hitpair -> Hits.hitpair -> comparison :=
  pair_cmp cmp_interval cmp_interval.

Definition cmp_value : rvalue -> rvalue -> comparison :=
  pair_cmp (pair_cmp (pair_cmp (pair_cmp Z.compare Z.compare) Z.compare)
              Z.compare)
           (list_cmp cmp_hitpair).

(** [a < b] on region tuples, with the lists as they are in [st]. *)
Definition lt_value : rvalue -> rvalue -> bool := lt_of cmp_value.
Definition lt_region (st : store) (a b : region) : bool :=
  lt_value (value st a) (value st b).

(** [l[-1] = x] *)
Definition set_last {A} (l : list A) (x : A) : list A :=
  match l with [] => [] | _ => removelast l ++ [x] end.

(** The body of [for r in frgns:] (and of its twin over [rrgns]), on the
    store, the list of kept copies and [last].  [last] is set together with
    the first append, so the kept list is non-empty whenever [last] is not
    [None]; the branch for an empty kept list is never taken. *)
Definition scan_step (tol : Z) (s : store * list region * option Z) (r : region)
  : store * list region * option Z :=
  let '(st, kept, last_end) := s in
  match last_end with
  | None => (st, kept ++ [r], Some (end_ r))
  | Some la =>
      match last kept with
      | None => s
      | Some k =>
          if end_ r <? end_ k then s
          else if bgn r - la <? tol then
            let k' := {| bgn := bgn k; end_ := end_ r; len := len k + len r;
                         orientation := orientation k; aln := aln k |} in
            let st' := <[aln k := deref st (aln k) ++ deref st (aln r)]> st in
            (st', set_last kept k', Some (end_ k'))
          else (st, kept ++ [r], Some (end_ r))
      end
  end.

Definition scan (tol : Z) (st : store) (rs : list region) : store * list region :=
  (foldl (scan_step tol) (st, [], None) rs).1.

(** [merge_regions(rgns, tol)] run in store [st]: the store it leaves, the
    caller's list object [rgns] as it is afterwards (sorted in place), and
    the list returned. *)
Definition merge_regions (st : store) (rgns : list region) (tol : Z)
  : store * list region * list region :=
  let rgns := sort (lt_region st) rgns in
  let frgns := filter (fun r => orientation r = 0) rgns in
  let rrgns := filter (fun r => orientation r = 1) rgns in
  let '(st, fwd_rgns) := scan tol st frgns in
  let '(st, rev_rgns) := scan tol st rrgns in
  (st, rgns, fwd_rgns ++ rev_rgns).

Definition values (st : store) (l : list region) : list rvalue := value st <$> l.

(** Merging the returned list once more, compared as values with what the
    first call returned. *)
Definition remerge_same (st : store) (rgns : list region) (tol : Z) : Prop :=
  let '(st1, _, out1) := merge_regions st rgns tol in
  let '(st2, _, out2) := merge_regions st1 out1 tol in
  values st2 out2 = values st1 out1.

Definition mk_region (b e l o : Z) (a : loc) : region :=
  {| bgn := b; end_ := e; len := l; orientation := o; aln := a |}.

(** *** The scan read on values

    When no alignment list is shared between two regions, the store only
    ever changes under the kept copy that is being extended, and the scan
    computes the following function of the region values. *)

Definition vmerge1 (k r : rvalue) : rvalue :=
  (vb k, ve r, vl k + vl r, vo k, va k ++ va r).

Fixpoint go (tol : Z) (cur : rvalue) (rest : list rvalue) : list rvalue :=
  match rest with
  | [] => [cur]
  | r :: rest' =>
      if ve r <? ve cur then go tol cur rest'
      else if vb r - ve cur <? tol then go tol (vmerge1 cur r) rest'
      else cur :: go tol r rest'
  end.

Definition vscan (tol : Z) (vs : list rvalue) : list rvalue :=
  match vs with [] => [] | x :: rest => go tol x rest end.

Definition vmerge (vs : list rvalue) (tol : Z) : list rvalue :=
  let s := sort lt_value vs in
  vscan tol (filter (fun v => vo v = 0) s)
  ++ vscan tol (filter (fun v => vo v = 1) s).

(** *** The order on region values *)

#[export] Instance cmp_value_total : TotalCmp cmp_value.
Proof. unfold cmp_value, cmp_hitpair, cmp_interval. apply _. Qed.

Definition le_v : rvalue -> rvalue -> Prop := le lt_value.

Lemma le_v_iff a b : le_v a b <-> cmp_value a b <> Gt.
Proof. apply (keyed_le_iff cmp_value id). Qed.

Lemma lt_value_asym a b : lt_value a b = true -> lt_value b a = false.
Proof. apply (keyed_asym cmp_value id). Qed.

Lemma le_v_trans a b d : le_v a b -> le_v b d -> le_v a d.
Proof. apply (keyed_le_trans cmp_value id). Qed.

Lemma cmp_value_unfold a b :
  cmp_value a b
  = lex (lex (lex (lex (vb a ?= vb b) (ve a ?= ve b)) (vl a ?= vl b))
           (vo a ?= vo b))
        (list_cmp cmp_hitpair (va a) (va b)).
Proof. reflexivity. Qed.

Lemma le_v_b_lt a b : vb a < vb b -> le_v a b.
Proof.
  intros H. apply le_v_iff. rewrite cmp_value_unfold.
  apply Z.compare_lt_iff in H. by rewrite H.
Qed.

Lemma le_v_e_lt a b : vb a = vb b -> ve a < ve b -> le_v a b.
Proof.
  intros Hb H. apply le_v_iff. rewrite cmp_value_unfold.
  apply Z.compare_eq_iff in Hb. apply Z.compare_lt_iff in H.
  by rewrite Hb, H.
Qed.

Lemma le_v_b a b : le_v a b -> vb a <= vb b.
Proof.
  intros H%le_v_iff. rewrite cmp_value_unfold in H.
  destruct (Z.compare_spec (vb a) (vb b)); [lia|lia|by destruct H].
Qed.

(** *** What the scan keeps *)

(** Two consecutive kept regions: the later one was neither skipped nor
    merged. *)
Definition apart (tol : Z) (a b : rvalue) : Prop :=
  ve a <= ve b /\ tol <= vb b - ve a.

Lemma vb_vmerge1 k r : vb (vmerge1 k r) = vb k.
Proof. reflexivity. Qed.
Lemma ve_vmerge1 k r : ve (vmerge1 k r) = ve r.
Proof. reflexivity. Qed.
Lemma vo_vmerge1 k r : vo (vmerge1 k r) = vo k.
Proof. reflexivity. Qed.

Lemma go_head tol rest : forall cur,
  exists h t, go tol cur rest = h :: t
    /\ vb h = vb cur /\ ve cur <= ve h
    /\ (h = cur \/ exists r, r ∈ rest /\ vb r - ve h < tol).
Proof.
  induction rest as [|r rest IH]; intros cur; simpl.
  - exists cur, []. repeat split; [lia|by left].
  - destruct (Z.ltb_spec (ve r) (ve cur)).
    + destruct (IH cur) as (h & t & -> & Hb & He & Hh).
      exists h, t. repeat split; try done.
      destruct Hh as [->|(r' & Hr' & Hlt)]; [by left|right].
      exists r'. split; [by right|done].
    + destruct (Z.ltb_spec (vb r - ve cur) tol).
      * destruct (IH (vmerge1 cur r)) as (h & t & -> & Hb & He & Hh).
        rewrite vb_vmerge1 in Hb. rewrite ve_vmerge1 in He.
        exists h, t. repeat split; [done|lia|].
        right. destruct Hh as [->|(r' & Hr' & Hlt)].
        -- exists r. split; [by left|]. rewrite ve_vmerge1. lia.
        -- exists r'. split; [by right|done].
      * exists cur, (go tol r rest). repeat split; [lia|by left].
Qed.

Lemma go_apart tol rest : forall cur, Sorted (apart tol) (go tol cur rest).
Proof.
  induction rest as [|r rest IH]; intros cur; simpl.
  - repeat constructor.
  - destruct (Z.ltb_spec (ve r) (ve cur)); [apply IH|].
    destruct (Z.ltb_spec (vb r - ve cur) tol); [apply IH|].
    constructor; [apply IH|].
    destruct (go_head tol rest r) as (h & t & -> & Hb & He & _).
    constructor. unfold apart. lia.
Qed.

(** Scanning what a scan kept keeps all of it. *)
Lemma go_fixed tol rest : forall cur,
  Sorted (apart tol) (cur :: rest) -> go tol cur rest = cur :: rest.
Proof.
  induction rest as [|r rest IH]; intros cur Hs; simpl; [done|].
  apply Sorted_inv in Hs as [Hs Hh]. apply HdRel_inv in Hh as [He Hb].
  destruct (Z.ltb_spec (ve r) (ve cur)); [lia|].
  destruct (Z.ltb_spec (vb r - ve cur) tol); [lia|].
  by rewrite IH.
Qed.

Lemma vscan_fixed tol vs : vscan tol (vscan tol vs) = vscan tol vs.
Proof.
  destruct vs as [|x rest]; [done|]. simpl.
  pose proof (go_apart tol rest x) as Hs.
  destruct (go tol x rest) as [|h t] eqn:E; [done|]. simpl.
  by apply go_fixed.
Qed.

Lemma go_orientation tol o rest : forall cur,
  vo cur = o -> Forall (fun v => vo v = o) rest ->
  Forall (fun v => vo v = o) (go tol cur rest).
Proof.
  induction rest as [|r rest IH]; intros cur Hc Hr; simpl.
  - by repeat constructor.
  - apply Forall_cons in Hr as [Hr Hrest].
    destruct (ve r <? ve cur); [by apply IH|].
    destruct (vb r - ve cur <? tol); [by apply IH|].
    constructor; [done|by apply IH].
Qed.

Lemma vscan_orientation tol o vs :
  Forall (fun v => vo v = o) vs -> Forall (fun v => vo v = o) (vscan tol vs).
Proof.
  destruct vs as [|x rest]; [done|]. intros [Hx Hr]%Forall_cons.
  by apply go_orientation.
Qed.

(** The kept regions come out in sorted order.  The running region keeps
    its begin while its end only grows, so for every region still to come
    it either begins earlier, or was in order with it when sorted, or has
    already absorbed a region of the same begin (and will absorb or skip
    this one too). *)
Definition scan_inv (tol : Z) (cur : rvalue) (rest : list rvalue) : Prop :=
  forall r, r ∈ rest ->
    vb cur < vb r \/ (vb cur = vb r /\ (le_v cur r \/ vb cur - ve cur < tol)).

Lemma scan_inv_sorted tol cur rest :
  Forall (le_v cur) rest -> scan_inv tol cur rest.
Proof.
  rewrite Forall_forall. intros H r Hr. specialize (H r Hr).
  pose proof (le_v_b _ _ H).
  destruct (decide (vb cur = vb r)); [right; split; [done|by left]|left; lia].
Qed.

Lemma go_sorted tol rest : forall cur,
  StronglySorted le_v rest -> scan_inv tol cur rest ->
  Sorted le_v (go tol cur rest).
Proof.
  induction rest as [|r rest IH]; intros cur Hs Hinv; simpl.
  - repeat constructor.
  - apply StronglySorted_inv in Hs as [Hs Hr].
    assert (scan_inv tol cur rest) as Hinv'.
    { intros r' Hr'. apply Hinv. by right. }
    destruct (Z.ltb_spec (ve r) (ve cur)); [by apply IH|].
    destruct (Z.ltb_spec (vb r - ve cur) tol).
    + apply IH; [done|]. intros r' Hr'.
      rewrite vb_vmerge1, ve_vmerge1.
      destruct (Hinv' r' Hr') as [Hlt|[Heq _]]; [by left|right].
      split; [done|right].
      rewrite Forall_forall in Hr. pose proof (le_v_b _ _ (Hr r' Hr')).
      destruct (Hinv r) as [?|[? _]]; [by left|lia|lia].
    + constructor; [apply IH; [done|by apply scan_inv_sorted]|].
      destruct (go_head tol rest r) as (h & t & -> & Hb & He & Hh).
      constructor.
      destruct (Hinv r) as [Hlt|[Heq Hle]]; [by left| |].
      { apply le_v_b_lt. lia. }
      destruct Hle as [Hle|?]; [|lia].
      destruct (decide (ve cur = ve h)) as [Ee|Ne].
      * destruct Hh as [->|(r' & Hr' & Hlt)]; [done|].
        rewrite Forall_forall in Hr. pose proof (le_v_b _ _ (Hr r' Hr')). lia.
      * apply le_v_e_lt; lia.
Qed.

Lemma vscan_sorted tol vs :
  StronglySorted le_v vs -> StronglySorted le_v (vscan tol vs).
Proof.
  destruct vs as [|x rest]; [done|]. simpl.
  intros [Hs Hx]%StronglySorted_inv.
  apply Sorted_StronglySorted; [intros a b d; apply le_v_trans|].
  apply go_sorted; [done|by apply scan_inv_sorted].
Qed.

(** *** Merging twice, on values *)

Lemma filter_all {A} (P : A -> Prop) `{!forall a, Decision (P a)} l :
  Forall P l -> filter P l = l.
Proof.
  induction 1 as [|x l Hx _ IH]; [done|].
  by rewrite filter_cons, decide_True, IH.
Qed.

Lemma filter_none {A} (P : A -> Prop) `{!forall a, Decision (P a)} l :
  Forall (fun a => ~ P a) l -> filter P l = [].
Proof.
  induction 1 as [|x l Hx _ IH]; [done|].
  by rewrite filter_cons, decide_False, IH.
Qed.

Lemma filter_sorted_v (P : rvalue -> Prop) `{!forall a, Decision (P a)} vs :
  StronglySorted le_v (filter P (sort lt_value vs)).
Proof.
  rewrite (sort_filter lt_value lt_value_asym le_v_trans).
  apply (sort_sorted lt_value lt_value_asym le_v_trans).
Qed.

Lemma vmerge_fixed F R tol :
  Forall (fun v => vo v = 0) F -> Forall (fun v => vo v = 1) R ->
  StronglySorted le_v F -> StronglySorted le_v R ->
  vscan tol F = F -> vscan tol R = R ->
  vmerge (F ++ R) tol = F ++ R.
Proof.
  intros HF HR HsF HsR HfF HfR. unfold vmerge.
  rewrite !(sort_filter lt_value lt_value_asym le_v_trans), !filter_app.
  rewrite (filter_all (fun v => vo v = 0) F) by done.
  rewrite (filter_none (fun v => vo v = 0) R).
  2:{ eapply Forall_impl; [exact HR|]. simpl. intros v ->. done. }
  rewrite (filter_all (fun v => vo v = 1) R) by done.
  rewrite (filter_none (fun v => vo v = 1) F).
  2:{ eapply Forall_impl; [exact HF|]. simpl. intros v ->. done. }
  rewrite app_nil_r. simpl.
  rewrite !(sort_id lt_value) by done.
  by rewrite HfF, HfR.
Qed.

Lemma vmerge_idempotent vs tol : vmerge (vmerge vs tol) tol = vmerge vs tol.
Proof.
  unfold vmerge at 2 3.
  apply vmerge_fixed.
  - apply vscan_orientation. apply Forall_forall.
    by intros v [? _]%list_elem_of_filter.
  - apply vscan_orientation. apply Forall_forall.
    by intros v [? _]%list_elem_of_filter.
  - apply vscan_sorted, filter_sorted_v.
  - apply vscan_sorted, filter_sorted_v.
  - apply vscan_fixed.
  - apply vscan_fixed.
Qed.

(** *** The scan in the store *)

Lemma set_last_snoc {A} (l : list A) x y : set_last (l ++ [x]) y = l ++ [y].
Proof.
  unfold set_last. rewrite removelast_last. by destruct l.
Qed.

Lemma scan_step_snoc tol st pre cur r :
  scan_step tol (st, pre ++ [cur], Some (end_ cur)) r =
  if end_ r <? end_ cur then (st, pre ++ [cur], Some (end_ cur))
  else if bgn r - end_ cur <? tol then
    (<[aln cur := deref st (aln cur) ++ deref st (aln r)]> st,
     pre ++ [ {| bgn := bgn cur; end_ := end_ r; len := len cur + len r;
                 orientation := orientation cur; aln := aln cur |} ],
     Some (end_ r))
  else (st, (pre ++ [cur]) ++ [r], Some (end_ r)).
Proof.
  unfold scan_step. rewrite last_snoc.
  destruct (end_ r <? end_ cur); [done|].
  destruct (bgn r - end_ cur <? tol); [|done].
  by rewrite set_last_snoc.
Qed.

(** The invariant the code relies on for [fwd_rgns[-1]]: [last] is
    [None] exactly while nothing has been kept, and otherwise the end of
    the last kept region.  The branch of [scan_step] for a set [last] and
    an empty kept list is therefore never taken. *)
Definition scan_ok (s : store * list region * option Z) : Prop :=
  match s.2 with
  | None => s.1.2 = []
  | Some la => exists k, last s.1.2 = Some k /\ la = end_ k
  end.

Lemma scan_step_ok tol s r : scan_ok s -> scan_ok (scan_step tol s r).
Proof.
  destruct s as [[st kept] [la|]]; unfold scan_ok at 1; cbn [fst snd].
  - intros (k & Hl & ->).
    destruct (exists_last (l:=kept)) as (pre & x & ->).
    { intros ->. discriminate Hl. }
    rewrite last_snoc in Hl. injection Hl as ->.
    rewrite scan_step_snoc. unfold scan_ok.
    destruct (end_ r <? end_ k); cbn [fst snd]; [exists k; by rewrite last_snoc|].
    destruct (bgn r - end_ k <? tol); cbn [fst snd]; eexists; by rewrite last_snoc.
  - intros ->. unfold scan_ok. simpl. by exists r.
Qed.

Lemma scan_fold_ok tol rs : forall s,
  scan_ok s -> scan_ok (foldl (scan_step tol) s rs).
Proof.
  induction rs as [|r rs IH]; intros s Hs; simpl; [done|].
  by apply IH, scan_step_ok.
Qed.

Lemma value_insert_ne st l a r :
  aln r <> l -> value (<[l := a]> st) r = value st r.
Proof.
  intros Hne. unfold value, deref. by rewrite lookup_insert_ne.
Qed.

Lemma values_insert_notin st l a rs :
  l ∉ aln <$> rs -> values (<[l := a]> st) rs = values st rs.
Proof.
  intros Hn. unfold values. apply list_fmap_ext. intros i r Hr.
  apply value_insert_ne. intros <-. apply Hn.
  apply list_elem_of_fmap. exists r. split; [done|].
  by eapply list_elem_of_lookup_2.
Qed.

Lemma values_frame st st' rs :
  (forall l, l ∈ aln <$> rs -> st' !! l = st !! l) ->
  values st' rs = values st rs.
Proof.
  intros H. unfold values. apply list_fmap_ext. intros i r Hr.
  unfold value, deref. rewrite H; [done|].
  apply list_elem_of_fmap. exists r. split; [done|].
  by eapply list_elem_of_lookup_2.
Qed.

Lemma scan_fold_values tol rs : forall st pre cur st' kept' la',
  NoDup (aln <$> (pre ++ cur :: rs)) ->
  foldl (scan_step tol) (st, pre ++ [cur], Some (end_ cur)) rs
    = (st', kept', la') ->
  values st' kept' = values st pre ++ go tol (value st cur) (values st rs)
  /\ (aln <$> kept') `sublist_of` (aln <$> (pre ++ cur :: rs))
  /\ (forall l, l ∉ aln <$> (pre ++ cur :: rs) -> st' !! l = st !! l).
Proof.
  induction rs as [|r rs IH]; intros st pre cur st' kept' la' Hnd H.
  - simpl in H. injection H as <- <- <-. unfold values.
    rewrite fmap_app. done.
  - cbn [foldl] in H. rewrite scan_step_snoc in H.
    change (values st (r :: rs)) with (value st r :: values st rs).
    cbn [go].
    change (ve (value st r)) with (end_ r).
    change (ve (value st cur)) with (end_ cur).
    change (vb (value st r)) with (bgn r).
    rewrite !fmap_app, !fmap_cons in *.
    apply NoDup_app in Hnd as (Hpre & Hdis & Hrest).
    apply NoDup_cons in Hrest as [Hcur Hrest].
    apply NoDup_cons in Hrest as [Hr Hrs].
    apply not_elem_of_cons in Hcur as [Hcr Hcur].
    destruct (end_ r <? end_ cur).
    { (* skipped *)
      apply IH in H as (Hv & Hsub & Hfr).
      - split; [done|]. rewrite !fmap_app, !fmap_cons in *. split.
        + etrans; [exact Hsub|]. apply sublist_app; [done|].
          apply sublist_skip. by apply sublist_cons.
        + intros l Hl. apply Hfr. intros Hin. apply Hl.
          rewrite !elem_of_app, !elem_of_cons in *. tauto.
      - rewrite fmap_app, fmap_cons. apply NoDup_app. split; [done|].
        split; [|by apply NoDup_cons].
        intros x Hx Hin. apply (Hdis x Hx).
        rewrite !elem_of_cons in *. tauto. }
    destruct (bgn r - end_ cur <? tol).
    { (* merged into the running region *)
      set (k' := {| bgn := bgn cur; end_ := end_ r; len := len cur + len r;
                    orientation := orientation cur; aln := aln cur |}) in *.
      change (Some (end_ r)) with (Some (end_ k')) in H.
      apply IH in H as (Hv & Hsub & Hfr).
      - rewrite !fmap_app, !fmap_cons in *.
        change (aln k') with (aln cur) in *. split; [|split].
        + rewrite Hv. rewrite !values_insert_notin.
          * f_equal. f_equal. unfold value, vmerge1, deref. simpl.
            by rewrite lookup_insert_eq.
          * done.
          * intros Hin. by apply (Hdis (aln cur)); [|left].
        + etrans; [exact Hsub|]. apply sublist_app; [done|].
          apply sublist_skip. by apply sublist_cons.
        + intros l Hl. rewrite Hfr.
          * apply lookup_insert_ne. intros <-. apply Hl.
            rewrite elem_of_app, elem_of_cons. tauto.
          * intros Hin. apply Hl.
            rewrite !elem_of_app, !elem_of_cons in *. tauto.
      - rewrite fmap_app, fmap_cons. change (aln k') with (aln cur).
        apply NoDup_app. split; [done|]. split; [|by apply NoDup_cons].
        intros x Hx Hin. apply (Hdis x Hx).
        rewrite !elem_of_cons in *. tauto. }
    (* appended *)
    apply IH in H as (Hv & Hsub & Hfr).
    + rewrite !fmap_app, !fmap_cons in *. simpl in *.
      rewrite <- !app_assoc in *. simpl in *. split; [|split]; try done.
      rewrite Hv. unfold values. by rewrite fmap_app, <- app_assoc.
    + rewrite <- app_assoc. simpl. rewrite fmap_app, !fmap_cons.
      apply NoDup_app. split; [done|]. split; [done|].
      apply NoDup_cons. split; [|by apply NoDup_cons].
      by apply not_elem_of_cons.
Qed.

Lemma scan_values tol st rs st' kept' :
  NoDup (aln <$> rs) -> scan tol st rs = (st', kept') ->
  values st' kept' = vscan tol (values st rs)
  /\ (aln <$> kept') `sublist_of` (aln <$> rs)
  /\ (forall l, l ∉ aln <$> rs -> st' !! l = st !! l).
Proof.
  unfold scan. destruct rs as [|x rs]; intros Hnd H.
  - simpl in H. by injection H as <- <-.
  - cbn [foldl] in H.
    change (scan_step tol (st, [], None) x)
      with (st, [] ++ [x], Some (end_ x)) in H.
    destruct (foldl _ _ rs) as [[st1 kept1] la1] eqn:E. simpl in H.
    injection H as <- <-.
    by apply (scan_fold_values tol rs st [] x) in E.
Qed.

(** Whatever the sharing, a scan only ever appends to alignment lists, and
    only to lists that the scanned regions reference. *)
Lemma scan_step_store tol st kept la r st' kept' la' :
  scan_step tol (st, kept, la) r = (st', kept', la') ->
  (forall l, deref st l `prefix_of` deref st' l)
  /\ (forall l, l ∉ aln <$> kept -> st' !! l = st !! l)
  /\ (forall l, l ∈ aln <$> kept' -> l ∈ aln <$> kept \/ l = aln r).
Proof.
  unfold scan_step. intros H.
  assert (forall st0 kept0 la0,
            (st0, kept0, la0) = (st', kept', la') -> st0 = st -> kept0 = kept ->
            (forall l, deref st l `prefix_of` deref st' l)
            /\ (forall l, l ∉ aln <$> kept -> st' !! l = st !! l)
            /\ (forall l, l ∈ aln <$> kept' -> l ∈ aln <$> kept \/ l = aln r))
    as Hsame.
  { intros ??? [= <- <- <-] -> ->. split; [done|]. split; [done|]. by left. }
  assert (forall la0,
            (st, kept ++ [r], la0) = (st', kept', la') ->
            (forall l, deref st l `prefix_of` deref st' l)
            /\ (forall l, l ∉ aln <$> kept -> st' !! l = st !! l)
            /\ (forall l, l ∈ aln <$> kept' -> l ∈ aln <$> kept \/ l = aln r))
    as Happ.
  { intros ? [= <- <- <-]. split; [done|]. split; [done|].
    intros l. rewrite fmap_app, elem_of_app. simpl.
    rewrite list_elem_of_singleton. tauto. }
  destruct la as [la|]; [|by eapply Happ].
  destruct (last kept) as [k|] eqn:El; [|by eapply Hsame].
  destruct (end_ r <? end_ k); [by eapply Hsame|].
  destruct (bgn r - la <? tol); [|by eapply Happ].
  injection H as <- <- <-.
  destruct (exists_last (l:=kept)) as (pre & x & ->).
  { intros ->. discriminate El. }
  rewrite last_snoc in El. injection El as ->.
  rewrite set_last_snoc, !fmap_app. simpl. split; [|split].
  - intros l. unfold deref. destruct (decide (l = aln k)) as [->|Hne].
    + rewrite lookup_insert_eq. simpl. by apply prefix_app_r.
    + by rewrite lookup_insert_ne.
  - intros l Hl. apply lookup_insert_ne. intros <-. apply Hl.
    rewrite elem_of_app, list_elem_of_singleton. tauto.
  - intros l Hl. by left.
Qed.

Lemma scan_fold_store tol rs : forall st kept la st' kept' la',
  foldl (scan_step tol) (st, kept, la) rs = (st', kept', la') ->
  (forall l, deref st l `prefix_of` deref st' l)
  /\ (forall l, l ∉ aln <$> (kept ++ rs) -> st' !! l = st !! l).
Proof.
  induction rs as [|r rs IH]; intros st kept la st' kept' la' H.
  - simpl in H. by injection H as <- <- <-.
  - cbn [foldl] in H.
    destruct (scan_step tol (st, kept, la) r) as [[st1 kept1] la1] eqn:E.
    apply scan_step_store in E as (Hp & Hf & Hk).
    apply IH in H as (Hp' & Hf'). split.
    + intros l. etrans; [apply Hp|apply Hp'].
    + intros l Hl. rewrite fmap_app, fmap_cons, elem_of_app, elem_of_cons in Hl.
      rewrite Hf'.
      * apply Hf. tauto.
      * rewrite fmap_app, elem_of_app. intros [Hin|Hin]; [|tauto].
        apply Hk in Hin. tauto.
Qed.

Lemma scan_store tol st rs st' kept' :
  scan tol st rs = (st', kept') ->
  (forall l, deref st l `prefix_of` deref st' l)
  /\ (forall l, l ∉ aln <$> rs -> st' !! l = st !! l).
Proof.
  unfold scan. destruct (foldl _ _ rs) as [[st1 kept1] la1] eqn:E.
  simpl. intros [= <- <-]. by apply scan_fold_store in E.
Qed.

(** *** merge_regions on lists without shared alignment lists *)

Lemma NoDup_fmap_inj_on {A B} (f : A -> B) (l : list A) x y :
  NoDup (f <$> l) -> x ∈ l -> y ∈ l -> f x = f y -> x = y.
Proof.
  induction l as [|z l IH]; intros Hnd Hx Hy E; [by apply elem_of_nil in Hx|].
  rewrite fmap_cons in Hnd. apply NoDup_cons in Hnd as [Hz Hnd].
  apply elem_of_cons in Hx as [->|Hx], Hy as [->|Hy]; try done.
  - destruct Hz. rewrite E. apply list_elem_of_fmap. by exists y.
  - destruct Hz. rewrite <- E. apply list_elem_of_fmap. by exists x.
  - by apply IH.
Qed.

Lemma values_filter st o l :
  values st (filter (fun r => orientation r = o) l)
  = filter (fun v => vo v = o) (values st l).
Proof.
  unfold values. induction l as [|r l IH]; [done|].
  rewrite fmap_cons, !filter_cons.
  change (vo (value st r)) with (orientation r).
  destruct (decide (orientation r = o)); [by rewrite fmap_cons, IH|done].
Qed.

Lemma values_sort st l :
  values st (sort (lt_region st) l) = sort lt_value (values st l).
Proof. apply (sort_map lt_value (value st)). Qed.

Lemma sort_refs_NoDup st rgns :
  NoDup (aln <$> rgns) -> NoDup (aln <$> sort (lt_region st) rgns).
Proof.
  intros H. eapply NoDup_Permutation_proper; [|exact H].
  apply fmap_Permutation, sort_perm.
Qed.

Lemma merge_regions_values st rgns tol st' rgns' out :
  NoDup (aln <$> rgns) ->
  merge_regions st rgns tol = (st', rgns', out) ->
  values st' out = vmerge (values st rgns) tol /\ NoDup (aln <$> out).
Proof.
  intros Hnd. unfold merge_regions.
  set (srt := sort (lt_region st) rgns).
  pose proof (sort_refs_NoDup st rgns Hnd) as Hs. fold srt in Hs.
  set (F := filter (fun r => orientation r = 0) srt).
  set (R := filter (fun r => orientation r = 1) srt).
  assert (NoDup (aln <$> F)) as HF.
  { eapply sublist_NoDup; [exact Hs|]. apply fmap_sublist, sublist_filter. }
  assert (NoDup (aln <$> R)) as HR.
  { eapply sublist_NoDup; [exact Hs|]. apply fmap_sublist, sublist_filter. }
  assert (forall l, l ∈ aln <$> F -> l ∈ aln <$> R -> False) as Hdis.
  { intros l (r1 & -> & [H1 Hin1]%list_elem_of_filter)%list_elem_of_fmap
             (r2 & E & [H2 Hin2]%list_elem_of_filter)%list_elem_of_fmap.
    assert (r1 = r2) as -> by (by eapply (NoDup_fmap_inj_on aln srt)).
    rewrite H1 in H2. discriminate H2. }
  destruct (scan tol st F) as [st1 fwd] eqn:E1.
  destruct (scan tol st1 R) as [st2 rev] eqn:E2.
  intros [= <- <- <-].
  apply scan_values in E1 as (Hv1 & Hsub1 & Hfr1); [|done].
  apply scan_values in E2 as (Hv2 & Hsub2 & Hfr2); [|done].
  split.
  - unfold vmerge. rewrite <- values_sort, <- !values_filter. fold srt F R.
    unfold values at 1. rewrite fmap_app. fold (values st2 fwd) (values st2 rev).
    rewrite Hv2. f_equal.
    + rewrite <- Hv1. apply values_frame. intros l Hl. apply Hfr2.
      intros Hr. apply (Hdis l); [|done].
      exact (elem_of_sublist _ _ _ Hl Hsub1).
    + f_equal. apply values_frame. intros l Hl. apply Hfr1.
      intros Hf. by apply (Hdis l).
  - rewrite fmap_app. apply NoDup_app.
    split; [exact (sublist_NoDup _ _ HF Hsub1)|].
    split; [|exact (sublist_NoDup _ _ HR Hsub2)].
    intros l Hf Hr.
    apply (Hdis l);
      [exact (elem_of_sublist _ _ _ Hf Hsub1)|exact (elem_of_sublist _ _ _ Hr Hsub2)].
Qed.

(** C7, as stated, fails when two regions hold the same alignment list
    object: extending it for one kept region changes the other's value
    after the scan has passed it, and the second call then sorts the two
    the other way round (here with [tol = 0]). *)
Lemma C7_counterexample :
  let h1 := Hits.hp 0 10 0 100 110 0 in
  let h2 := Hits.hp 20 30 0 120 130 0 in
  let h3 := Hits.hp 40 50 0 140 150 0 in
  let st : store := {[ 1 := [h1]; 2 := [h1; h2]; 3 := [h3] ]} in
  ~ remerge_same st
      [ mk_region 5 5 0 0 1; mk_region 5 5 0 0 2;
        mk_region 10 20 10 0 1; mk_region 15 30 15 0 3 ] 0.
Proof. cbv zeta. vm_compute. discriminate. Qed.

(** C7 (amended): for every list of regions no two of which hold the same
    alignment list object, and every tolerance, merging the returned list
    again with the same tolerance returns a list of equal value. *)
Theorem C7_merge_regions_idempotent st rgns tol :
  NoDup (aln <$> rgns) -> remerge_same st rgns tol.
Proof.
  intros Hnd. unfold remerge_same.
  destruct (merge_regions st rgns tol) as [[st1 rgns1] out1] eqn:E1.
  destruct (merge_regions st1 out1 tol) as [[st2 rgns2] out2] eqn:E2.
  apply merge_regions_values in E1 as [Hv1 Hnd1]; [|done].
  apply merge_regions_values in E2 as [Hv2 _]; [|done].
  by rewrite Hv2, Hv1, vmerge_idempotent.
Qed.

Lemma C7_merge_regions_idempotent_witness :
  let h1 := Hits.hp 0 10 0 100 110 0 in
  let h2 := Hits.hp 20 30 0 120 130 0 in
  let st : store := {[ 1 := [h1]; 2 := [h2] ]} in
  remerge_same st [ mk_region 0 100 100 0 1; mk_region 150 250 100 0 2 ] 100.
Proof.
  cbv zeta. apply C7_merge_regions_idempotent.
  vm_compute. repeat constructor; rewrite ?elem_of_cons, ?elem_of_nil; lia.
Defined.

(** C10, as stated, fails: the copy [list(r)] shares the alignment list
    with the input tuple, and merging a later region into the copy extends
    that list, so the input tuple no longer has the value it had. *)
Lemma C10_counterexample :
  let h1 := Hits.hp 0 10 0 100 110 0 in
  let h2 := Hits.hp 20 30 0 120 130 0 in
  let st : store := {[ 1 := [h1]; 2 := [h2] ]} in
  let first := mk_region 0 100 100 0 1 in
  let '(st', _, _) := merge_regions st [first; mk_region 150 250 100 0 2] 100 in
  value st' first <> value st first.
Proof. cbv zeta. vm_compute. discriminate. Qed.

(** C10 (amended): [merge_regions] sorts its argument in place: after the
    call the caller's list holds the same tuples, ascending in Python's
    tuple order (begin, end, length, orientation, alignment) as compared
    at the call.  The tuples themselves are not changed; the alignment
    lists they reference are shared with the kept copies and can only
    grow at their end, and lists no input tuple references are left
    alone. *)
Theorem C10_sorts_in_place_extends_alignments st rgns tol :
  let '(st', rgns', _) := merge_regions st rgns tol in
  rgns' ≡ₚ rgns
  /\ StronglySorted (le (lt_region st)) rgns'
  /\ (forall l, deref st l `prefix_of` deref st' l)
  /\ (forall l, l ∉ aln <$> rgns -> st' !! l = st !! l).
Proof.
  unfold merge_regions.
  set (srt := sort (lt_region st) rgns).
  assert (srt ≡ₚ rgns) as Hperm by apply sort_perm.
  destruct (scan tol st _) as [st1 fwd] eqn:E1.
  destruct (scan tol st1 _) as [st2 rev] eqn:E2.
  apply scan_store in E1 as [Hp1 Hf1]. apply scan_store in E2 as [Hp2 Hf2].
  split; [done|]. split; [|split].
  - apply sort_sorted.
    + apply (keyed_asym cmp_value (value st)).
    + apply (keyed_le_trans cmp_value (value st)).
  - intros l. etrans; [apply Hp1|apply Hp2].
  - intros l Hl.
    assert (forall P `{!forall r, Decision (P r)},
              l ∉ aln <$> filter P srt) as Hn.
    { intros P ? Hin. apply Hl. rewrite <- Hperm.
      eapply elem_of_sublist; [exact Hin|]. apply fmap_sublist, sublist_filter. }
    rewrite Hf2 by apply Hn. apply Hf1, Hn.
Qed.

End Regions.

(** ** numpy's float32 *)

Module F32.

(** The cells of [np.zeros(..., dtype=np.float32)] are IEEE 754 binary32
    numbers.  They are taken from the Standard Library's specification of
    floating-point arithmetic, at 24 bits of precision and exponent bound
    128: every operation rounds to nearest, ties to even, overflows to an
    infinity and yields nan or an infinity on a division by zero, as the
    hardware does; numpy reports these as warnings and carries on. *)
Definition t : Type := spec_float.

Definition prec : Z := 24.
Definition emax : Z := 128.

Definition zero : t := S754_zero false.
Definition add : t -> t -> t := SFadd prec emax.
Definition mul : t -> t -> t := SFmul prec emax.
Definition div : t -> t -> t := SFdiv prec emax.

(** A Python int as a C double ([PyFloat_AsDouble]): rounded to nearest,
    and OverflowError ([None]) when the rounded value is out of range. *)
Definition to_double (z : Z) : option spec_float :=
  match binary_normalize 53 1024 z 0 false with
  | S754_infinity _ => None
  | d => Some d
  end.

(** The C cast of a double to a float: rounded once more, to an infinity
    beyond the range of a float. *)
Definition of_double (x : spec_float) : t :=
  match x with
  | S754_finite s m e => binary_round prec emax s m e
  | _ => x
  end.

(** A Python int stored into a float32 cell: numpy takes it as a C double
    and casts the double to float. *)
Definition of_int (z : Z) : option t := of_double <$> to_double z.

(** The node count [n_node] met by a float32 array in [/] and [*].  A
    count is below 2^53, where rounding it to a float directly and by way
    of a double give the same number. *)
Definition of_count (n : nat) : t :=
  binary_normalize prec emax (Z.of_nat n) 0 false.

(** A cell of [np.ones(..., dtype=np.float32)]. *)
Definition one : t := S754_finite false 8388608 (-23).

(** The items of a list added one after the other, from zero.  [np.sum]
    adds in an order of its own (in blocks, pairwise); on the rows of the
    examples below every partial sum is a small integer or has a single
    non-zero item, and every order gives the same number. *)
Definition loop_sum (l : list t) : t := foldl add zero l.

(** Small integers are stored as they are; 2^24 + 1 is the first that is
    rounded. *)
Example of_int_small :
  of_int 0 = Some zero /\ of_int 1 = Some one
  /\ of_int 5 = Some (S754_finite false 10485760 (-21))
  /\ of_int 6 = Some (of_count 6)
  /\ of_int (-3) = Some (S754_finite true 12582912 (-22)).
Proof. repeat split; vm_compute; reflexivity. Qed.

Example of_int_rounds : of_int (2 ^ 24 + 1) = of_int (2 ^ 24).
Proof. vm_compute. reflexivity. Qed.

(** Beyond the range of a float the cell holds an infinity; beyond the
    range of a double (from 2^1024 - 2^970 on) the conversion raises. *)
Example of_int_large :
  of_int (2 ^ 128) = Some (S754_infinity false)
  /\ of_int (2 ^ 1024 - 2 ^ 970 - 1) = Some (S754_infinity false)
  /\ of_int (2 ^ 1024 - 2 ^ 970) = None
  /\ of_int (- 2 ^ 1024) = None.
Proof. repeat split; vm_compute; reflexivity. Qed.

(** 5/6 in float32 is 13981013 * 2^-24, a little below 5/6. *)
Example five_sixths :
  div (of_count 5) (of_count 6) = S754_finite false 13981013 (-24).
Proof. vm_compute. reflexivity. Qed.

End F32.

(** ** compute_graph_diffusion_entropy *)

Module Diffusion.

(** An "L" line of the GFA file after [int()]: the two node ids and the
    integer values of its [SC] tags, in the order they appear on the line.
    The matrix cells are float32 numbers ([F32.t]).  The two reductions
    the function calls, [np.sum(..., axis=1)] and [np.inner], accumulate
    in an order that numpy and the linear-algebra library behind it
    choose; they are parameters of the model, like the entropy formula,
    and every statement holds whatever they compute. *)
Record link := { n1 : Z; n2 : Z; sc : list Z }.

(** [weight = None; for f in r[6:]: ...; if weight == None: weight = 1] *)
Definition weight_of (l : link) : Z := default 1 (last (sc l)).

(** [adj_list.setdefault(k, []); adj_list[k].append(v)] on a dictionary
    kept in insertion order. *)
Fixpoint setdefault_append (k : Z) (v : Z * Z) (al : list (Z * list (Z * Z)))
  : list (Z * list (Z * Z)) :=
  match al with
  | [] => [(k, [v])]
  | (k', vs) :: al' =>
      if k =? k' then (k', vs ++ [v]) :: al'
      else (k', vs) :: setdefault_append k v al'
  end.

Definition add_link (al : list (Z * list (Z * Z))) (l : link)
  : list (Z * list (Z * Z)) :=
  let weight := weight_of l in
  setdefault_append (n2 l) (n1 l, weight)
    (setdefault_append (n1 l) (n2 l, weight) al).

Definition adj_list (links : list link) : list (Z * list (Z * Z)) :=
  foldl add_link [] links.

(** The exceptions the matrix writes can raise, and a result or an
    exception. *)
Inductive exn := IndexError | OverflowError.

Inductive res (A : Type) :=
  | Ok (a : A)
  | Raise (e : exn).
Arguments Ok {A}.
Arguments Raise {A}.

(** numpy accepts index [i] on an axis of length [n] when [-n <= i < n]. *)
Definition np_index (n : nat) (i : Z) : option nat :=
  if (0 <=? i) && (i <? Z.of_nat n) then Some (Z.to_nat i)
  else if (- Z.of_nat n <=? i) && (i <? 0) then Some (Z.to_nat (i + Z.of_nat n))
  else None.

(** [adj_matrix[v][w] = weight]: the row [adj_matrix[v]] is looked up,
    then the cell [w] of it, and then the int is converted and stored. *)
Definition set_entry (m : list (list F32.t)) (v w weight : Z)
  : res (list (list F32.t)) :=
  match np_index (length m) v with
  | None => Raise IndexError
  | Some i =>
      match m !! i with
      | None => Raise IndexError
      | Some row =>
          match np_index (length row) w with
          | None => Raise IndexError
          | Some j =>
              match F32.of_int weight with
              | None => Raise OverflowError
              | Some x => Ok (<[i := <[j := x]> row]> m)
              end
          end
      end
  end.

(** [for w, weight in ws:] *)
Fixpoint fill_row (m : list (list F32.t)) (v : Z) (ws : list (Z * Z))
  : res (list (list F32.t)) :=
  match ws with
  | [] => Ok m
  | (w, weight) :: ws' =>
      match set_entry m v w weight with
      | Ok m' => fill_row m' v ws'
      | Raise e => Raise e
      end
  end.

(** [for v, ws in adj_list.items():] *)
Fixpoint fill (m : list (list F32.t)) (al : list (Z * list (Z * Z)))
  : res (list (list F32.t)) :=
  match al with
  | [] => Ok m
  | (v, ws) :: al' =>
      match fill_row m v ws with
      | Ok m' => fill m' al'
      | Raise e => Raise e
      end
  end.

Definition zeros (n : nat) : list (list F32.t) :=
  replicate n (replicate n F32.zero).

Definition adj_matrix (links : list link) : res (list (list F32.t)) :=
  let al := adj_list links in
  fill (zeros (length al)) al.

Section Numpy.
(** [np.sum] of one row, and [np.inner] of a matrix and a vector. *)
Variable np_sum : list F32.t -> F32.t.
Variable np_inner : list (list F32.t) -> list F32.t -> list F32.t.

(** [np.sum(adj_matrix, axis=1)] *)
Definition row_sums (m : list (list F32.t)) : list F32.t := np_sum <$> m.

(** [adj_matrix / np.sum(adj_matrix, axis=1)]: the vector of row sums is
    broadcast along the last axis, so column [j] is divided by the sum of
    row [j]. *)
Definition transition (m : list (list F32.t)) : list (list F32.t) :=
  (fun row => zip_with F32.div row (row_sums m)) <$> m.

End Numpy.

Inductive outcome (E : Type) :=
  | TooLarge                                   (* [return None] *)
  | Raised (e : exn)
  | Returned (entropy : E) (weight_list : list (nat * F32.t)).
Arguments TooLarge {E}.
Arguments Raised {E}.
Arguments Returned {E}.

Section Entropy.
(** [-np.sum(yy * np.log2(yy))], left abstract, and the two reductions. *)
Context {E : Type} (entropy_of : list F32.t -> E).
Variable np_sum : list F32.t -> F32.t.
Variable np_inner : list (list F32.t) -> list F32.t -> list F32.t.

Definition compute_graph_diffusion_entropy (links : list link) (max_nodes : Z)
  : outcome E :=
  let al := adj_list links in
  let n_node := length al in
  if max_nodes <? Z.of_nat n_node then TooLarge
  else
    match fill (zeros n_node) al with
    | Raise e => Raised e
    | Ok adj_matrix =>
        let n_adj_matrix := transition np_sum adj_matrix in
        let one := replicate n_node (F32.div F32.one (F32.of_count n_node)) in
        let yy := Nat.iter n_node (np_inner n_adj_matrix) one in
        Returned (entropy_of yy)
                 (imap (fun i y => (i, F32.mul y (F32.of_count n_node))) yy)
    end.

End Entropy.

(** The distinct node ids, in order of first appearance. *)
Definition node_ids (links : list link) : list Z := (adj_list links).*1.

Definition n_nodes (links : list link) : nat := length (adj_list links).

(** The ids are exactly 0, ..., n-1. *)
Definition contiguous (links : list link) : Prop :=
  forall k, k ∈ node_ids links <-> 0 <= k < Z.of_nat (n_nodes links).

(** Every weight of the file is within the range of a C double. *)
Definition convertible (links : list link) : Prop :=
  forall l, l ∈ links -> is_Some (F32.of_int (weight_of l)).

Definition entry (m : list (list F32.t)) (i j : nat) : F32.t :=
  nth j (nth i m []) F32.zero.
Definition row (m : list (list F32.t)) (i : nat) : list F32.t := nth i m [].

Definition mk_link (a b : Z) (tags : list Z) : link :=
  {| n1 := a; n2 := b; sc := tags |}.

(** *** Indexing *)

Definition in_range (n : nat) (i : Z) : Prop :=
  - Z.of_nat n <= i < Z.of_nat n.

Lemma np_index_is_Some n i : is_Some (np_index n i) <-> in_range n i.
Proof.
  unfold np_index, in_range.
  destruct (Z.leb_spec 0 i), (Z.ltb_spec i (Z.of_nat n)); simpl;
    destruct (Z.leb_spec (- Z.of_nat n) i), (Z.ltb_spec i 0); simpl;
    split; intros Hx; try (by eauto); try lia; by destruct Hx.
Qed.

Lemma np_index_None n i : np_index n i = None <-> ~ in_range n i.
Proof.
  rewrite <- np_index_is_Some. destruct (np_index n i) as [k|].
  - split; [done|]. intros H. destruct H. eauto.
  - split; [|done]. by intros _ [? ?].
Qed.

Lemma np_index_lt n i k : np_index n i = Some k -> (k < n)%nat.
Proof.
  unfold np_index.
  destruct (Z.leb_spec 0 i), (Z.ltb_spec i (Z.of_nat n)); simpl;
    destruct (Z.leb_spec (- Z.of_nat n) i), (Z.ltb_spec i 0); simpl;
    intros [= <-]; lia.
Qed.

Lemma np_index_nonneg n i :
  0 <= i -> in_range n i -> np_index n i = Some (Z.to_nat i).
Proof.
  unfold np_index, in_range. intros H0 [_ Hn].
  destruct (Z.leb_spec 0 i); [|lia].
  by destruct (Z.ltb_spec i (Z.of_nat n)); [|lia].
Qed.

(** An n-by-n matrix. *)
Definition square (n : nat) (m : list (list F32.t)) : Prop :=
  length m = n /\ Forall (fun row => length row = n) m.

Lemma zeros_square n : square n (zeros n).
Proof.
  unfold square, zeros. rewrite length_replicate. split; [done|].
  apply Forall_replicate. apply length_replicate.
Qed.

Lemma square_row n m i :
  square n m -> (i < n)%nat -> exists row, m !! i = Some row /\ length row = n.
Proof.
  intros [Hl Hr] Hi. destruct (lookup_lt_is_Some_2 m i) as [row E]; [lia|].
  exists row. split; [done|]. rewrite Forall_forall in Hr. apply Hr.
  by eapply list_elem_of_lookup_2.
Qed.

(** What one write does on an n-by-n matrix: the two index checks come
    first, the conversion of the weight after them. *)
Lemma set_entry_cases n m v w z :
  square n m ->
  match set_entry m v w z with
  | Ok m' =>
      in_range n v /\ in_range n w
      /\ exists i j row x,
           np_index n v = Some i /\ np_index n w = Some j
           /\ m !! i = Some row /\ F32.of_int z = Some x
           /\ m' = <[i := <[j := x]> row]> m
  | Raise IndexError => ~ (in_range n v /\ in_range n w)
  | Raise OverflowError =>
      in_range n v /\ in_range n w /\ F32.of_int z = None
  end.
Proof.
  intros Hm. pose proof Hm as [Hl Hr]. unfold set_entry. rewrite Hl.
  destruct (np_index n v) as [i|] eqn:Ei.
  2:{ apply np_index_None in Ei. tauto. }
  destruct (square_row n m i Hm) as (row & Er & Hrow);
    [by eapply np_index_lt|].
  rewrite Er, Hrow.
  assert (in_range n v) by (apply np_index_is_Some; eauto).
  destruct (np_index n w) as [j|] eqn:Ej.
  2:{ apply np_index_None in Ej. tauto. }
  assert (in_range n w) by (apply np_index_is_Some; eauto).
  destruct (F32.of_int z) as [x|] eqn:Ex; [|done].
  split; [done|]. split; [done|]. by exists i, j, row, x.
Qed.

Lemma set_entry_square n m v w z m' :
  square n m -> set_entry m v w z = Ok m' -> square n m'.
Proof.
  intros Hm H. pose proof (set_entry_cases n m v w z Hm) as Hc.
  rewrite H in Hc.
  destruct Hc as (_ & _ & i & j & row & x & _ & _ & Er & _ & ->).
  destruct Hm as [Hl Hr]. split; [by rewrite length_insert|].
  apply Forall_insert; [done|]. rewrite length_insert.
  rewrite Forall_forall in Hr. apply Hr. by eapply list_elem_of_lookup_2.
Qed.

(** The conditions of one write. *)
Definition writable (n : nat) (vwx : Z * Z * Z) : Prop :=
  in_range n vwx.1.1 /\ in_range n vwx.1.2.

Definition storable (vwx : Z * Z * Z) : Prop := is_Some (F32.of_int vwx.2).

Lemma set_entry_Ok n m v w z :
  square n m ->
  (exists m', set_entry m v w z = Ok m')
  <-> writable n (v, w, z) /\ storable (v, w, z).
Proof.
  intros Hm. pose proof (set_entry_cases n m v w z Hm) as Hc.
  unfold writable, storable. simpl.
  destruct (set_entry m v w z) as [m'|[|]].
  - destruct Hc as (? & ? & i & j & row & x & _ & _ & _ & Ex & _).
    rewrite Ex. split; [eauto|]. eauto.
  - split; [by intros [? ?]|]. tauto.
  - destruct Hc as (_ & _ & ->). split; [by intros [? ?]|].
    by intros [_ [? ?]].
Qed.

(** *** The writes, flattened *)

Definition writes_of (al : list (Z * list (Z * Z))) : list (Z * Z * Z) :=
  al ≫= fun kv => (fun wx : Z * Z => (kv.1, wx.1, wx.2)) <$> kv.2.

Fixpoint write_all (m : list (list F32.t)) (ws : list (Z * Z * Z))
  : res (list (list F32.t)) :=
  match ws with
  | [] => Ok m
  | (v, w, x) :: ws' =>
      match set_entry m v w x with
      | Ok m' => write_all m' ws'
      | Raise e => Raise e
      end
  end.

Lemma write_all_app m ws1 ws2 :
  write_all m (ws1 ++ ws2)
  = match write_all m ws1 with
    | Ok m' => write_all m' ws2
    | Raise e => Raise e
    end.
Proof.
  revert m. induction ws1 as [|[[v w] x] ws1 IH]; intros m; simpl; [done|].
  destruct (set_entry m v w x); [apply IH|done].
Qed.

Lemma fill_row_writes m v ws :
  fill_row m v ws = write_all m ((fun wx : Z * Z => (v, wx.1, wx.2)) <$> ws).
Proof.
  revert m. induction ws as [|[w x] ws IH]; intros m; simpl; [done|].
  destruct (set_entry m v w x); [apply IH|done].
Qed.

Lemma fill_writes m al : fill m al = write_all m (writes_of al).
Proof.
  revert m. induction al as [|[v ws] al IH]; intros m; simpl; [done|].
  unfold writes_of. simpl. rewrite write_all_app, fill_row_writes.
  destruct (write_all m _); [apply IH|done].
Qed.

Lemma write_all_Ok n ws : forall m,
  square n m ->
  (exists m', write_all m ws = Ok m')
  <-> Forall (writable n) ws /\ Forall storable ws.
Proof.
  induction ws as [|[[v w] x] ws IH]; intros m Hm; simpl.
  - split; [by split; constructor|eauto].
  - rewrite !Forall_cons.
    pose proof (set_entry_Ok n m v w x Hm) as Hs.
    destruct (set_entry m v w x) as [m1|e] eqn:E.
    + rewrite IH by (by eapply set_entry_square).
      assert (writable n (v, w, x) /\ storable (v, w, x)) by (apply Hs; eauto).
      tauto.
    + split; [by intros [? ?]|]. intros [[? _] [? _]].
      destruct Hs as [_ Hs]. by destruct Hs as [? ?].
Qed.

(** Where every weight can be stored, the only exception is IndexError. *)
Lemma write_all_IndexError n ws : forall m,
  square n m -> Forall storable ws ->
  write_all m ws = Raise IndexError <-> ~ Forall (writable n) ws.
Proof.
  induction ws as [|[[v w] x] ws IH]; intros m Hm Hst; simpl.
  - split; [done|]. intros H. destruct H. constructor.
  - apply Forall_cons in Hst as [Hx Hst]. rewrite Forall_cons.
    pose proof (set_entry_cases n m v w x Hm) as Hc.
    destruct (set_entry m v w x) as [m1|[|]] eqn:E.
    + rewrite IH by (by eauto using set_entry_square).
      destruct Hc as (? & ? & _). unfold writable at 2. simpl. tauto.
    + split; [|done]. intros _ [Hw _]. by apply Hc.
    + destruct Hc as (_ & _ & Hn). unfold storable in Hx. simpl in Hx.
      rewrite Hn in Hx. by destruct Hx.
Qed.


(** *** The adjacency dictionary *)

Lemma sda_keys k v al x :
  x ∈ (setdefault_append k v al).*1 <-> x ∈ al.*1 \/ x = k.
Proof.
  induction al as [|[k' vs] al IH]; simpl.
  - rewrite list_elem_of_singleton, elem_of_nil. tauto.
  - destruct (Z.eqb_spec k k') as [->|Hne]; simpl.
    + rewrite !elem_of_cons. tauto.
    + rewrite !elem_of_cons, IH. tauto.
Qed.

Lemma sda_NoDup k v al : NoDup al.*1 -> NoDup (setdefault_append k v al).*1.
Proof.
  induction al as [|[k' vs] al IH]; simpl; intros Hnd.
  - apply NoDup_singleton.
  - apply NoDup_cons in Hnd as [Hk Hnd].
    destruct (Z.eqb_spec k k') as [->|Hne]; simpl.
    + by apply NoDup_cons.
    + apply NoDup_cons. split; [|by apply IH].
      rewrite sda_keys. intros [?|?]; [done|]. by apply Hne.
Qed.

Lemma sda_length k v al :
  length (setdefault_append k v al)
  = if decide (k ∈ al.*1) then length al else S (length al).
Proof.
  induction al as [|[k' vs] al IH].
  - destruct (decide (k ∈ [].*1)) as [Hin|_]; [|done].
    by apply elem_of_nil in Hin.
  - cbn [setdefault_append]. rewrite fmap_cons. cbn [fst].
    destruct (Z.eqb_spec k k') as [->|Hne]; cbn [length].
    + rewrite decide_True; [done|]. by left.
    + rewrite IH. destruct (decide (k ∈ al.*1)).
      * rewrite decide_True; [done|]. by right.
      * rewrite decide_False; [done|]. rewrite elem_of_cons. tauto.
Qed.

Lemma writes_of_cons kv al :
  writes_of (kv :: al)
  = ((fun wx : Z * Z => (kv.1, wx.1, wx.2)) <$> kv.2) ++ writes_of al.
Proof. reflexivity. Qed.

Lemma sda_writes k v al x :
  x ∈ writes_of (setdefault_append k v al)
  <-> x ∈ writes_of al \/ x = (k, v.1, v.2).
Proof.
  induction al as [|[k' vs] al IH]; cbn [setdefault_append].
  - rewrite writes_of_cons. cbn [fst snd]. rewrite fmap_cons, fmap_nil.
    rewrite elem_of_app, list_elem_of_singleton.
    change (writes_of []) with (@nil (Z * Z * Z)). rewrite elem_of_nil. tauto.
  - destruct (Z.eqb_spec k k') as [->|Hne]; rewrite !writes_of_cons; cbn [fst snd].
    + rewrite fmap_app, !elem_of_app, fmap_cons, fmap_nil.
      rewrite list_elem_of_singleton. tauto.
    + rewrite !elem_of_app, IH. tauto.
Qed.

(** Every key has at least one neighbour entry, and every neighbour is a
    key as well. *)
Definition closed_adj (al : list (Z * list (Z * Z))) : Prop :=
  NoDup al.*1
  /\ (forall k, k ∈ al.*1 -> exists w x, (k, w, x) ∈ writes_of al)
  /\ (forall v w x, (v, w, x) ∈ writes_of al -> v ∈ al.*1 /\ w ∈ al.*1).

Lemma add_link_closed al l : closed_adj al -> closed_adj (add_link al l).
Proof.
  intros (Hnd & Hk & Hw). unfold add_link. split; [|split].
  - by do 2 apply sda_NoDup.
  - intros k. rewrite !sda_keys. intros [[Hin| ->]| ->].
    + destruct (Hk k Hin) as (w & x & Hwx). exists w, x.
      rewrite !sda_writes. tauto.
    + exists (n2 l), (weight_of l). rewrite !sda_writes. simpl. tauto.
    + exists (n1 l), (weight_of l). rewrite !sda_writes. simpl. tauto.
  - intros v w x. rewrite !sda_writes, !sda_keys. simpl.
    intros [[Hin|[= -> -> ->]]|[= -> -> ->]]; [|tauto|tauto].
    destruct (Hw v w x Hin). tauto.
Qed.

Lemma adj_list_closed links : closed_adj (adj_list links).
Proof.
  unfold adj_list. induction links as [|l links IH] using rev_ind.
  - split; [constructor|]. split.
    + intros k Hk. by apply elem_of_nil in Hk.
    + intros v w x Hx. by apply elem_of_nil in Hx.
  - rewrite foldl_snoc. by apply add_link_closed.
Qed.

Lemma node_ids_NoDup links : NoDup (node_ids links).
Proof. apply adj_list_closed. Qed.

Lemma node_ids_length links : length (node_ids links) = n_nodes links.
Proof. unfold node_ids, n_nodes. apply length_fmap. Qed.

(** The writes are the two of each "L" line. *)
Lemma adj_list_writes links vwx :
  vwx ∈ writes_of (adj_list links)
  <-> exists l, l ∈ links
        /\ (vwx = (n1 l, n2 l, weight_of l) \/ vwx = (n2 l, n1 l, weight_of l)).
Proof.
  unfold adj_list. induction links as [|l links IH] using rev_ind.
  - split; [by intros ?%elem_of_nil|]. by intros (? & ?%elem_of_nil & _).
  - rewrite foldl_snoc. unfold add_link at 1. rewrite !sda_writes, IH.
    cbn [fst snd]. split.
    + intros [[(l' & Hin & H)| ->]| ->].
      * exists l'. split; [|done]. rewrite elem_of_app. by left.
      * exists l. split; [|by left].
        rewrite elem_of_app, list_elem_of_singleton. by right.
      * exists l. split; [|by right].
        rewrite elem_of_app, list_elem_of_singleton. by right.
    + intros (l' & [Hin| ->%list_elem_of_singleton]%elem_of_app & H).
      * left. left. by exists l'.
      * destruct H as [->| ->]; tauto.
Qed.

Lemma writes_storable links :
  Forall storable (writes_of (adj_list links)) <-> convertible links.
Proof.
  rewrite Forall_forall. unfold convertible, storable. split.
  - intros H l Hl. apply (H (n1 l, n2 l, weight_of l)).
    apply adj_list_writes. exists l. split; [done|by left].
  - intros H vwx (l & Hl & [->| ->])%adj_list_writes; by apply H.
Qed.

Lemma writes_writable links :
  Forall (writable (n_nodes links)) (writes_of (adj_list links))
  <-> forall id, id ∈ node_ids links -> in_range (n_nodes links) id.
Proof.
  destruct (adj_list_closed links) as (_ & Hk & Hw).
  rewrite Forall_forall. unfold writable. split.
  - intros H id Hid. destruct (Hk id Hid) as (w & x & Hin).
    by destruct (H _ Hin).
  - intros H [[v w] x] Hin. destruct (Hw v w x Hin). simpl.
    split; by apply H.
Qed.

(** *** When the matrix can be filled *)

Lemma adj_matrix_Ok links :
  (exists adj, adj_matrix links = Ok adj)
  <-> (forall id, id ∈ node_ids links -> in_range (n_nodes links) id)
      /\ convertible links.
Proof.
  unfold adj_matrix. rewrite fill_writes.
  rewrite (write_all_Ok (length (adj_list links))) by apply zeros_square.
  by rewrite <- writes_storable, <- writes_writable.
Qed.

Lemma adj_matrix_IndexError links :
  convertible links ->
  adj_matrix links = Raise IndexError
  <-> ~ (forall id, id ∈ node_ids links -> in_range (n_nodes links) id).
Proof.
  intros Hc. unfold adj_matrix. rewrite fill_writes.
  rewrite (write_all_IndexError (length (adj_list links)))
    by first [apply zeros_square | by apply writes_storable].
  by rewrite <- writes_writable.
Qed.

(** n distinct non-negative integers below n are 0, ..., n-1. *)
Lemma in_range_contiguous links :
  (forall id, id ∈ node_ids links -> 0 <= id) ->
  (forall id, id ∈ node_ids links -> in_range (n_nodes links) id)
  <-> contiguous links.
Proof.
  intros Hnn. split.
  - intros Hr.
    assert (node_ids links ≡ₚ seqZ 0 (Z.of_nat (n_nodes links))) as Hp.
    { apply submseteq_length_Permutation.
      - apply NoDup_submseteq; [apply node_ids_NoDup|].
        intros x Hx. apply elem_of_seqZ.
        pose proof (Hnn x Hx). destruct (Hr x Hx). lia.
      - rewrite length_seqZ, node_ids_length. lia. }
    intros k. rewrite Hp, elem_of_seqZ. lia.
  - intros Hc id Hid. apply Hc in Hid. unfold in_range. lia.
Qed.

Section Outcome.
Context {E : Type} (entropy_of : list F32.t -> E).
Variable np_sum : list F32.t -> F32.t.
Variable np_inner : list (list F32.t) -> list F32.t -> list F32.t.

Lemma compute_returned links max_nodes :
  (exists e w,
     compute_graph_diffusion_entropy entropy_of np_sum np_inner links max_nodes
     = Returned e w)
  <-> Z.of_nat (n_nodes links) <= max_nodes
      /\ (forall id, id ∈ node_ids links -> in_range (n_nodes links) id)
      /\ convertible links.
Proof.
  rewrite <- adj_matrix_Ok.
  unfold compute_graph_diffusion_entropy, adj_matrix, n_nodes.
  destruct (Z.ltb_spec max_nodes (Z.of_nat (length (adj_list links)))).
  - split; [by intros (? & ? & ?)|lia].
  - destruct (fill _ _) as [m|e].
    + split; [eauto|]. intros _. eauto.
    + split; [by intros (? & ? & ?)|]. by intros [_ [? ?]].
Qed.

Lemma compute_raised links max_nodes :
  (exists x,
     compute_graph_diffusion_entropy entropy_of np_sum np_inner links max_nodes
     = Raised x)
  <-> Z.of_nat (n_nodes links) <= max_nodes
      /\ ~ ((forall id, id ∈ node_ids links -> in_range (n_nodes links) id)
            /\ convertible links).
Proof.
  rewrite <- adj_matrix_Ok.
  unfold compute_graph_diffusion_entropy, adj_matrix, n_nodes.
  destruct (Z.ltb_spec max_nodes (Z.of_nat (length (adj_list links)))).
  - split; [by intros [? ?]|lia].
  - destruct (fill _ _) as [m|e].
    + split; [by intros [? ?]|]. intros [_ Hn]. destruct Hn. eauto.
    + split; [|eauto]. intros _. split; [done|]. by intros [? ?].
Qed.

Lemma compute_index_error links max_nodes :
  convertible links ->
  compute_graph_diffusion_entropy entropy_of np_sum np_inner links max_nodes
  = Raised IndexError
  <-> Z.of_nat (n_nodes links) <= max_nodes
      /\ ~ (forall id, id ∈ node_ids links -> in_range (n_nodes links) id).
Proof.
  intros Hc. rewrite <- (adj_matrix_IndexError links Hc).
  unfold compute_graph_diffusion_entropy, adj_matrix, n_nodes.
  destruct (Z.ltb_spec max_nodes (Z.of_nat (length (adj_list links)))).
  - split; [done|lia].
  - destruct (fill _ _) as [m|e].
    + split; [done|]. by intros [_ ?].
    + split; [by intros [= ->]|]. by intros [_ [= ->]].
Qed.

(** C9 (amended): the matrix is indexed by raw node id, and numpy accepts
    an index [i] on an axis of length [n] when [-n <= i < n].  For an edge
    list whose node ids are all non-negative (and whose node count is
    within [max_nodes]) the function raises whenever the n distinct ids
    are not the set 0, ..., n-1, and returns an (entropy, weights) result
    only when they are: it returns exactly when they are and every weight
    is within the range of a C double, and raises otherwise.  When the
    weights are within that range, it fails on an out-of-range write
    (IndexError) exactly when the ids are not 0, ..., n-1. *)
Theorem C9_raw_id_indexing links max_nodes :
  Z.of_nat (n_nodes links) <= max_nodes ->
  (forall id, id ∈ node_ids links -> 0 <= id) ->
  ((exists x,
      compute_graph_diffusion_entropy entropy_of np_sum np_inner links max_nodes
      = Raised x)
   <-> ~ (contiguous links /\ convertible links))
  /\ ((exists e w,
        compute_graph_diffusion_entropy entropy_of np_sum np_inner links max_nodes
        = Returned e w)
      <-> contiguous links /\ convertible links)
  /\ (convertible links ->
      (compute_graph_diffusion_entropy entropy_of np_sum np_inner links max_nodes
       = Raised IndexError
       <-> ~ contiguous links)).
Proof.
  intros Hmax Hnn. split; [|split].
  - rewrite compute_raised, (in_range_contiguous links Hnn). tauto.
  - rewrite compute_returned, (in_range_contiguous links Hnn). tauto.
  - intros Hc.
    rewrite (compute_index_error links max_nodes Hc).
    rewrite (in_range_contiguous links Hnn). tauto.
Qed.

End Outcome.

(** C9, as stated, fails for negative node ids: with the ids 0 and -1 the
    two writes [adj_matrix[0][-1]] and [adj_matrix[-1][0]] are in range of
    the 2-by-2 matrix and the function returns its result, although the
    ids are not 0 and 1. *)
Lemma C9_counterexample :
  ~ contiguous [mk_link 0 (-1) []]
  /\ forall np_sum np_inner,
       exists w,
         compute_graph_diffusion_entropy (fun _ => tt) np_sum np_inner
           [mk_link 0 (-1) []] 6000
         = Returned tt w.
Proof.
  split.
  - intros H. specialize (H (-1)). destruct H as [H _].
    assert (0 <= -1 < Z.of_nat (n_nodes [mk_link 0 (-1) []])); [|lia].
    apply H. vm_compute. right. left.
  - intros np_sum np_inner. eexists. vm_compute. reflexivity.
Qed.

(** Contiguous ids are not enough for a result: a weight of 2^1024 cannot
    be taken as a double, and the first write raises OverflowError. *)
Example weight_beyond_double :
  contiguous [mk_link 0 1 [2 ^ 1024]]
  /\ forall np_sum np_inner,
       compute_graph_diffusion_entropy (fun _ => tt) np_sum np_inner
         [mk_link 0 1 [2 ^ 1024]] 6000
       = Raised OverflowError.
Proof.
  split.
  - intros k.
    assert (node_ids [mk_link 0 1 [2 ^ 1024]] = [0; 1]) as ->
      by (vm_compute; reflexivity).
    assert (Z.of_nat (n_nodes [mk_link 0 1 [2 ^ 1024]]) = 2) as ->
      by (vm_compute; reflexivity).
    rewrite !elem_of_cons, elem_of_nil. lia.
  - intros np_sum np_inner. vm_compute. reflexivity.
Qed.

(** One order in which [np.inner] may add up the products of a row: one
    after the other.  The library behind numpy is free to take another,
    and no statement depends on the choice. *)
Definition loop_inner (m : list (list F32.t)) (yy : list F32.t) : list F32.t :=
  (fun row => F32.loop_sum (zip_with F32.mul row yy)) <$> m.

(** The path 0 - 1 - 2 with weights 5 and 1. *)
Definition path_links : list link := [mk_link 0 1 [5]; mk_link 1 2 []].

Lemma path_links_ids : node_ids path_links = [0; 1; 2].
Proof. vm_compute. reflexivity. Qed.

Lemma path_links_nonneg : forall id, id ∈ node_ids path_links -> 0 <= id.
Proof.
  intros id. rewrite path_links_ids, !elem_of_cons, elem_of_nil. lia.
Qed.

Lemma C9_raw_id_indexing_witness :
  let run :=
    compute_graph_diffusion_entropy (fun _ => tt) F32.loop_sum loop_inner
      path_links 6000 in
  ((exists x, run = Raised x)
   <-> ~ (contiguous path_links /\ convertible path_links))
  /\ ((exists e w, run = Returned e w)
      <-> contiguous path_links /\ convertible path_links)
  /\ (convertible path_links ->
      (run = Raised IndexError <-> ~ contiguous path_links)).
Proof.
  cbv zeta.
  apply (C9_raw_id_indexing (fun _ => tt) F32.loop_sum loop_inner
           path_links 6000).
  - vm_compute. discriminate.
  - apply path_links_nonneg.
Defined.

(** *** The transition matrix *)

Lemma square_cell n m i j :
  square n m -> (i < n)%nat -> (j < n)%nat ->
  exists row, m !! i = Some row /\ row !! j = Some (entry m i j).
Proof.
  intros Hm Hi Hj. destruct (square_row n m i Hm Hi) as (row & E & Hlen).
  exists row. split; [done|]. unfold entry.
  rewrite (nth_lookup_Some m i [] row E).
  destruct (lookup_lt_is_Some_2 row j) as [x Ex]; [lia|].
  by rewrite (nth_lookup_Some row j F32.zero x Ex).
Qed.

Section Transition.
Variable np_sum : list F32.t -> F32.t.




End Transition.

Definition symmetric (n : nat) (m : list (list F32.t)) : Prop :=
  forall i j, (i < n)%nat -> (j < n)%nat -> entry m i j = entry m j i.

(** *** The matrix the code builds is symmetric when no index wraps *)

(** The weight last written at row id [a], column id [b]. *)
Fixpoint last_write (ws : list (Z * Z * Z)) (a b : Z) : option Z :=
  match ws with
  | [] => None
  | (v, w, x) :: ws' =>
      match last_write ws' a b with
      | Some y => Some y
      | None => if decide (v = a /\ w = b) then Some x else None
      end
  end.

Lemma last_write_app l1 l2 a b :
  last_write (l1 ++ l2) a b
  = match last_write l2 a b with
    | Some y => Some y
    | None => last_write l1 a b
    end.
Proof.
  induction l1 as [|[[v w] x] l1 IH]; simpl.
  - by destruct (last_write l2 a b).
  - rewrite IH. by destruct (last_write l2 a b).
Qed.

Lemma last_write_none ws a b :
  (forall vwx, vwx ∈ ws -> vwx.1.1 <> a) -> last_write ws a b = None.
Proof.
  induction ws as [|[[v w] x] ws IH]; intros H; simpl; [done|].
  rewrite IH.
  - rewrite decide_False; [done|]. intros [-> _].
    by apply (H (a, w, x)); [left|].
  - intros vwx Hin. apply H. by right.
Qed.

Lemma writes_of_key al vwx : vwx ∈ writes_of al -> vwx.1.1 ∈ al.*1.
Proof.
  unfold writes_of. intros ([k vs] & Hin & Hkv)%list_elem_of_bind.
  apply list_elem_of_fmap in Hin as (wx & -> & _). simpl.
  apply list_elem_of_fmap. by exists (k, vs).
Qed.

Lemma last_write_cons v w x ws a b :
  last_write ((v, w, x) :: ws) a b
  = match last_write ws a b with
    | Some y => Some y
    | None => if decide (v = a /\ w = b) then Some x else None
    end.
Proof. reflexivity. Qed.

Lemma sda_last_write k v al a b :
  NoDup al.*1 ->
  last_write (writes_of (setdefault_append k v al)) a b
  = if decide (k = a /\ v.1 = b) then Some v.2
    else last_write (writes_of al) a b.
Proof.
  induction al as [|[k' vs] al IH]; intros Hnd; cbn [setdefault_append].
  - rewrite writes_of_cons. cbn [fst snd]. rewrite fmap_cons, fmap_nil.
    change (writes_of []) with (@nil (Z * Z * Z)). cbn [app].
    rewrite last_write_cons. done.
  - rewrite fmap_cons in Hnd. apply NoDup_cons in Hnd as [Hk' Hnd].
    destruct (Z.eqb_spec k k') as [->|Hne]; rewrite !writes_of_cons; cbn [fst snd].
    + rewrite fmap_app, <- app_assoc, !last_write_app.
      rewrite fmap_cons, fmap_nil. cbn [app]. rewrite last_write_cons.
      change (last_write [] a b) with (@None Z).
      destruct (decide (k' = a /\ v.1 = b)) as [[Ea Eb]|Hn].
      * subst a b. rewrite last_write_none; [done|].
        intros vwx Hin%writes_of_key E. apply Hk'. by rewrite <- E.
      * by destruct (last_write (writes_of al) a b).
    + rewrite !last_write_app, IH by done.
      destruct (decide (k = a /\ v.1 = b)); [done|].
      done.
Qed.

Lemma add_link_last_write al l a b :
  NoDup al.*1 ->
  last_write (writes_of (add_link al l)) a b
  = if decide ((n1 l = a /\ n2 l = b) \/ (n2 l = a /\ n1 l = b))
    then Some (weight_of l)
    else last_write (writes_of al) a b.
Proof.
  intros Hnd. unfold add_link.
  rewrite sda_last_write by (by apply sda_NoDup).
  rewrite sda_last_write by done. simpl.
  destruct (decide (n2 l = a /\ n1 l = b)), (decide (n1 l = a /\ n2 l = b));
    try (rewrite decide_True by tauto; done).
  by rewrite decide_False by tauto.
Qed.

Lemma adj_list_last_write_sym links a b :
  last_write (writes_of (adj_list links)) a b
  = last_write (writes_of (adj_list links)) b a.
Proof.
  induction links as [|l links IH] using rev_ind; [done|].
  unfold adj_list in *. rewrite foldl_snoc.
  rewrite !add_link_last_write by apply (adj_list_closed links).
  rewrite IH.
  destruct (decide ((n1 l = a /\ n2 l = b) \/ (n2 l = a /\ n1 l = b))).
  - by rewrite decide_True by tauto.
  - by rewrite decide_False by tauto.
Qed.

Lemma set_entry_entry n m v w z m' a b :
  square n m -> 0 <= v -> 0 <= w ->
  set_entry m v w z = Ok m' -> (a < n)%nat -> (b < n)%nat ->
  if decide (v = Z.of_nat a /\ w = Z.of_nat b)
  then F32.of_int z = Some (entry m' a b)
  else entry m' a b = entry m a b.
Proof.
  intros Hm Hv Hw H Ha Hb. pose proof Hm as [Hl _].
  pose proof (set_entry_cases n m v w z Hm) as Hc. rewrite H in Hc.
  destruct Hc as (Hrv & Hrw & i & j & row & q & Ei & Ej & Er & Eq & ->).
  rewrite (np_index_nonneg n v Hv Hrv) in Ei. injection Ei as <-.
  rewrite (np_index_nonneg n w Hw Hrw) in Ej. injection Ej as <-.
  destruct (square_row n m (Z.to_nat v) Hm) as (row' & Er' & Hlen).
  { destruct Hrv. lia. }
  rewrite Er in Er'. injection Er' as <-.
  destruct (square_cell n m a b Hm Ha Hb) as (rowa & Ea & Eab).
  unfold entry at 1 2.
  destruct (decide (Z.to_nat v = a)) as [Eva|Nva].
  - subst a. rewrite Er in Ea. injection Ea as <-.
    rewrite (nth_lookup_Some _ (Z.to_nat v) [] (<[Z.to_nat w := q]> row)).
    2:{ apply list_lookup_insert_eq. destruct Hrv. lia. }
    destruct (decide (Z.to_nat w = b)) as [Ewb|Nwb].
    + subst b. rewrite decide_True by lia. rewrite Eq. f_equal. symmetry.
      apply nth_lookup_Some, list_lookup_insert_eq. destruct Hrw. lia.
    + rewrite decide_False by lia.
      apply nth_lookup_Some. by rewrite list_lookup_insert_ne.
  - rewrite decide_False by lia.
    rewrite (nth_lookup_Some _ a [] rowa).
    + by apply nth_lookup_Some.
    + by rewrite list_lookup_insert_ne.
Qed.

(** A cell written to holds the float32 value of the weight written
    last; a cell never written to is as it was. *)
Lemma write_all_entry n ws : forall m m' a b,
  square n m ->
  Forall (fun vwx : Z * Z * Z => 0 <= vwx.1.1 /\ 0 <= vwx.1.2) ws ->
  write_all m ws = Ok m' -> (a < n)%nat -> (b < n)%nat ->
  match last_write ws (Z.of_nat a) (Z.of_nat b) with
  | Some x => F32.of_int x = Some (entry m' a b)
  | None => entry m' a b = entry m a b
  end.
Proof.
  induction ws as [|[[v w] x] ws IH]; intros m m' a b Hm Hnn H Ha Hb; simpl in *.
  - by injection H as <-.
  - apply Forall_cons in Hnn as [[Hv Hw] Hnn]. simpl in *.
    destruct (set_entry m v w x) as [m1|] eqn:E; [|done].
    assert (square n m1) as Hm1 by eauto using set_entry_square.
    pose proof (IH m1 m' a b Hm1 Hnn H Ha Hb) as IH'.
    destruct (last_write ws (Z.of_nat a) (Z.of_nat b)); [done|].
    pose proof (set_entry_entry n m v w x m1 a b Hm Hv Hw E Ha Hb) as Hs.
    destruct (decide (v = Z.of_nat a /\ w = Z.of_nat b)).
    + by rewrite IH'.
    + by rewrite IH'.
Qed.

Lemma entry_zeros n i j :
  (i < n)%nat -> (j < n)%nat -> entry (zeros n) i j = F32.zero.
Proof.
  intros Hi Hj. unfold entry, zeros.
  rewrite (nth_lookup_Some _ i _ _ (lookup_replicate_2 _ _ _ Hi)).
  apply nth_lookup_Some. by apply lookup_replicate_2.
Qed.


Lemma writes_nonneg links :
  (forall id, id ∈ node_ids links -> 0 <= id) ->
  Forall (fun vwx : Z * Z * Z => 0 <= vwx.1.1 /\ 0 <= vwx.1.2)
    (writes_of (adj_list links)).
Proof.
  intros Hnn. apply Forall_forall. intros [[v w] x] Hin. simpl.
  destruct (adj_list_closed links) as (_ & _ & Hk).
  destruct (Hk v w x Hin). split; by apply Hnn.
Qed.

(** A cell of the adjacency matrix, by the last write to it. *)
Lemma adj_matrix_entry links adj a b :
  adj_matrix links = Ok adj ->
  (forall id, id ∈ node_ids links -> 0 <= id) ->
  (a < n_nodes links)%nat -> (b < n_nodes links)%nat ->
  match last_write (writes_of (adj_list links)) (Z.of_nat a) (Z.of_nat b) with
  | Some x => F32.of_int x = Some (entry adj a b)
  | None => entry adj a b = F32.zero
  end.
Proof.
  intros H Hnn Ha Hb. unfold adj_matrix in H. rewrite fill_writes in H.
  pose proof (write_all_entry _ _ _ _ a b (zeros_square _)
                (writes_nonneg links Hnn) H Ha Hb) as Hw.
  destruct (last_write _ _ _); [done|].
  unfold n_nodes in Ha, Hb. by rewrite Hw, entry_zeros.
Qed.

Lemma adj_matrix_symmetric links adj :
  adj_matrix links = Ok adj ->
  (forall id, id ∈ node_ids links -> 0 <= id) ->
  symmetric (n_nodes links) adj.
Proof.
  intros H Hnn i j Hi Hj.
  pose proof (adj_matrix_entry links adj i j H Hnn Hi Hj) as Hij.
  pose proof (adj_matrix_entry links adj j i H Hnn Hj Hi) as Hji.
  rewrite adj_list_last_write_sym in Hij.
  destruct (last_write _ _ _); [|congruence].
  rewrite Hij in Hji. by injection Hji.
Qed.




Section Normalised.
Variable np_sum : list F32.t -> F32.t.


End Normalised.


End Diffusion.

(** ** query_sdb, with its merging pass *)

Module Query.

(** The alignments the engine hands over are separate list objects: each
    region tuple built from them gets a reference of its own. *)
Definition alloc (rgns : list Hits.region) : gmap Z (list Hits.hitpair) * list Regions.region :=
  (list_to_map (imap (fun i r => (Z.of_nat i, Hits.r_aln r)) rgns),
   imap (fun i r => Regions.mk_region (Hits.r_bgn r) (Hits.r_end r) (Hits.r_len r)
                      (Hits.r_orientation r) (Z.of_nat i)) rgns).

Definition as_value (r : Hits.region) : Regions.rvalue :=
  (Hits.r_bgn r, Hits.r_end r, Hits.r_len r, Hits.r_orientation r, Hits.r_aln r).

(** [aln_range[sid] = merge_regions(rgns, tol=merge_range_tol)], read off
    as values once the call has returned. *)
Definition merged (rgns : list Hits.region) (tol : Z) : list Regions.rvalue :=
  let '(st, rs) := alloc rgns in
  let '(st', _, out) := Regions.merge_regions st rs tol in
  Regions.values st' out.

(** [r] is what [seq_index_db.query_fragment_to_hps] returned. *)
Definition query_sdb {Score} (r : list (Z * list (Score * list Hits.hitpair)))
    (merge_range_tol : Z) : option (gmap Z (list Regions.rvalue)) :=
  match Hits.aln_range r with
  | None => None
  | Some aln_range =>
      Some (if 0 <? merge_range_tol
            then (fun rgns => merged rgns merge_range_tol) <$> aln_range
            else (fun rgns => as_value <$> rgns) <$> aln_range)
  end.

(** Without the merging pass the regions of [Hits.aln_range] are what
    the caller gets. *)
Lemma query_sdb_no_merge {Score} (r : list (Z * list (Score * list Hits.hitpair)))
    tol (m : gmap Z (list Hits.region)) :
  tol <= 0 -> Hits.aln_range r = Some m ->
  query_sdb r tol
  = Some ((fun rgns : list Hits.region => as_value <$> rgns) <$> m).
Proof.
  intros Htol H. unfold query_sdb. rewrite H. simpl.
  by destruct (Z.ltb_spec 0 tol); [lia|].
Qed.

Lemma query_sdb_total {Score} (r : list (Z * list (Score * list Hits.hitpair))) tol :
  is_Some (query_sdb r tol).
Proof.
  unfold query_sdb. destruct (Hits.aln_range_total r) as [m ->]. simpl. eauto.
Qed.

(** Two regions 50 apart merge under tolerance 100 and stay apart under
    tolerance 10. *)
Example merged_within_tolerance :
  let a := {| Hits.r_bgn := 0; Hits.r_end := 100; Hits.r_len := 100;
              Hits.r_orientation := 0; Hits.r_aln := [Hits.hp 0 1 0 0 100 0] |} in
  let b := {| Hits.r_bgn := 150; Hits.r_end := 250; Hits.r_len := 100;
              Hits.r_orientation := 0; Hits.r_aln := [Hits.hp 2 3 0 150 250 0] |} in
  merged [a; b] 100
  = [(0, 250, 200, 0, [Hits.hp 0 1 0 0 100 0; Hits.hp 2 3 0 150 250 0])]
  /\ merged [a; b] 10 = [as_value a; as_value b].
Proof. cbv zeta. split; vm_compute; reflexivity. Qed.

End Query.

(** ** Reverse complement and the byte/string conversions *)

Module Bases.

(** A Python [str] is a sequence of code points, a byte sequence a list of
    integers in 0..255. *)
Definition ord (c : ascii) : Z := Z.of_N (N_of_ascii c).
Definition ords (s : string) : list Z := ord <$> list_ascii_of_string s.

Inductive err :=
  KeyError | ValueError | UnicodeEncodeError | UnicodeDecodeError.

(** [byte_rc_map = dict(zip([ord(c) for c in "ACGTNnacgt"],
                            [ord(c) for c in "TGCANntgca"]))] *)
Definition byte_rc_map : gmap Z Z :=
  list_to_map (zip (ords "ACGTNnacgt") (ords "TGCANntgca")).

(** [rc_map = dict(zip("ACGTNnactg", "TGCANntgca"))] *)
Definition rc_map : gmap Z Z :=
  list_to_map (zip (ords "ACGTNnactg") (ords "TGCANntgca")).

(** [[m[_] for _ in l]]; a missing key raises KeyError. *)
Fixpoint translate (m : gmap Z Z) (l : list Z) : err + list Z :=
  match l with
  | [] => inr []
  | x :: l' =>
      match m !! x with
      | None => inl KeyError
      | Some y =>
          match translate m l' with
          | inl e => inl e
          | inr r => inr (y :: r)
          end
      end
  end.

(** [seq = [byte_rc_map[_] for _ in seq[::-1]]] *)
Definition rc_byte_seq (seq : list Z) : err + list Z :=
  translate byte_rc_map (reverse seq).

(** ["".join([rc_map[_] for _ in seq[::-1]])] *)
Definition rc (seq : list Z) : err + list Z :=
  translate rc_map (reverse seq).

(** *** UTF-8 *)

(** The bytes of one code point under [str.encode("utf-8")]; surrogates
    have no encoding (UnicodeEncodeError), and integers outside
    0..0x10FFFF are not code points. *)
Definition encode_cp (cp : Z) : option (list Z) :=
  if cp <? 0 then None
  else if cp <? 128 then Some [cp]
  else if cp <? 2048 then Some [192 + cp / 64; 128 + cp mod 64]
  else if cp <? 65536 then
    if (55296 <=? cp) && (cp <=? 57343) then None
    else Some [224 + cp / 4096; 128 + (cp / 64) mod 64; 128 + cp mod 64]
  else if cp <? 1114112 then
    Some [240 + cp / 262144; 128 + (cp / 4096) mod 64;
          128 + (cp / 64) mod 64; 128 + cp mod 64]
  else None.

Fixpoint encode (s : list Z) : option (list Z) :=
  match s with
  | [] => Some []
  | cp :: s' =>
      match encode_cp cp, encode s' with
      | Some e, Some r => Some (e ++ r)
      | _, _ => None
      end
  end.

(** [list(s.encode("utf-8"))] *)
Definition string_to_u8 (s : list Z) : err + list Z :=
  match encode s with Some bs => inr bs | None => inl UnicodeEncodeError end.

(** A continuation byte. *)
Definition cont (b : Z) : bool := (128 <=? b) && (b <=? 191).

(** The strict decoder of [bytes.decode("utf-8")]: shortest form only,
    no surrogates, nothing above 0x10FFFF. *)
Fixpoint decode (bs : list Z) : option (list Z) :=
  match bs with
  | [] => Some []
  | b0 :: rest =>
      if (0 <=? b0) && (b0 <? 128) then
        cons b0 <$> decode rest
      else if (194 <=? b0) && (b0 <=? 223) then
        match rest with
        | b1 :: rest' =>
            if cont b1
            then cons ((b0 - 192) * 64 + (b1 - 128)) <$> decode rest'
            else None
        | _ => None
        end
      else if (224 <=? b0) && (b0 <=? 239) then
        match rest with
        | b1 :: b2 :: rest' =>
            if cont b1 && cont b2
               && implb (b0 =? 224) (160 <=? b1)
               && implb (b0 =? 237) (b1 <=? 159)
            then cons ((b0 - 224) * 4096 + (b1 - 128) * 64 + (b2 - 128))
                   <$> decode rest'
            else None
        | _ => None
        end
      else if (240 <=? b0) && (b0 <=? 244) then
        match rest with
        | b1 :: b2 :: b3 :: rest' =>
            if cont b1 && cont b2 && cont b3
               && implb (b0 =? 240) (144 <=? b1)
               && implb (b0 =? 244) (b1 <=? 143)
            then cons ((b0 - 240) * 262144 + (b1 - 128) * 4096
                       + (b2 - 128) * 64 + (b3 - 128))
                   <$> decode rest'
            else None
        | _ => None
        end
      else None
  end.

(** [bytes(u8)] wants every item in range(256). *)
Definition is_byte (b : Z) : bool := (0 <=? b) && (b <? 256).

(** [bytes(u8).decode("utf-8")] *)
Definition u8_to_string (u8 : list Z) : err + list Z :=
  if forallb is_byte u8 then
    match decode u8 with Some s => inr s | None => inl UnicodeDecodeError end
  else inl ValueError.

(** *** Proof steps for byte arithmetic *)

Ltac bools :=
  repeat match goal with
  | H : _ && _ = true |- _ => apply andb_true_iff in H as [? ?]
  | H : implb _ _ = true |- _ => rewrite implb_true_iff in H
  | H : (_ <=? _) = true |- _ => apply Z.leb_le in H
  | H : (_ <=? _) = false |- _ => apply Z.leb_gt in H
  | H : (_ <? _) = true |- _ => apply Z.ltb_lt in H
  | H : (_ <? _) = false |- _ => apply Z.ltb_ge in H
  | H : (_ =? _) = true |- _ => apply Z.eqb_eq in H
  | H : (_ =? _) = false |- _ => apply Z.eqb_neq in H
  end.

(* settle every comparison of the goal that linear arithmetic decides *)
Ltac settle :=
  repeat match goal with
  | |- context [?a <=? ?b] =>
      first [ replace (a <=? b) with true by (symmetry; apply Z.leb_le; lia)
            | replace (a <=? b) with false by (symmetry; apply Z.leb_gt; lia) ]
  | |- context [?a <? ?b] =>
      first [ replace (a <? b) with true by (symmetry; apply Z.ltb_lt; lia)
            | replace (a <? b) with false by (symmetry; apply Z.ltb_ge; lia) ]
  | |- context [?a =? ?b] =>
      first [ replace (a =? b) with true by (symmetry; apply Z.eqb_eq; lia)
            | replace (a =? b) with false by (symmetry; apply Z.eqb_neq; lia) ]
  end; cbn [andb orb implb negb].

Ltac euclid := Z.to_euclidean_division_equations; lia.
Definition rc_twice (b : Z) : Z :=
  if b =? ord "a" then ord "c" else if b =? ord "c" then ord "a"
  else if b =? ord "t" then ord "g" else if b =? ord "g" then ord "t" else b.


Lemma decode_encode_cp cp e rest :
  encode_cp cp = Some e -> decode (e ++ rest) = cons cp <$> decode rest.
Proof.
  unfold encode_cp.
  destruct (cp <? 0) eqn:H0; [done|].
  destruct (cp <? 128) eqn:H1.
  { intros [= <-]. bools. cbn [app decode]. settle. done. }
  destruct (cp <? 2048) eqn:H2.
  { intros [= <-]. bools. cbn [app decode]. unfold cont.
    assert (2 <= cp / 64 < 32) by euclid.
    assert (0 <= cp mod 64 < 64) by euclid.
    settle. do 2 f_equal. euclid. }
  destruct (cp <? 65536) eqn:H3.
  { destruct ((55296 <=? cp) && (cp <=? 57343)) eqn:Hs; [done|].
    intros [= <-]. bools. cbn [app decode]. unfold cont.
    assert (0 <= cp / 4096 < 16) by euclid.
    assert (0 <= (cp / 64) mod 64 < 64) by euclid.
    assert (0 <= cp mod 64 < 64) by euclid.
    assert (cp / 4096 = 0 -> 32 <= (cp / 64) mod 64) by euclid.
    assert (cp / 4096 = 13 -> (cp / 64) mod 64 < 32).
    { apply andb_false_iff in Hs. intros. destruct Hs; bools; euclid. }
    settle.
    destruct (Z.eqb_spec (224 + cp / 4096) 224), (Z.eqb_spec (224 + cp / 4096) 237);
      cbn [implb andb]; settle; try lia; do 2 f_equal; euclid. }
  destruct (cp <? 1114112) eqn:H4; [|done].
  intros [= <-]. bools. cbn [app decode]. unfold cont.
  assert (0 <= cp / 262144 < 5) by euclid.
  assert (0 <= (cp / 4096) mod 64 < 64) by euclid.
  assert (0 <= (cp / 64) mod 64 < 64) by euclid.
  assert (0 <= cp mod 64 < 64) by euclid.
  assert (cp / 262144 = 0 -> 16 <= (cp / 4096) mod 64) by euclid.
  assert (cp / 262144 = 4 -> (cp / 4096) mod 64 < 16) by euclid.
  settle.
  destruct (Z.eqb_spec (240 + cp / 262144) 240), (Z.eqb_spec (240 + cp / 262144) 244);
    cbn [implb andb]; settle; try lia; do 2 f_equal; euclid.
Qed.

Lemma encode_cp_bytes cp e :
  encode_cp cp = Some e -> forallb is_byte e = true.
Proof.
  unfold encode_cp, is_byte.
  destruct (cp <? 0) eqn:H0; [done|].
  destruct (cp <? 128) eqn:H1.
  { intros [= <-]. bools. cbn [forallb]. settle. done. }
  destruct (cp <? 2048) eqn:H2.
  { intros [= <-]. bools. cbn [forallb].
    assert (2 <= cp / 64 < 32) by euclid.
    assert (0 <= cp mod 64 < 64) by euclid.
    settle. done. }
  destruct (cp <? 65536) eqn:H3.
  { destruct ((55296 <=? cp) && (cp <=? 57343)) eqn:Hs; [done|].
    intros [= <-]. bools. cbn [forallb].
    assert (0 <= cp / 4096 < 16) by euclid.
    assert (0 <= (cp / 64) mod 64 < 64) by euclid.
    assert (0 <= cp mod 64 < 64) by euclid.
    settle. done. }
  destruct (cp <? 1114112) eqn:H4; [|done].
  intros [= <-]. bools. cbn [forallb].
  assert (0 <= cp / 262144 < 5) by euclid.
  assert (0 <= (cp / 4096) mod 64 < 64) by euclid.
  assert (0 <= (cp / 64) mod 64 < 64) by euclid.
  assert (0 <= cp mod 64 < 64) by euclid.
  settle. done.
Qed.

Lemma decode_encode s : forall bs, encode s = Some bs -> decode bs = Some s.
Proof.
  induction s as [|cp s IH]; intros bs; cbn [encode]; [by intros [= <-]|].
  destruct (encode_cp cp) as [e|] eqn:Ee; [|done].
  destruct (encode s) as [r|] eqn:Er; [|done]. intros [= <-].
  rewrite (decode_encode_cp cp e r Ee), (IH r eq_refl). done.
Qed.

Lemma encode_bytes s : forall bs, encode s = Some bs -> forallb is_byte bs = true.
Proof.
  induction s as [|cp s IH]; intros bs; cbn [encode]; [by intros [= <-]|].
  destruct (encode_cp cp) as [e|] eqn:Ee; [|done].
  destruct (encode s) as [r|] eqn:Er; [|done]. intros [= <-].
  rewrite forallb_app, (encode_cp_bytes cp e Ee), (IH r eq_refl). done.
Qed.

(** One step of the decoder: the first code point, its bytes, and the
    bytes left over. *)
Lemma decode_first b0 rest s :
  decode (b0 :: rest) = Some s ->
  exists cp e rest' s',
    b0 :: rest = e ++ rest' /\ encode_cp cp = Some e
    /\ decode rest' = Some s' /\ s = cp :: s'
    /\ (length rest' <= length rest)%nat.
Proof.
  cbn [decode].
  destruct ((0 <=? b0) && (b0 <? 128)) eqn:H1.
  { destruct (decode rest) as [s'|] eqn:Ed; [|done]. intros [= <-].
    exists b0, [b0], rest, s'. bools. repeat split; try done.
    unfold encode_cp. settle. done. }
  destruct ((194 <=? b0) && (b0 <=? 223)) eqn:H2.
  { destruct rest as [|b1 rest']; [done|].
    destruct (cont b1) eqn:Hc; [|done].
    destruct (decode rest') as [s'|] eqn:Ed; [|done]. intros [= <-].
    unfold cont in Hc. bools.
    exists ((b0 - 192) * 64 + (b1 - 128)), [b0; b1], rest', s'.
    repeat split; try done; [|simpl; lia].
    unfold encode_cp. settle. do 2 f_equal; [|f_equal]; euclid. }
  destruct ((224 <=? b0) && (b0 <=? 239)) eqn:H3.
  { destruct rest as [|b1 [|b2 rest']]; [done|done|].
    destruct (cont b1 && cont b2 && implb (b0 =? 224) (160 <=? b1)
              && implb (b0 =? 237) (b1 <=? 159)) eqn:Hc; [|done].
    destruct (decode rest') as [s'|] eqn:Ed; [|done]. intros [= <-].
    unfold cont in Hc. bools.
    exists ((b0 - 224) * 4096 + (b1 - 128) * 64 + (b2 - 128)), [b0; b1; b2], rest', s'.
    repeat split; try done; [|simpl; lia].
    assert (b0 = 224 -> 160 <= b1).
    { intros E. apply Z.leb_le. match goal with H : _ -> _ = true |- _ => apply H end. by apply Z.eqb_eq. }
    assert (b0 = 237 -> b1 <= 159).
    { intros E. apply Z.leb_le. match goal with H : (b0 =? 237) = true -> _ |- _ => apply H end. by apply Z.eqb_eq. }
    unfold encode_cp. settle.
    destruct ((55296 <=? _) && (_ <=? 57343)) eqn:Hs; [bools; lia|].
    do 2 f_equal; [|f_equal; [|f_equal]]; euclid. }
  destruct ((240 <=? b0) && (b0 <=? 244)) eqn:H4; [|done].
  destruct rest as [|b1 [|b2 [|b3 rest']]]; [done|done|done|].
  destruct (cont b1 && cont b2 && cont b3 && implb (b0 =? 240) (144 <=? b1)
            && implb (b0 =? 244) (b1 <=? 143)) eqn:Hc; [|done].
  destruct (decode rest') as [s'|] eqn:Ed; [|done]. intros [= <-].
  unfold cont in Hc. bools.
  exists ((b0 - 240) * 262144 + (b1 - 128) * 4096 + (b2 - 128) * 64 + (b3 - 128)),
    [b0; b1; b2; b3], rest', s'.
  repeat split; try done; [|simpl; lia].
  assert (b0 = 240 -> 144 <= b1).
  { intros E. apply Z.leb_le. match goal with H : (b0 =? 240) = true -> _ |- _ => apply H end. by apply Z.eqb_eq. }
  assert (b0 = 244 -> b1 <= 143).
  { intros E. apply Z.leb_le. match goal with H : (b0 =? 244) = true -> _ |- _ => apply H end. by apply Z.eqb_eq. }
  unfold encode_cp. settle. do 2 f_equal; [|f_equal; [|f_equal; [|f_equal]]]; euclid.
Qed.

Lemma encode_decode_bounded n : forall bs s,
  (length bs <= n)%nat -> decode bs = Some s -> encode s = Some bs.
Proof.
  induction n as [|n IH]; intros [|b0 rest] s Hlen H; simpl in Hlen; try lia.
  - by injection H as <-.
  - by injection H as <-.
  - apply decode_first in H as (cp & e & rest' & s' & -> & He & Hd & -> & Hl).
    cbn [encode]. rewrite He, (IH rest' s'); [done|lia|done].
Qed.

Lemma translate_Forall2 m l r :
  translate m l = inr r <-> Forall2 (fun x y => m !! x = Some y) l r.
Proof.
  revert r. induction l as [|x l IH]; intros r; cbn [translate].
  - split; [intros [= <-]; constructor|by intros ->%Forall2_nil_inv_l].
  - destruct (m !! x) as [y|] eqn:E.
    + destruct (translate m l) as [e|r'] eqn:Et.
      * split; [done|]. intros (y' & r' & _ & Hr & ->)%Forall2_cons_inv_l.
        apply IH in Hr. done.
      * split.
        -- intros [= <-]. constructor; [done|by apply IH].
        -- intros (y' & r'' & Hy & Hr & ->)%Forall2_cons_inv_l.
           apply IH in Hr. injection Hr as <-. rewrite E in Hy. by injection Hy as <-.
    + split; [done|]. intros (y' & r' & Hy & _)%Forall2_cons_inv_l.
      rewrite E in Hy. done.
Qed.

Lemma translate_error m l e : translate m l = inl e -> e = KeyError.
Proof.
  induction l as [|x l IH]; cbn [translate]; [done|].
  destruct (m !! x); [|by intros [= <-]].
  destruct (translate m l); [|done]. intros [= <-]. by apply IH.
Qed.

Lemma translate_defined m l :
  (exists r, translate m l = inr r) <-> Forall (fun x => is_Some (m !! x)) l.
Proof.
  induction l as [|x l IH]; cbn [translate].
  - split; [constructor|eauto].
  - rewrite Forall_cons, <- IH. destruct (m !! x) as [y|].
    + destruct (translate m l) as [e|r].
      * split; [by intros [? ?]|by intros [_ [? ?]]].
      * split; [eauto|eauto].
    + split; [by intros [? ?]|by intros [[? ?] _]].
Qed.

Lemma byte_rc_map_lookup b c :
  byte_rc_map !! b = Some c -> byte_rc_map !! c = Some b.
Proof.
  unfold byte_rc_map. cbn -[insert lookup empty].
  rewrite !lookup_insert, lookup_empty.
  repeat (case_decide; [subst b; intros [= <-]; vm_compute; reflexivity|]).
  done.
Qed.

Ltac in_list := repeat first [left; reflexivity | right].

Lemma byte_rc_map_dom b :
  is_Some (byte_rc_map !! b) <-> b ∈ ords "ACGTNnacgt".
Proof.
  split.
  - unfold byte_rc_map. cbn -[insert lookup empty elem_of].
    rewrite !lookup_insert, lookup_empty.
    repeat (case_decide; [subst b; intros _; in_list|]).
    by intros [? ?].
  - cbn -[lookup]. rewrite !elem_of_cons, elem_of_nil.
    intros H. repeat (destruct H as [->|H]; [vm_compute; eauto|]). done.
Qed.

Lemma rc_map_lookup b c :
  rc_map !! b = Some c -> rc_map !! c = Some (rc_twice b).
Proof.
  unfold rc_map. cbn -[insert lookup empty].
  rewrite !lookup_insert, lookup_empty.
  repeat (case_decide; [subst b; intros [= <-]; vm_compute; reflexivity|]).
  done.
Qed.

Lemma rc_twice_upper b : b ∈ ords "ACGTNn" -> rc_twice b = b.
Proof.
  cbn. rewrite !elem_of_cons, elem_of_nil.
  intros H. repeat (destruct H as [->|H]; [reflexivity|]). done.
Qed.

Lemma translate_back m (f : Z -> Z) s t :
  (forall b c, m !! b = Some c -> m !! c = Some (f b)) ->
  translate m (reverse s) = inr t -> translate m (reverse t) = inr (f <$> s).
Proof.
  intros Hm. rewrite !translate_Forall2. intros H.
  apply Forall2_reverse in H. rewrite reverse_involutive in H.
  apply Forall2_fmap_r. apply Forall2_flip.
  eapply Forall2_impl; [exact H|]. intros x y Hxy. by apply Hm.
Qed.

Lemma ascii_encode s :
  Forall (fun c => 0 <= c < 128) s -> encode s = Some s.
Proof.
  induction 1 as [|c s Hc _ IH]; cbn [encode]; [done|].
  rewrite IH. unfold encode_cp. settle. done.
Qed.

Lemma translate_ext m1 m2 l :
  Forall (fun x => m1 !! x = m2 !! x) l -> translate m1 l = translate m2 l.
Proof.
  induction 1 as [|x l Hx _ IH]; cbn [translate]; [done|].
  by rewrite Hx, IH.
Qed.

(** X1: the byte-level reverse complement undoes itself: whenever
    [rc_byte_seq] returns, applying it to the result returns the original
    sequence. *)
Theorem rc_byte_seq_involutive s t :
  rc_byte_seq s = inr t -> rc_byte_seq t = inr s.
Proof.
  unfold rc_byte_seq. intros H.
  apply (translate_back byte_rc_map id) in H; [|apply byte_rc_map_lookup].
  by rewrite list_fmap_id in H.
Qed.

Lemma rc_byte_seq_involutive_witness :
  rc_byte_seq (ords "cgtnTGCAA") = inr (ords "TTGCAnacg").
Proof.
  apply (rc_byte_seq_involutive (ords "TTGCAnacg")).
  vm_compute. reflexivity.
Defined.

(** X2: [rc_byte_seq] returns exactly on sequences made of the ten bytes
    of "ACGTNnacgt"; any other byte raises KeyError, and no other error is
    possible.  The result has the length of the input. *)
Theorem rc_byte_seq_defined s :
  ((exists t, rc_byte_seq s = inr t)
   <-> Forall (fun b => b ∈ ords "ACGTNnacgt") s)
  /\ (forall t, rc_byte_seq s = inr t -> length t = length s)
  /\ (forall e, rc_byte_seq s = inl e -> e = KeyError).
Proof.
  unfold rc_byte_seq. split; [|split].
  - rewrite translate_defined, Forall_reverse.
    apply Forall_iff. intros b. apply byte_rc_map_dom.
  - intros t Ht%translate_Forall2. apply Forall2_length in Ht.
    by rewrite length_reverse in Ht.
  - intros e. apply translate_error.
Qed.

(** X3: the string version [rc] uses the key order "ACGTNnactg", which
    sends [t] to [c] and [g] to [a].  Applying [rc] to its own result
    returns the original string with [a]/[c] and [g]/[t] exchanged among
    the lower-case letters ([rc_twice]); upper-case letters, [N] and [n]
    come back unchanged. *)
Theorem rc_applied_twice s t :
  rc s = inr t -> rc t = inr (rc_twice <$> s).
Proof.
  unfold rc. apply translate_back. apply rc_map_lookup.
Qed.

Lemma rc_applied_twice_witness :
  rc (ords "cagtA") = inr (rc_twice <$> ords "Tacgt").
Proof.
  apply (rc_applied_twice (ords "Tacgt")). vm_compute. reflexivity.
Defined.

(** X4: on strings over "ACGTNn" the string version [rc] undoes itself. *)
Theorem rc_involutive_upper s t :
  Forall (fun c => c ∈ ords "ACGTNn") s -> rc s = inr t -> rc t = inr s.
Proof.
  unfold rc. intros Hs H.
  apply (translate_back rc_map rc_twice) in H; [|apply rc_map_lookup].
  rewrite H. f_equal.
  transitivity (id <$> s); [|apply list_fmap_id]. apply Forall_fmap_ext.
  eapply Forall_impl; [exact Hs|]. intros c Hc. by apply rc_twice_upper.
Qed.

Lemma rc_involutive_upper_witness :
  rc (ords "nNACGT") = inr (ords "ACGTNn").
Proof.
  apply (rc_involutive_upper (ords "ACGTNn")).
  - repeat constructor; in_list.
  - vm_compute. reflexivity.
Defined.

(** X5: decoding what [string_to_u8] produced gives the string back. *)
Theorem u8_to_string_string_to_u8 s bs :
  string_to_u8 s = inr bs -> u8_to_string bs = inr s.
Proof.
  unfold string_to_u8, u8_to_string.
  destruct (encode s) as [bs'|] eqn:E; [|done]. intros [= <-].
  by rewrite (encode_bytes s bs' E), (decode_encode s bs' E).
Qed.

Lemma u8_to_string_string_to_u8_witness :
  u8_to_string [65; 195; 169; 226; 130; 172; 240; 159; 152; 128]
  = inr [65; 233; 8364; 128512].
Proof.
  apply u8_to_string_string_to_u8. vm_compute. reflexivity.
Defined.

(** X6: encoding what [u8_to_string] decoded gives the bytes back: the
    decoder accepts nothing but the encoder's own output. *)
Theorem string_to_u8_u8_to_string bs s :
  u8_to_string bs = inr s -> string_to_u8 s = inr bs.
Proof.
  unfold string_to_u8, u8_to_string.
  destruct (forallb is_byte bs); [|done].
  destruct (decode bs) as [s'|] eqn:E; [|done]. intros [= <-].
  by rewrite (encode_decode_bounded (length bs) bs s').
Qed.

Lemma string_to_u8_u8_to_string_witness :
  string_to_u8 [65; 233; 8364; 128512]
  = inr [65; 195; 169; 226; 130; 172; 240; 159; 152; 128].
Proof.
  apply string_to_u8_u8_to_string. vm_compute. reflexivity.
Defined.

(** X7: on DNA strings over "ACGTNnac" the two reverse complements agree
    through the conversions: the string is its own byte sequence, both
    functions return the same sequence, and that sequence is again its own
    byte sequence.  (On [t] and [g] they differ.) *)
Theorem rc_agrees_with_rc_byte_seq s :
  Forall (fun c => c ∈ ords "ACGTNnac") s ->
  exists t, rc s = inr t /\ string_to_u8 s = inr s
            /\ rc_byte_seq s = inr t /\ string_to_u8 t = inr t.
Proof.
  intros Hs.
  assert (forall c, c ∈ ords "ACGTNnac" ->
            exists y, rc_map !! c = Some y /\ byte_rc_map !! c = Some y
                      /\ 0 <= c < 128 /\ 0 <= y < 128) as Hkey.
  { intros c. cbn -[lookup]. rewrite !elem_of_cons, elem_of_nil. intros H.
    repeat (destruct H as [->|H];
            [eexists; (split; [vm_compute; reflexivity|]);
             (split; [vm_compute; reflexivity|]); vm_compute; intuition discriminate|]).
    done. }
  destruct (proj2 (translate_defined rc_map (reverse s))) as [t Ht].
  { apply Forall_reverse. eapply Forall_impl; [exact Hs|].
    intros c Hc. destruct (Hkey c Hc) as (y & -> & _). eauto. }
  exists t. unfold rc, rc_byte_seq, string_to_u8. rewrite Ht.
  split; [done|]. split; [|split].
  - rewrite ascii_encode; [done|]. eapply Forall_impl; [exact Hs|].
    intros c Hc. by destruct (Hkey c Hc) as (y & _ & _ & ? & _).
  - rewrite <- Ht. apply translate_ext. apply Forall_reverse.
    eapply Forall_impl; [exact Hs|]. intros c Hc.
    destruct (Hkey c Hc) as (y & -> & -> & _). done.
  - rewrite ascii_encode; [done|].
    apply translate_Forall2 in Ht.
    assert (Forall (fun c => c ∈ ords "ACGTNnac") (reverse s)) as Hr
      by (by apply Forall_reverse).
    clear Hs. revert Hr. induction Ht as [|x y l r Hxy _ IH]; [constructor|].
    intros [Hx Hl]%Forall_cons. constructor; [|by apply IH].
    destruct (Hkey x Hx) as (y' & Hy' & _ & _ & ?). rewrite Hxy in Hy'.
    by injection Hy' as ->.
Qed.

Lemma rc_agrees_with_rc_byte_seq_witness :
  exists t, rc (ords "ACGNnca") = inr t /\ string_to_u8 (ords "ACGNnca") = inr (ords "ACGNnca")
            /\ rc_byte_seq (ords "ACGNnca") = inr t /\ string_to_u8 t = inr t.
Proof.
  apply rc_agrees_with_rc_byte_seq. repeat constructor; in_list.
Defined.

End Bases.

(** ** map_intervals_in_sdb *)

Module Positions.

(** One item of what [seq_index_db.map_positions_in_seq] returns:
    (pos, (sid, tpos, orientation)). *)
Definition hit : Type := Z * (Z * Z * Z).

Definition h_pos (r : hit) : Z := r.1.
Definition h_sid (r : hit) : Z := r.2.1.1.
Definition h_tpos (r : hit) : Z := r.2.1.2.
Definition h_orientation (r : hit) : Z := r.2.2.

(** The body of [for res in pos_map:]. *)
Definition add_hit (m : gmap Z (gmap Z (list (Z * Z)))) (res : hit)
  : gmap Z (gmap Z (list (Z * Z))) :=
  let inner := default ∅ (m !! h_sid res) in
  <[h_sid res :=
      <[h_pos res := default [] (inner !! h_pos res)
                     ++ [(h_tpos res, h_orientation res)]]> inner]> m.

Definition seqid_to_positions (pos_map : list hit)
  : gmap Z (gmap Z (list (Z * Z))) :=
  foldl add_hit ∅ pos_map.

(** The body of [for sid in seqid_to_positions:]: the entry stored for the
    sequence, or none when a [continue] or the failed membership test
    skips it. *)
Definition pick (i0 i1 : Z) (d : gmap Z (list (Z * Z))) : option (Z * Z * Z) :=
  match d !! i0, d !! i1 with
  | Some left_p, Some right_p =>
      match left_p, right_p with
      | [(left_p, left_o)], [(right_p, right_o)] =>
          if left_o =? right_o then Some (left_o, left_p, right_p) else None
      | _, _ => None
      end
  | _, _ => None
  end.

(** From [pos_map] on; [None] is the AssertionError of
    [assert(len(interval) == 2)]. *)
Definition map_intervals_in_sdb (interval : list Z) (pos_map : list hit)
  : option (gmap Z (Z * Z * Z)) :=
  match interval with
  | [i0; i1] => Some (omap (pick i0 i1) (seqid_to_positions pos_map))
  | _ => None
  end.

(** The (tpos, orientation) pairs reported for a position on a sequence,
    in the order of [pos_map]. *)
Definition hits (pos_map : list hit) (sid pos : Z) : list (Z * Z) :=
  omap (fun res : hit =>
          if decide (h_sid res = sid /\ h_pos res = pos)
          then Some (h_tpos res, h_orientation res) else None) pos_map.

Lemma hits_snoc pm res sid pos :
  hits (pm ++ [res]) sid pos
  = hits pm sid pos
    ++ (if decide (h_sid res = sid /\ h_pos res = pos)
        then [(h_tpos res, h_orientation res)] else []).
Proof.
  unfold hits. rewrite omap_app. f_equal. simpl.
  by destruct (decide (h_sid res = sid /\ h_pos res = pos)).
Qed.

(** The nested dictionary holds, for each sequence and position with at
    least one hit, the hits in order. *)
Lemma seqid_to_positions_lookup pm sid pos :
  (seqid_to_positions pm !! sid ≫= fun d => d !! pos)
  = if decide (hits pm sid pos = []) then None else Some (hits pm sid pos).
Proof.
  unfold seqid_to_positions. induction pm as [|res pm IH] using rev_ind.
  - simpl. by rewrite lookup_empty.
  - rewrite foldl_snoc, hits_snoc. unfold add_hit at 1.
    set (m := foldl add_hit ∅ pm) in *.
    destruct (decide (h_sid res = sid /\ h_pos res = pos)) as [[Es Ep]|N].
    + rewrite Es, Ep, lookup_insert_eq. cbn [mbind option_bind].
      rewrite lookup_insert_eq.
      rewrite decide_False by (by destruct (hits pm sid pos)).
      f_equal. f_equal.
      destruct (m !! sid) as [d|]; cbn [mbind option_bind default id] in *.
      * rewrite IH. by destruct (decide (hits pm sid pos = [])) as [->|].
      * rewrite lookup_empty.
        by destruct (decide (hits pm sid pos = [])) as [->|].
    + rewrite app_nil_r, <- IH.
      destruct (decide (h_sid res = sid)) as [Es|Ns].
      * rewrite Es, lookup_insert_eq. cbn [mbind option_bind].
        rewrite lookup_insert_ne by tauto.
        destruct (m !! sid) as [d|]; cbn [mbind option_bind default id]; [done|].
        by rewrite lookup_empty.
      * by rewrite lookup_insert_ne.
Qed.

Lemma seqid_to_positions_Some pm sid pos l :
  (seqid_to_positions pm !! sid ≫= fun d => d !! pos) = Some l
  <-> hits pm sid pos = l /\ l <> [].
Proof.
  rewrite seqid_to_positions_lookup.
  destruct (decide (hits pm sid pos = [])) as [E|N].
  - split; [done|]. intros [<- ?]. done.
  - split; [by intros [= <-]|by intros [-> _]].
Qed.

(** X8: the mapping returned has an entry (orientation, left, right) for a
    sequence exactly when [pos_map] reports one single hit for the left
    end of the interval on that sequence, one single hit for the right
    end, and both hits have the same orientation; the entry then carries
    that orientation and the two target positions. *)
Theorem map_intervals_entry i0 i1 pos_map rtn sid o lp rp :
  map_intervals_in_sdb [i0; i1] pos_map = Some rtn ->
  rtn !! sid = Some (o, lp, rp)
  <-> hits pos_map sid i0 = [(lp, o)] /\ hits pos_map sid i1 = [(rp, o)].
Proof.
  intros [= <-]. rewrite lookup_omap.
  pose proof (seqid_to_positions_Some pos_map sid i0) as H0.
  pose proof (seqid_to_positions_Some pos_map sid i1) as H1.
  assert (forall (x : Z * Z), [x] <> []) as Hne by done.
  destruct (seqid_to_positions pos_map !! sid) as [d|]; simpl in *.
  - unfold pick.
    destruct (d !! i0) as [l0|].
    2:{ split; [done|]. intros [E _].
        assert (None = Some [(lp, o)]) as Hx by (apply H0; split; [exact E|apply Hne]).
        discriminate Hx. }
    destruct (d !! i1) as [l1|].
    2:{ split; [by destruct l0 as [|[??] [|??]]|]. intros [_ E].
        assert (None = Some [(rp, o)]) as Hx by (apply H1; split; [exact E|apply Hne]).
        discriminate Hx. }
    destruct (proj1 (H0 l0) eq_refl) as [E0 _].
    destruct (proj1 (H1 l1) eq_refl) as [E1 _].
    rewrite E0, E1.
    destruct l0 as [|[a ao] [|??]], l1 as [|[b bo] [|??]];
      try (split; [done|by intros [? ?]]).
    destruct (Z.eqb_spec ao bo) as [->|Hno].
    + split; [by intros [= -> -> ->]|by intros [[= -> ->] [= ->]]].
    + split; [done|]. intros [[= -> ->] [= _ E]]. by destruct Hno.
  - split; [done|]. intros [E _].
    assert (None = Some [(lp, o)]) as Hx by (apply H0; split; [exact E|apply Hne]).
    discriminate Hx.
Qed.

Lemma map_intervals_entry_witness :
  let pos_map : list hit :=
    [ (10, (1, 110, 0)); (20, (1, 120, 0)); (10, (2, 510, 1));
      (10, (2, 710, 1)); (20, (2, 520, 1)); (10, (3, 910, 0)) ] in
  ({[ 1 := (0, 110, 120) ]} : gmap Z (Z * Z * Z)) !! 1 = Some (0, 110, 120)
  <-> hits pos_map 1 10 = [(110, 0)] /\ hits pos_map 1 20 = [(120, 0)].
Proof.
  cbv zeta. apply (map_intervals_entry 10 20). vm_compute. reflexivity.
Defined.

End Positions.

(** ** [output_variants_to_vcf_records] *)

Module Vcf.
Import Variants.

(** The dictionaries are read in insertion order here ([for kk in v]
    numbers the entries as it meets them), so they are association lists;
    a list that is a dictionary has no key twice.  [None] stands for the
    KeyError or IndexError of a failed lookup; the function is shown
    below never to raise one.  The locals [gt_set], [gt] and [ht] are
    computed and never used; sorting and transposing [ht], a list of
    pairs of strings, cannot fail, and they are left out. *)

(** [d[k]] *)
Fixpoint dict_get {K V} `{EqDecision K} (d : list (K * V)) (k : K) : option V :=
  match d with
  | [] => None
  | (k', v) :: d' => if decide (k' = k) then Some v else dict_get d' k
  end.

(** [d.setdefault(k, []); d[k].append(x)] *)
Fixpoint dict_append {K V} `{EqDecision K} (k : K) (x : V) (d : list (K * list V))
  : list (K * list V) :=
  match d with
  | [] => [(k, [x])]
  | (k', xs) :: d' =>
      if decide (k' = k) then (k', xs ++ [x]) :: d'
      else (k', xs) :: dict_append k x d'
  end.

(** [v[kk][:3]] *)
Definition first3 (v : variant) : Z * seq * seq :=
  (v_kind v, v_ref_bases v, v_alt_bases v).

(** The ten columns of a record. *)
Record vcf_rec := {
  chrom : string; pos : string; id_ : string; ref : seq; alt : seq;
  qual : string; filter_ : string; info : string; format : string;
  sample : string }.

(** [for kk in v: gt_idx += 1; variants.append((gt_idx, v[kk][:3], ref_id))] *)
Fixpoint variants_of (v : list (Z * Z * variant)) (ref_id gt_idx : Z)
    (kks : list (Z * Z)) : option (list (Z * (Z * seq * seq) * Z)) :=
  match kks with
  | [] => Some []
  | kk :: kks' =>
      let gt_idx := gt_idx + 1 in
      rec ← dict_get v kk;
      rest ← variants_of v ref_id gt_idx kks';
      Some ((gt_idx, first3 rec, ref_id) :: rest)
  end.

(** [for v in variants: count.setdefault(v[0], []); count[v[0]].append(v[1])] *)
Definition count_of (variants : list (Z * (Z * seq * seq) * Z))
  : list (Z * list (Z * seq * seq)) :=
  foldl (fun count x => dict_append x.1.1 x.1.2 count) [] variants.

Definition lt_Z : Z -> Z -> bool := Order.lt_of Z.compare.

(** [for kk in sorted(count.keys()):] with [ref_base = count[kk][0][1]],
    [alt_base = count[kk][0][2]], the [continue] on equal bases and the
    append of the record; the position is ["{}".format(k[1])]. *)
Fixpoint emit (ref_name : string) (k : Z * Z)
    (count : list (Z * list (Z * seq * seq))) (kks : list Z)
  : option (list vcf_rec) :=
  match kks with
  | [] => Some []
  | kk :: kks' =>
      l ← dict_get count kk;
      t ← Py.first_item l;
      rest ← emit ref_name k count kks';
      let ref_base := t.1.2 in
      let alt_base := t.2 in
      if bool_decide (ref_base = alt_base) then Some rest
      else Some ({| chrom := ref_name; pos := pretty k.2; id_ := ".";
                    ref := ref_base; alt := alt_base; qual := "30";
                    filter_ := "."; info := "."; format := "GT:AD";
                    sample := "./1:0,1:" |} :: rest)
  end.

(** The body of [for k in keys:]. *)
Definition key_records (ref_name : string)
    (variant_calls : list (Z * Z * list (Z * Z * variant))) (k : Z * Z)
  : option (list vcf_rec) :=
  v ← dict_get variant_calls k;
  variants ← variants_of v k.1 0 v.*1;
  let count := count_of variants in
  emit ref_name k count (Order.sort lt_Z count.*1).

Fixpoint all_records (ref_name : string)
    (variant_calls : list (Z * Z * list (Z * Z * variant))) (keys : list (Z * Z))
  : option (list vcf_rec) :=
  match keys with
  | [] => Some []
  | k :: keys' =>
      recs ← key_records ref_name variant_calls k;
      rest ← all_records ref_name variant_calls keys';
      Some (recs ++ rest)
  end.

(** [keys = sorted(list(variant_calls.keys()))] and the loop over them. *)
Definition output_variants_to_vcf_records
    (variant_calls : list (Z * Z * list (Z * Z * variant))) (ref_name : string)
  : option (list vcf_rec) :=
  all_records ref_name variant_calls (Order.sort Order.lt_pair variant_calls.*1).


(** *** What the indirection through [variants] and [count] computes *)

Lemma dict_get_app_notin {K V} `{EqDecision K} (pre suf : list (K * V)) k :
  k ∉ pre.*1 -> dict_get (pre ++ suf) k = dict_get suf k.
Proof.
  induction pre as [|[k' v] pre IH]; intros Hk; simpl; [done|].
  rewrite fmap_cons in Hk. apply not_elem_of_cons in Hk as [Hne Hk].
  rewrite decide_False by (simpl in Hne; congruence). by apply IH.
Qed.

Lemma dict_get_here {K V} `{EqDecision K} (pre suf : list (K * V)) k v :
  k ∉ pre.*1 -> dict_get (pre ++ (k, v) :: suf) k = Some v.
Proof.
  intros Hk. rewrite dict_get_app_notin by done. simpl. by rewrite decide_True.
Qed.

Lemma dict_append_fresh {K V} `{EqDecision K} k (x : V) (d : list (K * list V)) :
  k ∉ d.*1 -> dict_append k x d = d ++ [(k, [x])].
Proof.
  induction d as [|[k' xs] d IH]; intros Hk; simpl; [done|].
  rewrite fmap_cons in Hk. apply not_elem_of_cons in Hk as [Hne Hk].
  rewrite decide_False by (simpl in Hne; congruence). by rewrite IH.
Qed.

(** The genotype indices handed out from [g + 1] on. *)
Fixpoint number {T} (g : Z) (ts : list T) : list (Z * T) :=
  match ts with
  | [] => []
  | t :: ts' => (g + 1, t) :: number (g + 1) ts'
  end.

Lemma number_keys_gt {T} (ts : list T) : forall g i,
  i ∈ (number g ts).*1 -> g < i.
Proof.
  induction ts as [|t ts IH]; intros g i; simpl; [by intros ?%elem_of_nil|].
  intros [->|Hi%IH]%elem_of_cons; lia.
Qed.

Lemma number_keys_NoDup {T} (ts : list T) g : NoDup (number g ts).*1.
Proof.
  revert g. induction ts as [|t ts IH]; intros g; simpl; [constructor|].
  constructor; [|apply IH]. intros Hi%number_keys_gt. lia.
Qed.

Lemma number_keys_sorted {T} (ts : list T) g :
  StronglySorted (Order.le lt_Z) (number g ts).*1.
Proof.
  revert g. induction ts as [|t ts IH]; intros g; simpl; [constructor|].
  constructor; [apply IH|]. apply Forall_forall. intros i Hi%number_keys_gt.
  unfold Order.le, lt_Z, Order.lt_of.
  destruct (Z.compare_spec i (g + 1)); try done; lia.
Qed.

Lemma variants_of_number v ref_id suf : forall pre g,
  v = pre ++ suf -> NoDup v.*1 ->
  variants_of v ref_id g suf.*1
  = Some ((fun it : Z * (Z * seq * seq) => (it.1, it.2, ref_id))
          <$> number g (first3 <$> suf.*2)).
Proof.
  induction suf as [|[kk x] suf IH]; intros pre g -> Hnd; [done|].
  cbn [fmap list_fmap fst snd variants_of number].
  rewrite dict_get_here.
  2:{ rewrite fmap_app in Hnd. apply NoDup_app in Hnd as (_ & Hd & _).
      intros Hin. apply (Hd kk Hin). rewrite fmap_cons. by left. }
  cbn [mbind option_bind].
  rewrite (IH (pre ++ [(kk, x)]) (g + 1)); [done| |done].
  by rewrite <- app_assoc.
Qed.

Lemma count_of_number (ts : list (Z * seq * seq)) ref_id : forall g acc,
  (forall i, i ∈ acc.*1 -> i <= g) ->
  foldl (fun count (x : Z * (Z * seq * seq) * Z) => dict_append x.1.1 x.1.2 count)
    acc ((fun it : Z * (Z * seq * seq) => (it.1, it.2, ref_id)) <$> number g ts)
  = acc ++ ((fun it : Z * (Z * seq * seq) => (it.1, [it.2])) <$> number g ts).
Proof.
  induction ts as [|t ts IH]; intros g acc Hacc; simpl; [by rewrite app_nil_r|].
  rewrite dict_append_fresh.
  2:{ intros Hin%Hacc. lia. }
  rewrite IH.
  - by rewrite <- app_assoc.
  - intros i. rewrite fmap_app, elem_of_app. simpl.
    rewrite list_elem_of_singleton. intros [Hin%Hacc| ->]; lia.
Qed.

(** The records of one reference key, read off its entries in order. *)
Definition records_of (ref_name : string) (k : Z * Z)
    (ts : list (Z * seq * seq)) : list vcf_rec :=
  omap (fun t : Z * seq * seq =>
          if bool_decide (t.1.2 = t.2) then None
          else Some {| chrom := ref_name; pos := pretty k.2; id_ := ".";
                       ref := t.1.2; alt := t.2; qual := "30";
                       filter_ := "."; info := "."; format := "GT:AD";
                       sample := "./1:0,1:" |}) ts.

Lemma emit_number ref_name k (suf : list (Z * (Z * seq * seq))) :
  forall (pre : list (Z * (Z * seq * seq))),
  NoDup (pre ++ suf).*1 ->
  emit ref_name k
    ((fun it : Z * (Z * seq * seq) => (it.1, [it.2])) <$> (pre ++ suf)) suf.*1
  = Some (records_of ref_name k suf.*2).
Proof.
  induction suf as [|[i t] suf IH]; intros pre Hnd; [done|].
  cbn [fmap list_fmap fst snd emit].
  rewrite fmap_app, fmap_cons. cbn [fst snd].
  rewrite dict_get_here.
  2:{ rewrite fmap_app in Hnd. apply NoDup_app in Hnd as (_ & Hd & _).
      rewrite <- list_fmap_compose. intros Hin. apply (Hd i).
      - exact Hin.
      - rewrite fmap_cons. by left. }
  cbn [mbind option_bind]. rewrite Py.first_item_cons. cbn [mbind option_bind].
  specialize (IH (pre ++ [(i, t)])). rewrite <- app_assoc in IH.
  cbn [app] in IH. specialize (IH Hnd).
  rewrite fmap_app, fmap_cons in IH. cbn [fst snd] in IH.
  rewrite IH. cbn [mbind option_bind].
  unfold records_of. cbn [omap list_omap fst snd].
  by destruct (bool_decide (t.1.2 = t.2)).
Qed.

Lemma key_records_spec ref_name vc k v :
  dict_get vc k = Some v -> NoDup v.*1 ->
  key_records ref_name vc k = Some (records_of ref_name k (first3 <$> v.*2)).
Proof.
  intros Hv Hnd. unfold key_records. rewrite Hv. cbn [mbind option_bind].
  rewrite (variants_of_number v k.1 v [] 0 eq_refl Hnd). cbn [mbind option_bind].
  unfold count_of. rewrite (count_of_number _ _ 0 []).
  2:{ intros i Hi. by apply elem_of_nil in Hi. }
  cbn [app].
  set (nts := number 0 (first3 <$> v.*2)).
  assert (((fun it : Z * (Z * seq * seq) => (it.1, [it.2])) <$> nts).*1 = nts.*1) as Hk.
  { rewrite <- list_fmap_compose. by apply list_fmap_ext. }
  rewrite Hk, (Order.sort_id lt_Z) by apply number_keys_sorted.
  pose proof (emit_number ref_name k nts [] (number_keys_NoDup _ _)) as He.
  cbn [app] in He. rewrite He.
  f_equal. f_equal. unfold nts. generalize (first3 <$> v.*2) 0.
  induction l as [|t l IH]; intros g; simpl; [done|]. by rewrite IH.
Qed.

Lemma dict_get_elem {K V} `{EqDecision K} (d : list (K * V)) k v :
  NoDup d.*1 -> (k, v) ∈ d -> dict_get d k = Some v.
Proof.
  induction d as [|[k' v'] d IH]; intros Hnd Hin; [by apply elem_of_nil in Hin|].
  rewrite fmap_cons in Hnd. apply NoDup_cons in Hnd as [Hk Hnd]. simpl.
  apply elem_of_cons in Hin as [[= -> ->]|Hin].
  - by rewrite decide_True.
  - rewrite decide_False; [by apply IH|].
    intros ->. apply Hk. apply list_elem_of_fmap. by exists (k, v).
Qed.

Lemma all_records_spec ref_name vc (l : list (Z * Z * list (Z * Z * variant))) :
  Forall (fun kv => dict_get vc kv.1 = Some kv.2 /\ NoDup kv.2.*1) l ->
  all_records ref_name vc l.*1
  = Some (l ≫= fun kv => records_of ref_name kv.1 (first3 <$> kv.2.*2)).
Proof.
  induction 1 as [|[k v] l [Hk Hv] _ IH]; [done|].
  cbn [fmap list_fmap fst all_records] in *.
  rewrite (key_records_spec _ _ _ _ Hk Hv). cbn [mbind option_bind].
  change (list_fmap _ _ fst l) with (l.*1). by rewrite IH.
Qed.

Lemma emit_differ ref_name k count kks : forall recs r,
  emit ref_name k count kks = Some recs -> r ∈ recs -> ref r <> alt r.
Proof.
  induction kks as [|kk kks IH]; intros recs r; simpl.
  - intros [= <-] Hr. by apply elem_of_nil in Hr.
  - destruct (dict_get count kk) as [l|]; [|done]. cbn [mbind option_bind].
    destruct (Py.first_item l) as [t|]; [|done]. cbn [mbind option_bind].
    destruct (emit ref_name k count kks) as [rest|]; [|done].
    cbn [mbind option_bind]. case_bool_decide as Hne.
    + intros [= <-]. by apply IH.
    + intros [= <-] [->|Hr]%elem_of_cons; [exact Hne|by eapply IH].
Qed.

Lemma all_records_differ ref_name vc keys : forall recs r,
  all_records ref_name vc keys = Some recs -> r ∈ recs -> ref r <> alt r.
Proof.
  induction keys as [|k keys IH]; intros recs r; simpl.
  - intros [= <-] Hr. by apply elem_of_nil in Hr.
  - destruct (key_records ref_name vc k) as [rs|] eqn:Ek; [|done].
    cbn [mbind option_bind].
    destruct (all_records ref_name vc keys) as [rest|]; [|done].
    cbn [mbind option_bind]. intros [= <-] [Hr|Hr]%elem_of_app; [|by eapply IH].
    unfold key_records in Ek.
    destruct (dict_get vc k) as [v|]; [|done]. cbn [mbind option_bind] in Ek.
    destruct (variants_of v k.1 0 v.*1) as [vs|]; [|done].
    cbn [mbind option_bind] in Ek. by eapply emit_differ.
Qed.

(** The reference keys in the order [sorted] visits them, each with its
    own dictionary. *)
Definition sorted_items (vc : list (Z * Z * list (Z * Z * variant)))
  : list (Z * Z * list (Z * Z * variant)) :=
  Order.sort (fun a b => Order.lt_pair a.1 b.1) vc.

(** X9: on a dictionary of variant calls (no key twice, at either level)
    the function returns, for the reference keys in increasing order and
    under each key for its entries in insertion order, one record per
    entry whose reference and alternative bases differ: the reference name
    given, the key's position printed in decimal, the two base strings and
    the seven constant columns. *)
Theorem vcf_records_of_entries vc ref_name :
  NoDup vc.*1 -> Forall (fun kv => NoDup kv.2.*1) vc ->
  output_variants_to_vcf_records vc ref_name
  = Some (sorted_items vc ≫= fun kv =>
            records_of ref_name kv.1 (first3 <$> kv.2.*2)).
Proof.
  intros Hnd Hin. unfold output_variants_to_vcf_records, sorted_items.
  rewrite <- (Order.sort_map Order.lt_pair fst).
  apply all_records_spec. apply Forall_forall. intros [k v] Hkv.
  rewrite (Order.sort_perm _ vc) in Hkv. split.
  - by apply dict_get_elem.
  - rewrite Forall_forall in Hin. by apply (Hin (k, v)).
Qed.

Definition vc_example : list (Z * Z * list (Z * Z * variant)) :=
  let v a b := {| v_kind := 88; v_ref_bases := str a; v_alt_bases := str b;
                  v_ref := (0, 7, 1); v_tgt := (1, 0, 1); v_strand := 0 |} in
  [ ((0, 7), [((1, 0), v "A" "C")]);
    ((0, 3), [((1, 0), v "A" "T"); ((2, 0), v "G" "G"); ((3, 0), v "A" "C")]) ].

Lemma vcf_records_of_entries_witness :
  (output_variants_to_vcf_records vc_example "chr1"
   = Some (sorted_items vc_example ≫= fun kv =>
             records_of "chr1" kv.1 (first3 <$> kv.2.*2)))
  /\ (pos <$> (sorted_items vc_example ≫= fun kv =>
                records_of "chr1" kv.1 (first3 <$> kv.2.*2)))
     = ["3"; "3"; "7"]%string.
Proof.
  split; [|vm_compute; reflexivity].
  apply (vcf_records_of_entries vc_example "chr1").
  - refine (bool_decide_unpack _ _). vm_compute. exact I.
  - refine (bool_decide_unpack _ _). vm_compute. exact I.
Defined.

(** X10: no record returned has equal reference and alternative bases,
    whatever the input. *)
Theorem vcf_records_differ vc ref_name recs r :
  output_variants_to_vcf_records vc ref_name = Some recs ->
  r ∈ recs -> ref r <> alt r.
Proof. apply all_records_differ. Qed.

Lemma vcf_records_differ_witness :
  exists recs r,
    output_variants_to_vcf_records vc_example "chr1" = Some recs /\
    length recs = 3%nat /\ head recs = Some r /\ ref r <> alt r.
Proof.
  eexists _, _. split; [vm_compute; reflexivity|].
  split; [reflexivity|]. split; [reflexivity|].
  eapply (vcf_records_differ vc_example "chr1"); [vm_compute; reflexivity|].
  left.
Defined.
End Vcf.

(** ** [get_variant_calls]: what is stored, and when it cannot fail *)

Module Calls.
Import Variants.

Section Run.
Variables (ref_bgn ctg_bgn : Z) (rs0 cs0 : seq) (strand : Z).

(** The store a Mismatch segment performs. *)
Definition mismatch_write (s : AlnSegment) : write :=
  let rb := l_bgn (ref_loc s) in
  let tb := l_bgn (tgt_loc s) in
  ((l_id (ref_loc s), rb + ref_bgn + 1),
   (l_id (tgt_loc s), strand),
   {| v_kind := t s;
      v_ref_bases := Py.slice rs0 rb (rb + l_len (ref_loc s));
      v_alt_bases := Py.slice cs0 tb (tb + l_len (tgt_loc s));
      v_ref := (l_id (ref_loc s), rb + ref_bgn + 1, l_len (ref_loc s));
      v_tgt := (l_id (tgt_loc s), ctg_bgn + tb, l_len (tgt_loc s));
      v_strand := strand |}).

Definition mismatch_writes (segs : list AlnSegment) : list write :=
  mismatch_write <$> filter (fun s => t s = ord_X) segs.

(** A Deletion segment that lies inside the two sequences. *)
Definition deletion_in_range (s : AlnSegment) : Prop :=
  t s = ord_D
  /\ 0 <= l_len (ref_loc s)
  /\ l_bgn (ref_loc s) + l_len (ref_loc s) <= Z.of_nat (length rs0)
  /\ l_bgn (tgt_loc s) <= Z.of_nat (length cs0).

(** A stored record repeats the keys it is stored under. *)
Definition names_keys (w : write) : Prop :=
  let '(key, ik, v) := w in
  (v_ref v).1 = key /\ (v_tgt v).1.1 = ik.1 /\ v_strand v = ik.2
  /\ ik.2 = strand.

Lemma bind_ok {A B} (m : M A) (f : A -> M B) l a :
  m = (l, inr a) -> bind m f = (l ++ (f a).1, (f a).2).
Proof. intros ->. unfold bind. by destruct (f a). Qed.

Lemma bind_ret {A B} (a : A) (f : A -> M B) : bind (ret a) f = f a.
Proof. unfold bind, ret. by destruct (f a). Qed.

Lemma rd_ok which (s : seq) i :
  - Z.of_nat (length s) <= i < Z.of_nat (length s) ->
  exists c, rd which s i = ([(which, i)], inr c).
Proof.
  intros H. apply Py.index_is_Some in H as [c Hc]. exists c.
  unfold rd. by rewrite Hc.
Qed.

(** *** Mismatch segments *)

Lemma seg_step_X loc s :
  t s = ord_X ->
  seg_step ref_bgn ctg_bgn rs0 cs0 strand loc s
  = ret (Some ((mismatch_write s).1.1, v_ref_bases (mismatch_write s).2,
               v_alt_bases (mismatch_write s).2),
         Some (mismatch_write s)).
Proof.
  intros E. unfold seg_step, branch_X, branch_I, branch_D.
  unfold mismatch_write. rewrite E.
  change (ord_X =? ord_M) with false. change (ord_X =? ord_X) with true.
  change (ord_X =? ord_I) with false. change (ord_X =? ord_D) with false.
  cbn [negb]. by rewrite !bind_ret.
Qed.

Lemma run_mismatch segs : forall loc vc,
  Forall (fun s => t s = ord_M \/ t s = ord_X) segs ->
  run ref_bgn ctg_bgn rs0 cs0 strand loc vc segs
  = ret (foldl store_call vc (mismatch_writes segs)).
Proof.
  induction segs as [|s segs IH]; intros loc vc Hs; [done|].
  apply Forall_cons in Hs as [Hk Hs]. cbn [run]. unfold mismatch_writes.
  rewrite filter_cons. destruct Hk as [E|E].
  - rewrite (match_segment_skipped _ _ _ _ _ _ _ E), bind_ret. cbn [fst snd store_opt].
    rewrite decide_False by (rewrite E; done). by apply IH.
  - rewrite (seg_step_X _ _ E), bind_ret. cbn [fst snd store_opt].
    rewrite decide_True by done. rewrite fmap_cons. cbn [foldl]. by apply IH.
Qed.

(** *** Deletion segments *)

Lemma del_loop_safe fuel rlen : forall p0 p1,
  (Z.to_nat p0 < fuel)%nat -> 0 <= rlen ->
  p0 + rlen <= Z.of_nat (length rs0) -> p1 <= Z.of_nat (length cs0) ->
  exists log q,
    del_loop rs0 cs0 fuel rlen p0 p1 = (log, inr q)
    /\ Forall (fun r : read => -1 <= r.2) log
    /\ q.1 <= p0 /\ (0 <= p0 -> 0 <= q.1).
Proof.
  induction fuel as [|fuel IH]; intros p0 p1 Hf Hl Hr Hc; [lia|].
  cbn [del_loop].
  destruct (Z.ltb_spec 0 p0); cbn [andb];
    [|exists [], (p0, p1); repeat split; [constructor|simpl; lia|done]].
  destruct (Z.ltb_spec 0 p1);
    [|exists [], (p0, p1); repeat split; [constructor|simpl; lia|done]].
  destruct (rd_ok RefSeq rs0 (p0 + rlen - 1)) as [a Ha]; [lia|].
  destruct (rd_ok CtgSeq cs0 (p1 - 1)) as [b Hb]; [lia|].
  destruct (rd_ok RefSeq rs0 (p0 - 2)) as [c Hcc]; [lia|].
  destruct (rd_ok CtgSeq cs0 (p1 - 2)) as [d Hd]; [lia|].
  destruct (IH (p0 - 1) (p1 - 1)) as (log & q & Hq & Hlog & Hq0 & Hq1);
    [lia..|].
  rewrite (bind_ok _ _ _ _ Ha). cbn beta. rewrite (bind_ok _ _ _ _ Hb). cbn beta.
  destruct (Ascii.eqb a b).
  2:{ eexists _, (p0, p1). split; [reflexivity|]. cbn [fst snd ret app].
      split; [|lia]. repeat constructor; simpl; lia. }
  rewrite (bind_ok _ _ _ _ Hcc). cbn beta. rewrite (bind_ok _ _ _ _ Hd). cbn beta.
  destruct (Ascii.eqb c d).
  2:{ eexists _, (p0, p1). split; [reflexivity|]. cbn [fst snd ret app].
      split; [|lia]. repeat constructor; simpl; lia. }
  rewrite Hq. eexists _, q. split; [reflexivity|]. cbn [fst snd app].
  split; [|lia]. repeat (constructor; [simpl; lia|]). done.
Qed.

Lemma seg_step_D loc s :
  deletion_in_range s ->
  exists log key rb ab v,
    seg_step ref_bgn ctg_bgn rs0 cs0 strand loc s
    = (log, inr (Some (key, rb, ab), Some (key, (l_id (tgt_loc s), strand), v)))
    /\ Forall (fun r : read => -1 <= r.2) log
    /\ names_keys (key, (l_id (tgt_loc s), strand), v)
    /\ key.2 <= l_bgn (ref_loc s) + ref_bgn
    /\ (0 <= l_bgn (ref_loc s) -> ref_bgn <= key.2).
Proof.
  intros (E & Hl & Hr & Hc). unfold seg_step, branch_X, branch_I, branch_D.
  rewrite E.
  change (ord_D =? ord_M) with false. change (ord_D =? ord_X) with false.
  change (ord_D =? ord_I) with false. change (ord_D =? ord_D) with true.
  cbn [negb]. rewrite !bind_ret.
  destruct (del_loop_safe (del_fuel (l_bgn (ref_loc s))) (l_len (ref_loc s))
              (l_bgn (ref_loc s)) (l_bgn (tgt_loc s)))
    as (log & [q0 q1] & Hq & Hlog & Hq0 & Hq1); [unfold del_fuel; lia|done..|].
  rewrite (bind_ok _ _ _ _ Hq). cbn beta iota. unfold bind, ret.
  cbn [fst snd] in *. do 5 eexists. split; [reflexivity|].
  rewrite !app_nil_r. split; [done|]. split; [done|]. cbn [fst snd]. lia.
Qed.

(** *** Every store names its keys *)

Lemma seg_step_names loc s log loc' w :
  seg_step ref_bgn ctg_bgn rs0 cs0 strand loc s = (log, inr (loc', Some w)) ->
  names_keys w.
Proof.
  unfold seg_step. destruct (negb (t s =? ord_M)); [|by intros [= _ _]].
  intros H.
  apply bind_inr in H as (l1 & a1 & l1' & _ & H & _).
  apply bind_inr in H as (l2 & a2 & l2' & _ & H & _).
  apply bind_inr in H as (l3 & a3 & l3' & _ & H & _).
  destruct a3 as [[[key rb] ab]|]; [|discriminate H].
  unfold ret in H. injection H as _ _ <-. destruct key. by repeat split.
Qed.

Lemma run_writes_names segs : forall loc log ws,
  run_writes ref_bgn ctg_bgn rs0 cs0 strand loc segs = (log, inr ws) ->
  Forall names_keys ws.
Proof.
  induction segs as [|s segs IH]; intros loc log ws H; cbn [run_writes] in H.
  - unfold ret in H. injection H as _ <-. constructor.
  - apply bind_inr in H as (l1 & [loc1 w] & l1' & Hs & H & _).
    apply bind_inr in H as (l2 & ws' & l2' & Hr & H & _).
    unfold ret in H. injection H as _ <-. apply IH in Hr.
    destruct w as [w|]; [|done]. constructor; [|done].
    by eapply seg_step_names.
Qed.

(** *** The keys of the result *)

Lemma store_call_keys vc w key :
  is_Some (store_call vc w !! key) -> is_Some (vc !! key) \/ w.1.1 = key.
Proof.
  destruct w as [[k ik] v]. unfold store_call. simpl.
  destruct (decide (k = key)) as [->|Hne]; [by right|].
  rewrite lookup_insert_ne by done. by left.
Qed.

Lemma foldl_store_call_keys ws : forall vc key,
  is_Some (foldl store_call vc ws !! key) ->
  is_Some (vc !! key) \/ exists w, w ∈ ws /\ w.1.1 = key.
Proof.
  induction ws as [|w ws IH]; intros vc key H; [by left|].
  cbn [foldl] in H. apply IH in H as [H|(w' & Hin & E)].
  - apply store_call_keys in H as [H|E]; [by left|].
    right. exists w. split; [by left|done].
  - right. exists w'. split; [by right|done].
Qed.

(** The reference segment a store comes from, with the position it is
    filed under: one past the segment's begin for a Mismatch, at most the
    segment's begin for a Deletion that was shifted to the left. *)
Definition filed_under (s : AlnSegment) (w : write) : Prop :=
  w.1.1.1 = l_id (ref_loc s)
  /\ ref_bgn <= w.1.1.2 <= l_bgn (ref_loc s) + ref_bgn + 1.

Lemma run_in_range segs : forall loc vc,
  Forall (fun s => 0 <= l_bgn (ref_loc s)
                   /\ (t s = ord_M \/ t s = ord_X \/ deletion_in_range s)) segs ->
  exists log ws,
    run ref_bgn ctg_bgn rs0 cs0 strand loc vc segs
    = (log, inr (foldl store_call vc ws))
    /\ Forall (fun r : read => -1 <= r.2) log
    /\ Forall (fun w => exists s, s ∈ segs /\ filed_under s w) ws.
Proof.
  induction segs as [|s segs IH]; intros loc vc Hs.
  - exists [], []. repeat split; constructor.
  - apply Forall_cons in Hs as [[H0 Hk] Hs]. cbn [run].
    assert (forall ws, Forall (fun w => exists s', s' ∈ segs /\ filed_under s' w) ws ->
              Forall (fun w => exists s', s' ∈ s :: segs /\ filed_under s' w) ws)
      as Hmono.
    { intros ws Hws. eapply Forall_impl; [exact Hws|].
      intros w (s' & Hin & Hf). exists s'. split; [by right|done]. }
    destruct Hk as [E|[E|HD]].
    + rewrite (match_segment_skipped _ _ _ _ _ _ _ E), bind_ret.
      cbn [fst snd store_opt].
      destruct (IH loc vc Hs) as (log & ws & -> & Hlog & Hws).
      exists log, ws. split; [done|]. split; [done|]. by apply Hmono.
    + rewrite (seg_step_X _ _ E), bind_ret. cbn [fst snd store_opt].
      edestruct IH as (log & ws & -> & Hlog & Hws); [exact Hs|].
      exists log, (mismatch_write s :: ws). split; [done|]. split; [done|].
      constructor; [|by apply Hmono].
      exists s. split; [by left|]. unfold filed_under, mismatch_write. simpl. lia.
    + destruct (seg_step_D loc s HD)
        as (l1 & key & rb & ab & v & Hstep & Hl1 & _ & Hle & Hge).
      rewrite (bind_ok _ _ _ _ Hstep). cbn [fst snd store_opt].
      edestruct IH as (log & ws & -> & Hlog & Hws); [exact Hs|].
      cbn [fst snd].
      exists (l1 ++ log), ((key, (l_id (tgt_loc s), strand), v) :: ws).
      split; [done|]. split; [by apply Forall_app|].
      constructor; [|by apply Hmono].
      exists s. split; [by left|]. unfold filed_under. simpl.
      split; [|lia].
      unfold seg_step, branch_X, branch_I, branch_D in Hstep.
      destruct HD as (E & _). rewrite E in Hstep.
      change (ord_D =? ord_M) with false in Hstep.
      change (ord_D =? ord_X) with false in Hstep.
      change (ord_D =? ord_I) with false in Hstep.
      change (ord_D =? ord_D) with true in Hstep.
      cbn [negb] in Hstep. rewrite !bind_ret in Hstep.
      apply bind_inr in Hstep as (l2 & a2 & l2' & Hb & Hstep & _).
      apply bind_inr in Hb as (l3 & [q0 q1] & l3' & _ & Hb & _).
      unfold ret in Hb. injection Hb as _ <-.
      unfold ret in Hstep. by injection Hstep as _ <- _ _ _.
Qed.

(** X11: an alignment made of Match and Mismatch segments only never
    raises and evaluates no single-character subscript; the mapping
    returned is the result of storing, in the order of the segments, one
    record per Mismatch segment: under the reference id and the 1-based
    position [ref_loc begin + ref_bgn + 1], with the two slices of the
    sequences as reference and alternative bases. *)
Theorem mismatch_only_calls segs :
  Forall (fun s => t s = ord_M \/ t s = ord_X) segs ->
  get_variant_calls ref_bgn ctg_bgn rs0 cs0 strand segs
  = ([], inr (foldl store_call ∅ (mismatch_writes segs))).
Proof. apply run_mismatch. Qed.

(** X12: an alignment made of Match segments, Mismatch segments and
    Deletion segments that lie inside the two sequences never raises.
    The left shift of a Deletion reads no index below -1 (which Python
    wraps to the last character), and every key of the mapping returned
    carries the reference id of one of the segments and a position
    between [ref_bgn] and that segment's begin plus [ref_bgn + 1]. *)
Theorem in_range_deletions_return segs :
  Forall (fun s => 0 <= l_bgn (ref_loc s)
                   /\ (t s = ord_M \/ t s = ord_X \/ deletion_in_range s)) segs ->
  exists log vc,
    get_variant_calls ref_bgn ctg_bgn rs0 cs0 strand segs = (log, inr vc)
    /\ Forall (fun r : read => -1 <= r.2) log
    /\ forall key, is_Some (vc !! key) ->
         exists s, s ∈ segs /\ key.1 = l_id (ref_loc s)
                   /\ ref_bgn <= key.2 <= l_bgn (ref_loc s) + ref_bgn + 1.
Proof.
  intros Hs. destruct (run_in_range segs None ∅ Hs) as (log & ws & Hr & Hlog & Hws).
  exists log, (foldl store_call ∅ ws). split; [exact Hr|]. split; [done|].
  intros key [H|(w & Hin & <-)]%foldl_store_call_keys.
  - rewrite lookup_empty in H. by destruct H.
  - rewrite Forall_forall in Hws. destruct (Hws w Hin) as (s & Hs' & Hid & Hpos).
    by exists s.
Qed.

(** X13: whatever the segments, every record of a mapping returned
    repeats the keys it is filed under: its fourth field starts with the
    outer key (reference id, position), its fifth field starts with the
    target id of the inner key, and its strand is the inner key's strand,
    which is the [strand] argument. *)
Theorem records_name_their_keys segs log vc key ik v :
  get_variant_calls ref_bgn ctg_bgn rs0 cs0 strand segs = (log, inr vc) ->
  lookup2 vc key ik = Some v ->
  (v_ref v).1 = key /\ (v_tgt v).1.1 = ik.1 /\ v_strand v = ik.2
  /\ ik.2 = strand.
Proof.
  intros H Hl. apply run_as_writes in H as (ws & Hws & ->).
  apply run_writes_names in Hws. apply lookup2_foldl in Hl as [Hl|[_ Hl]].
  - destruct Hl as (ws1 & ws2 & -> & _).
    apply Forall_app in Hws as [_ Hws]. apply Forall_cons in Hws as [Hw _].
    exact Hw.
  - unfold lookup2 in Hl. by rewrite lookup_empty in Hl.
Qed.

End Run.

(** *** The left shift describes the same sequence *)

(** [s] without the [len] characters from position [p] on. *)
Definition del_at (s : seq) (p len : Z) : seq :=
  take (Z.to_nat p) s ++ drop (Z.to_nat (p + len)) s.

(** The [len] characters of [s] from position [p] on. *)
Definition sub (s : seq) (p len : Z) : seq :=
  take (Z.to_nat len) (drop (Z.to_nat p) s).

(** [s] with [ins] put in before position [p]. *)
Definition ins_at (s : seq) (p : Z) (ins : seq) : seq :=
  take (Z.to_nat p) s ++ ins ++ drop (Z.to_nat p) s.

Lemma del_at_shift (s : seq) p len c :
  1 <= p -> 0 <= len ->
  Py.index s (p - 1) = Some c -> Py.index s (p + len - 1) = Some c ->
  del_at s (p - 1) len = del_at s p len.
Proof.
  intros Hp Hl H1 H2. rewrite Py.index_nonneg in H1, H2 by lia.
  unfold del_at.
  replace (Z.to_nat p) with (S (Z.to_nat (p - 1))) by lia.
  rewrite (take_S_r _ _ _ H1).
  replace (Z.to_nat (p - 1 + len)) with (Z.to_nat (p + len - 1)) by lia.
  rewrite (drop_S _ _ _ H2).
  replace (S (Z.to_nat (p + len - 1))) with (Z.to_nat (p + len)) by lia.
  by rewrite <- app_assoc.
Qed.

Lemma sub_shift (s : seq) q len c :
  1 <= q -> 0 <= len ->
  Py.index s (q - 1) = Some c -> Py.index s (q + len - 1) = Some c ->
  sub s (q - 1) len ++ [c] = c :: sub s q len.
Proof.
  intros Hq Hl H1 H2. rewrite Py.index_nonneg in H1, H2 by lia.
  unfold sub. rewrite (drop_S _ _ _ H1).
  replace (S (Z.to_nat (q - 1))) with (Z.to_nat q) by lia.
  destruct (Z.to_nat len) as [|k] eqn:Ek; [done|].
  cbn [take app]. f_equal. symmetry. apply take_S_r.
  rewrite lookup_drop. rewrite <- H2. f_equal. lia.
Qed.

Lemma ins_at_shift (s u : seq) p q len c :
  1 <= p -> 1 <= q -> 0 <= len ->
  Py.index s (p - 1) = Some c ->
  Py.index u (q - 1) = Some c -> Py.index u (q + len - 1) = Some c ->
  ins_at s (p - 1) (sub u (q - 1) len) = ins_at s p (sub u q len).
Proof.
  intros Hp Hq Hl H1 H2 H3. unfold ins_at.
  pose proof (sub_shift u q len c Hq Hl H2 H3) as Hs.
  rewrite Py.index_nonneg in H1 by lia.
  rewrite (drop_S _ _ _ H1).
  replace (S (Z.to_nat (p - 1))) with (Z.to_nat p) by lia.
  replace (take (Z.to_nat p) s) with (take (Z.to_nat (p - 1)) s ++ [c]).
  2:{ replace (Z.to_nat p) with (S (Z.to_nat (p - 1))) by lia.
      symmetry. by apply take_S_r. }
  rewrite <- !app_assoc. f_equal.
  change (sub u (q - 1) len ++ c :: drop (Z.to_nat p) s)
    with (sub u (q - 1) len ++ [c] ++ drop (Z.to_nat p) s).
  by rewrite app_assoc, Hs.
Qed.

Lemma slice_head (s : seq) a b :
  0 <= a < Z.of_nat (length s) -> a < b ->
  head (Py.slice s a b) = Py.index s a.
Proof.
  intros Ha Hb. rewrite Py.index_nonneg by lia. unfold Py.slice, Py.clamp.
  destruct (Z.ltb_spec a 0); [lia|]. destruct (Z.ltb_spec b 0); [lia|].
  rewrite (Z.min_l a) by lia.
  destruct (lookup_lt_is_Some_2 s (Z.to_nat a)) as [c Hc]; [lia|].
  rewrite (drop_S _ _ _ Hc), Hc.
  destruct (Z.to_nat (Z.min b (Z.of_nat (length s)) - a)) as [|k] eqn:Ek; [lia|].
  done.
Qed.

Section Shift.
Variables (ref_bgn ctg_bgn : Z) (rs0 cs0 : seq) (strand : Z).

Lemma rd_at which (s : seq) i c :
  Py.index s i = Some c -> rd which s i = ([(which, i)], inr c).
Proof. intros H. unfold rd. by rewrite H. Qed.

(** The base before the indel is the same in both sequences. *)
Definition anchored (p0 p1 : Z) : Prop :=
  Py.index rs0 (p0 - 1) = Py.index cs0 (p1 - 1).

Lemma del_loop_shift fuel rlen : forall p0 p1,
  (Z.to_nat p0 < fuel)%nat -> 0 <= rlen ->
  p0 + rlen <= Z.of_nat (length rs0) -> p1 <= Z.of_nat (length cs0) ->
  (1 <= p0 -> 1 <= p1 -> anchored p0 p1) ->
  exists log q,
    del_loop rs0 cs0 fuel rlen p0 p1 = (log, inr q)
    /\ del_at rs0 q.1 rlen = del_at rs0 p0 rlen
    /\ p0 - q.1 = p1 - q.2 /\ q.1 <= p0
    /\ (1 <= q.1 -> 1 <= q.2 -> anchored q.1 q.2).
Proof.
  induction fuel as [|fuel IH]; intros p0 p1 Hf Hl Hr Hc Hanc; [lia|].
  cbn [del_loop].
  destruct (Z.ltb_spec 0 p0); cbn [andb];
    [|exists [], (p0, p1); cbn [fst snd]; repeat split; try done; lia].
  destruct (Z.ltb_spec 0 p1);
    [|exists [], (p0, p1); cbn [fst snd]; repeat split; try done; lia].
  destruct (proj2 (Py.index_is_Some rs0 (p0 + rlen - 1))) as [a Ha]; [lia|].
  destruct (proj2 (Py.index_is_Some cs0 (p1 - 1))) as [b Hb]; [lia|].
  destruct (proj2 (Py.index_is_Some rs0 (p0 - 2))) as [c Hcc]; [lia|].
  destruct (proj2 (Py.index_is_Some cs0 (p1 - 2))) as [d Hd]; [lia|].
  rewrite (bind_ok _ _ _ _ (rd_at RefSeq _ _ _ Ha)). cbn beta.
  rewrite (bind_ok _ _ _ _ (rd_at CtgSeq _ _ _ Hb)). cbn beta.
  destruct (Ascii.eqb a b) eqn:Eab.
  2:{ eexists _, (p0, p1). split; [reflexivity|]. cbn [fst snd].
      repeat split; try done; try lia. }
  rewrite (bind_ok _ _ _ _ (rd_at RefSeq _ _ _ Hcc)). cbn beta.
  rewrite (bind_ok _ _ _ _ (rd_at CtgSeq _ _ _ Hd)). cbn beta.
  destruct (Ascii.eqb c d) eqn:Ecd.
  2:{ eexists _, (p0, p1). split; [reflexivity|]. cbn [fst snd].
      repeat split; try done; try lia. }
  apply Ascii.eqb_eq in Eab as ->. apply Ascii.eqb_eq in Ecd as ->.
  destruct (IH (p0 - 1) (p1 - 1)) as (log & q & Hq & Hdel & Hd01 & Hle & Hq');
    [lia..| |].
  { intros _ _. unfold anchored.
    replace (p0 - 1 - 1) with (p0 - 2) by lia.
    replace (p1 - 1 - 1) with (p1 - 2) by lia. by rewrite Hcc, Hd. }
  rewrite Hq. eexists _, q. split; [reflexivity|].
  split; [|split; [lia|split; [lia|done]]].
  rewrite Hdel. apply (del_at_shift rs0 p0 rlen b); [lia|done| |done].
  unfold anchored in Hanc. rewrite Hanc by lia. done.
Qed.

Lemma ins_loop_shift fuel tlen : forall p0 p1 log q,
  ins_loop rs0 cs0 fuel tlen p0 p1 = (log, inr q) ->
  0 <= tlen -> 1 <= q.1 -> 1 <= q.2 -> anchored p0 p1 ->
  ins_at rs0 q.1 (sub cs0 q.2 tlen) = ins_at rs0 p0 (sub cs0 p1 tlen)
  /\ p0 - q.1 = p1 - q.2 /\ q.1 <= p0 /\ anchored q.1 q.2.
Proof.
  induction fuel as [|fuel IH]; intros p0 p1 log q H Hl Hq0 Hq1 Hanc;
    [discriminate H|].
  cbn [ins_loop] in H.
  apply bind_inr in H as (l1 & a & l1' & Ha & H & _).
  apply bind_inr in H as (l2 & b & l2' & Hb & H & _).
  apply rd_inr in Ha as [Ha _]. apply rd_inr in Hb as [Hb _].
  destruct (Ascii.eqb a b) eqn:Eab.
  2:{ unfold ret in H. injection H as _ <-. cbn [fst snd]. repeat split; try done; lia. }
  apply bind_inr in H as (l3 & c & l3' & Hcc & H & _).
  apply bind_inr in H as (l4 & d & l4' & Hd & H & _).
  apply rd_inr in Hcc as [Hcc _]. apply rd_inr in Hd as [Hd _].
  destruct (Ascii.eqb c d) eqn:Ecd.
  2:{ unfold ret in H. injection H as _ <-. cbn [fst snd]. repeat split; try done; lia. }
  apply Ascii.eqb_eq in Eab as ->. apply Ascii.eqb_eq in Ecd as ->.
  apply IH in H as (Hins & Hd01 & Hle & Hq'); try done.
  2:{ unfold anchored.
      replace (p0 - 1 - 1) with (p0 - 2) by lia.
      replace (p1 - 1 - 1) with (p1 - 2) by lia. by rewrite Hcc, Hd. }
  split; [|split; [lia|split; [lia|done]]].
  rewrite Hins. apply (ins_at_shift rs0 cs0 p0 p1 tlen b); try done; try lia.
  unfold anchored in Hanc. by rewrite <- Hanc.
Qed.

(** What the loop body does with the positions a shift loop returned. *)
Lemma seg_step_D_eq loc s log q :
  t s = ord_D ->
  del_loop rs0 cs0 (del_fuel (l_bgn (ref_loc s))) (l_len (ref_loc s))
    (l_bgn (ref_loc s)) (l_bgn (tgt_loc s)) = (log, inr q) ->
  exists v,
    seg_step ref_bgn ctg_bgn rs0 cs0 strand loc s
    = (log, inr (Some ((l_id (ref_loc s), q.1 + ref_bgn),
                       v_ref_bases v, v_alt_bases v),
                 Some ((l_id (ref_loc s), q.1 + ref_bgn),
                       (l_id (tgt_loc s), strand), v)))
    /\ v_ref_bases v = Py.slice rs0 (q.1 - 1) (q.1 + l_len (ref_loc s))
    /\ v_alt_bases v = Py.slice cs0 (q.2 - 1) (q.2 + l_len (tgt_loc s)).
Proof.
  intros E Hq. unfold seg_step, branch_X, branch_I, branch_D. rewrite E.
  change (ord_D =? ord_M) with false. change (ord_D =? ord_X) with false.
  change (ord_D =? ord_I) with false. change (ord_D =? ord_D) with true.
  cbn [negb]. rewrite !bind_ret. destruct q as [q0 q1].
  rewrite (bind_ok _ _ _ _ Hq). cbn beta iota. unfold bind, ret.
  cbn [fst snd]. rewrite !app_nil_r.
  exists {| v_kind := ord_D;
            v_ref_bases := Py.slice rs0 (q0 - 1) (q0 + l_len (ref_loc s));
            v_alt_bases := Py.slice cs0 (q1 - 1) (q1 + l_len (tgt_loc s));
            v_ref := (l_id (ref_loc s), q0 + ref_bgn, l_len (ref_loc s));
            v_tgt := (l_id (tgt_loc s), ctg_bgn + l_bgn (tgt_loc s),
                      l_len (tgt_loc s));
            v_strand := strand |}.
  done.
Qed.

Lemma seg_step_I_inv loc s log loc' w :
  t s = ord_I ->
  seg_step ref_bgn ctg_bgn rs0 cs0 strand loc s = (log, inr (loc', Some w)) ->
  exists q,
    ins_loop rs0 cs0 (ins_fuel rs0 (l_bgn (ref_loc s))) (l_len (tgt_loc s))
      (l_bgn (ref_loc s)) (l_bgn (tgt_loc s)) = (log, inr q)
    /\ w.1.1 = (l_id (ref_loc s), q.1 + ref_bgn)
    /\ v_ref_bases w.2 = Py.slice rs0 (q.1 - 1) (q.1 + l_len (ref_loc s))
    /\ v_alt_bases w.2 = Py.slice cs0 (q.2 - 1) (q.2 + l_len (tgt_loc s)).
Proof.
  intros E H. unfold seg_step, branch_X, branch_I, branch_D in H. rewrite E in H.
  change (ord_I =? ord_M) with false in H. change (ord_I =? ord_X) with false in H.
  change (ord_I =? ord_I) with true in H. change (ord_I =? ord_D) with false in H.
  cbn [negb] in H. rewrite !bind_ret in H.
  apply bind_inr in H as (l1 & a1 & l1' & Hb & H & ->).
  apply bind_inr in Hb as (l2 & [q0 q1] & l2' & Hq & Hb & ->).
  unfold ret in Hb. injection Hb as <- <-.
  rewrite bind_ret in H. unfold ret in H. injection H as <- _ <-.
  exists (q0, q1). rewrite !app_nil_r. done.
Qed.

(** X25: for a Deletion segment that lies inside the two sequences and
    is preceded by a base on which the sequences agree, the loop body
    never raises, and the position it files the record under describes
    the same edit as the segment: removing the segment's length from the
    reference at the shifted position gives the same sequence as removing
    it at the segment's begin.  The position is never right of the
    segment's begin, and as long as the shift stops right of position 0
    in both sequences, the reference and alternative bases of the record
    start with the same base. *)
Theorem deletion_shift_keeps_sequence loc s :
  t s = ord_D -> 0 <= l_len (ref_loc s) -> 0 <= l_len (tgt_loc s) ->
  l_bgn (ref_loc s) + l_len (ref_loc s) <= Z.of_nat (length rs0) ->
  l_bgn (tgt_loc s) <= Z.of_nat (length cs0) ->
  (1 <= l_bgn (ref_loc s) -> 1 <= l_bgn (tgt_loc s) ->
   anchored (l_bgn (ref_loc s)) (l_bgn (tgt_loc s))) ->
  exists log loc' key ik v,
    seg_step ref_bgn ctg_bgn rs0 cs0 strand loc s
    = (log, inr (loc', Some (key, ik, v)))
    /\ key.2 - ref_bgn <= l_bgn (ref_loc s)
    /\ del_at rs0 (key.2 - ref_bgn) (l_len (ref_loc s))
       = del_at rs0 (l_bgn (ref_loc s)) (l_len (ref_loc s))
    /\ (1 <= key.2 - ref_bgn ->
        1 <= l_bgn (tgt_loc s) - (l_bgn (ref_loc s) - (key.2 - ref_bgn)) ->
        is_Some (head (v_ref_bases v))
        /\ head (v_ref_bases v) = head (v_alt_bases v)).
Proof.
  intros E Hl Htl Hr Hc Hanc.
  destruct (del_loop_shift (del_fuel (l_bgn (ref_loc s))) (l_len (ref_loc s))
              (l_bgn (ref_loc s)) (l_bgn (tgt_loc s)))
    as (log & [q0 q1] & Hq & Hdel & Hd01 & Hle & Hq'); try done.
  { unfold del_fuel. lia. }
  destruct (seg_step_D_eq loc s log (q0, q1) E Hq) as (v & Hstep & Hrb & Hab).
  cbn [fst snd] in *.
  eexists log, _, _, _, v. split; [exact Hstep|]. cbn [fst snd].
  replace (q0 + ref_bgn - ref_bgn) with q0 by lia.
  split; [done|]. split; [done|]. intros H0 H1.
  replace (l_bgn (tgt_loc s) - (l_bgn (ref_loc s) - q0)) with q1 in H1 by lia.
  rewrite Hrb, Hab, !slice_head by lia.
  split; [|by apply Hq'].
  apply Py.index_is_Some. lia.
Qed.

(** X26: whenever the loop body stores a record for an Insertion segment
    that is preceded by a base on which the sequences agree, and the
    shift has stopped right of position 0 in both sequences, the position
    it files the record under describes the same edit as the segment:
    putting the inserted bases, read at the shifted contig position, into
    the reference at the shifted position gives the same sequence as
    putting the segment's bases in at the segment's begin. *)
Theorem insertion_shift_keeps_sequence loc s log loc' key ik v :
  t s = ord_I -> 0 <= l_len (tgt_loc s) ->
  anchored (l_bgn (ref_loc s)) (l_bgn (tgt_loc s)) ->
  seg_step ref_bgn ctg_bgn rs0 cs0 strand loc s
  = (log, inr (loc', Some (key, ik, v))) ->
  1 <= key.2 - ref_bgn ->
  1 <= l_bgn (tgt_loc s) - (l_bgn (ref_loc s) - (key.2 - ref_bgn)) ->
  key.2 - ref_bgn <= l_bgn (ref_loc s)
  /\ ins_at rs0 (key.2 - ref_bgn)
       (sub cs0 (l_bgn (tgt_loc s) - (l_bgn (ref_loc s) - (key.2 - ref_bgn)))
            (l_len (tgt_loc s)))
     = ins_at rs0 (l_bgn (ref_loc s))
         (sub cs0 (l_bgn (tgt_loc s)) (l_len (tgt_loc s))).
Proof.
  intros E Htl Hanc Hstep H0 H1.
  destruct (seg_step_I_inv loc s log loc' _ E Hstep)
    as ([q0 q1] & Hq & Hkey & _ & _).
  cbn [fst snd] in *. subst key. cbn [fst snd] in *.
  replace (q0 + ref_bgn - ref_bgn) with q0 in * by lia.
  (* the shift moves both positions by the same amount *)
  assert (forall fuel p0 p1 l q,
            ins_loop rs0 cs0 fuel (l_len (tgt_loc s)) p0 p1 = (l, inr q) ->
            p0 - q.1 = p1 - q.2) as Hsame.
  { induction fuel as [|fuel IH]; intros p0 p1 l q H; [discriminate H|].
    cbn [ins_loop] in H.
    apply bind_inr in H as (l1 & a & l1' & _ & H & _).
    apply bind_inr in H as (l2 & b & l2' & _ & H & _).
    destruct (Ascii.eqb a b).
    2:{ unfold ret in H. injection H as _ <-. cbn [fst snd]. lia. }
    apply bind_inr in H as (l3 & c & l3' & _ & H & _).
    apply bind_inr in H as (l4 & d & l4' & _ & H & _).
    destruct (Ascii.eqb c d).
    2:{ unfold ret in H. injection H as _ <-. cbn [fst snd]. lia. }
    apply IH in H. lia. }
  pose proof (Hsame _ _ _ _ _ Hq) as Hd01. cbn [fst snd] in Hd01.
  replace (l_bgn (tgt_loc s) - (l_bgn (ref_loc s) - q0)) with q1 in * by lia.
  apply ins_loop_shift in Hq as (Hins & _ & Hle & _); try done.
Qed.

End Shift.

Definition example_segs : list AlnSegment :=
  [ mk_seg 0 0 2 7 0 2 ord_M; mk_seg 0 2 1 7 2 1 ord_X;
    mk_seg 0 3 1 7 3 1 ord_M ].

Lemma mismatch_only_calls_witness :
  get_variant_calls 100 0 (str "ACGT") (str "ACTT") 0 example_segs
  = ([], inr (foldl store_call ∅
                (mismatch_writes 100 0 (str "ACGT") (str "ACTT") 0 example_segs)))
  /\ mismatch_writes 100 0 (str "ACGT") (str "ACTT") 0 example_segs
     = [ ((0, 103), (7, 0),
          {| v_kind := ord_X; v_ref_bases := str "G"; v_alt_bases := str "T";
             v_ref := (0, 103, 1); v_tgt := (7, 2, 1); v_strand := 0 |}) ].
Proof.
  split; [|vm_compute; reflexivity].
  apply (mismatch_only_calls 100 0 (str "ACGT") (str "ACTT") 0 example_segs).
  repeat (apply Forall_cons; split); [by left|by right|by left|constructor].
Defined.

Lemma in_range_deletions_return_witness :
  exists log vc,
    get_variant_calls 0 0 (str "AAAAA") (str "AAAA") 0 [mk_seg 0 2 1 0 2 0 ord_D]
    = (log, inr vc)
    /\ Forall (fun r : read => -1 <= r.2) log
    /\ forall key, is_Some (vc !! key) ->
         exists s, s ∈ [mk_seg 0 2 1 0 2 0 ord_D] /\ key.1 = l_id (ref_loc s)
                   /\ 0 <= key.2 <= l_bgn (ref_loc s) + 0 + 1.
Proof.
  apply (in_range_deletions_return 0 0 (str "AAAAA") (str "AAAA") 0
           [mk_seg 0 2 1 0 2 0 ord_D]).
  apply Forall_cons. split; [|constructor].
  split; [vm_compute; discriminate|]. right. right.
  repeat split; vm_compute; discriminate.
Defined.

Lemma records_name_their_keys_witness :
  let v := {| v_kind := ord_X; v_ref_bases := str "G"; v_alt_bases := str "T";
              v_ref := (0, 103, 1); v_tgt := (7, 2, 1); v_strand := 0 |} in
  (v_ref v).1 = (0, 103) /\ (v_tgt v).1.1 = (7, 0).1 /\ v_strand v = (7, 0).2
  /\ (7, 0).2 = 0.
Proof.
  cbv zeta.
  apply (records_name_their_keys 100 0 (str "ACGT") (str "ACTT") 0 example_segs
           [] (foldl store_call ∅
                 (mismatch_writes 100 0 (str "ACGT") (str "ACTT") 0 example_segs))
           (0, 103) (7, 0)).
  - vm_compute. reflexivity.
  - vm_compute. reflexivity.
Defined.

(** A T of the run TTT in "CGTTTA" is missing from "CGTTA"; the aligner
    reports it at the right end of the run, the record is filed at the
    left end. *)
Lemma deletion_shift_keeps_sequence_witness :
  let s := mk_seg 0 4 1 7 4 0 ord_D in
  exists log loc' key ik v,
    seg_step 100 0 (str "CGTTTA") (str "CGTTA") 0 None s
    = (log, inr (loc', Some (key, ik, v)))
    /\ key.2 - 100 <= l_bgn (ref_loc s)
    /\ del_at (str "CGTTTA") (key.2 - 100) (l_len (ref_loc s))
       = del_at (str "CGTTTA") (l_bgn (ref_loc s)) (l_len (ref_loc s))
    /\ (1 <= key.2 - 100 ->
        1 <= l_bgn (tgt_loc s) - (l_bgn (ref_loc s) - (key.2 - 100)) ->
        is_Some (head (v_ref_bases v))
        /\ head (v_ref_bases v) = head (v_alt_bases v)).
Proof.
  cbv zeta.
  apply (deletion_shift_keeps_sequence 100 0 (str "CGTTTA") (str "CGTTA") 0 None
           (mk_seg 0 4 1 7 4 0 ord_D)).
  - reflexivity.
  - vm_compute. discriminate.
  - vm_compute. discriminate.
  - vm_compute. discriminate.
  - vm_compute. discriminate.
  - intros _ _. vm_compute. reflexivity.
Defined.

Lemma insertion_shift_keeps_sequence_witness :
  let s := mk_seg 0 4 0 7 4 1 ord_I in
  let key := (0, 102) in
  key.2 - 100 <= l_bgn (ref_loc s)
  /\ ins_at (str "CGTTA") (key.2 - 100)
       (sub (str "CGTTTA")
            (l_bgn (tgt_loc s) - (l_bgn (ref_loc s) - (key.2 - 100)))
            (l_len (tgt_loc s)))
     = ins_at (str "CGTTA") (l_bgn (ref_loc s))
         (sub (str "CGTTTA") (l_bgn (tgt_loc s)) (l_len (tgt_loc s))).
Proof.
  cbv zeta.
  eapply (insertion_shift_keeps_sequence 100 0 (str "CGTTA") (str "CGTTTA") 0 None
            (mk_seg 0 4 0 7 4 1 ord_I) _ _ (0, 102)).
  - reflexivity.
  - vm_compute. discriminate.
  - vm_compute. reflexivity.
  - vm_compute. reflexivity.
  - vm_compute. discriminate.
  - vm_compute. discriminate.
Defined.

End Calls.

(** ** [merge_regions]: what the returned list guarantees *)

Module Merging.
Import Order Regions.

(** Two consecutive regions of the list returned: the later one ends no
    earlier and begins at least [tol] after the earlier one ends. *)
Definition gap_ok (tol : Z) (a b : region) : Prop :=
  end_ a <= end_ b /\ tol <= bgn b - end_ a.

(** [k] spans [r]. *)
Definition covers (k r : region) : Prop :=
  bgn k <= bgn r /\ end_ r <= end_ k.

Lemma Sorted_snoc {A} (R : A -> A -> Prop) l x :
  Sorted R l -> (forall y, last l = Some y -> R y x) -> Sorted R (l ++ [x]).
Proof.
  induction 1 as [|a l Hl IH Ha]; intros Hx; simpl.
  - repeat constructor.
  - constructor.
    + apply IH. intros y Hy. apply Hx. destruct l; [done|exact Hy].
    + destruct l as [|b l]; simpl.
      * constructor. by apply Hx.
      * constructor. by apply HdRel_inv in Ha.
Qed.

Lemma Sorted_snoc_inv {A} (R : A -> A -> Prop) l x :
  Sorted R (l ++ [x]) -> Sorted R l /\ forall y, last l = Some y -> R y x.
Proof.
  induction l as [|a l IH]; simpl; intros Hs.
  - split; [constructor|done].
  - apply Sorted_inv in Hs as [Hs Ha]. destruct (IH Hs) as [Hl Hx]. split.
    + constructor; [done|]. destruct l; [constructor|].
      constructor. by apply HdRel_inv in Ha.
    + intros y Hy. destruct l as [|b l].
      * injection Hy as <-. by apply HdRel_inv in Ha.
      * by apply Hx.
Qed.

(** *** What each pass of the loop keeps *)

Definition pass_inv (tol o : Z) (s : store * list region * option Z) : Prop :=
  scan_ok s
  /\ Sorted (gap_ok tol) s.1.2
  /\ Forall (fun k => orientation k = o) s.1.2.

Lemma scan_step_inv tol o s r :
  orientation r = o -> pass_inv tol o s -> pass_inv tol o (scan_step tol s r).
Proof.
  intros Ho (Hok & Hs & Hor). split; [by apply scan_step_ok|].
  destruct s as [[st kept] [la|]]; unfold scan_ok in Hok; cbn [fst snd] in *.
  - destruct Hok as (k & Hl & ->).
    destruct (exists_last (l:=kept)) as (pre & x & ->).
    { intros ->. discriminate Hl. }
    rewrite last_snoc in Hl. injection Hl as ->.
    rewrite scan_step_snoc.
    destruct (Z.ltb_spec (end_ r) (end_ k)); cbn [fst snd]; [done|].
    destruct (Z.ltb_spec (bgn r - end_ k) tol); cbn [fst snd].
    + apply Sorted_snoc_inv in Hs as [Hs Hk].
      apply Forall_app in Hor as [Hpre Hk']. apply Forall_cons in Hk' as [Hk' _].
      split.
      * apply Sorted_snoc; [done|]. intros y Hy.
        destruct (Hk y Hy) as [He Hb]. split; simpl; lia.
      * apply Forall_app. split; [done|]. by repeat constructor.
    + split.
      * apply Sorted_snoc; [done|]. intros y Hy. rewrite last_snoc in Hy.
        injection Hy as <-. split; lia.
      * apply Forall_app. split; [done|]. by repeat constructor.
  - subst kept. cbn [scan_step fst snd app]. split; by repeat constructor.
Qed.

Lemma scan_fold_inv tol o rs : forall s,
  Forall (fun r => orientation r = o) rs ->
  pass_inv tol o s -> pass_inv tol o (foldl (scan_step tol) s rs).
Proof.
  induction rs as [|r rs IH]; intros s Hrs Hs; [done|].
  apply Forall_cons in Hrs as [Hr Hrs]. cbn [foldl].
  apply IH; [done|]. by apply scan_step_inv.
Qed.

Lemma scan_kept tol o st rs :
  Forall (fun r => orientation r = o) rs ->
  Sorted (gap_ok tol) (scan tol st rs).2
  /\ Forall (fun k => orientation k = o) (scan tol st rs).2.
Proof.
  intros Hrs. unfold scan.
  destruct (scan_fold_inv tol o rs (st, [], None) Hrs) as (_ & Hs & Ho).
  { split; [done|]. split; constructor. }
  done.
Qed.

(** *** Every scanned region ends up inside a kept one *)

Lemma scan_step_covers tol s r :
  scan_ok s -> (forall k, k ∈ s.1.2 -> bgn k <= bgn r) ->
  (forall x, (exists k, k ∈ s.1.2 /\ covers k x) ->
             exists k, k ∈ (scan_step tol s r).1.2 /\ covers k x)
  /\ (exists k, k ∈ (scan_step tol s r).1.2 /\ covers k r)
  /\ (forall k, k ∈ (scan_step tol s r).1.2 -> bgn k <= bgn r).
Proof.
  intros Hok Hb.
  destruct s as [[st kept] [la|]]; unfold scan_ok in Hok; cbn [fst snd] in *.
  - destruct Hok as (k & Hl & ->).
    destruct (exists_last (l:=kept)) as (pre & x & ->).
    { intros ->. discriminate Hl. }
    rewrite last_snoc in Hl. injection Hl as ->.
    rewrite scan_step_snoc.
    assert (bgn k <= bgn r) as Hk.
    { apply Hb. rewrite elem_of_app, list_elem_of_singleton. by right. }
    destruct (Z.ltb_spec (end_ r) (end_ k)); cbn [fst snd].
    { split; [done|]. split; [|done]. exists k. split.
      - rewrite elem_of_app, list_elem_of_singleton. by right.
      - split; lia. }
    destruct (Z.ltb_spec (bgn r - end_ k) tol); cbn [fst snd].
    + set (k' := {| bgn := bgn k; end_ := end_ r; len := len k + len r;
                    orientation := orientation k; aln := aln k |}).
      split; [|split].
      * intros y (z & [Hz| ->%list_elem_of_singleton]%elem_of_app & Hc).
        -- exists z. split; [|done]. rewrite elem_of_app. by left.
        -- exists k'. split.
           ++ rewrite elem_of_app, list_elem_of_singleton. by right.
           ++ destruct Hc. split; simpl; lia.
      * exists k'. split.
        -- rewrite elem_of_app, list_elem_of_singleton. by right.
        -- split; simpl; lia.
      * intros z [Hz| ->%list_elem_of_singleton]%elem_of_app; [|done].
        apply Hb. rewrite elem_of_app. by left.
    + split; [|split].
      * intros y (z & Hz & Hc). exists z. split; [|done].
        rewrite elem_of_app. by left.
      * exists r. split.
        -- rewrite elem_of_app, list_elem_of_singleton. by right.
        -- split; lia.
      * intros z [Hz| ->%list_elem_of_singleton]%elem_of_app; [by apply Hb|lia].
  - subst kept. cbn [scan_step fst snd app]. split; [|split].
    + intros y (z & Hz & _). by apply elem_of_nil in Hz.
    + exists r. split; [by left|]. split; lia.
    + intros z ->%list_elem_of_singleton. lia.
Qed.

Lemma scan_fold_covers tol rs : forall s,
  StronglySorted (fun a b => bgn a <= bgn b) rs ->
  scan_ok s -> (forall k r, k ∈ s.1.2 -> r ∈ rs -> bgn k <= bgn r) ->
  forall x, ((exists k, k ∈ s.1.2 /\ covers k x) \/ x ∈ rs) ->
  exists k, k ∈ (foldl (scan_step tol) s rs).1.2 /\ covers k x.
Proof.
  induction rs as [|r rs IH]; intros s Hs Hok Hb x Hx.
  - destruct Hx as [Hx|Hx]; [done|by apply elem_of_nil in Hx].
  - apply StronglySorted_inv in Hs as [Hs Hr]. rewrite Forall_forall in Hr.
    cbn [foldl].
    destruct (scan_step_covers tol s r Hok) as (Hold & Hnew & Hbound).
    { intros k Hk. apply Hb; [done|by left]. }
    apply IH; [done|by apply scan_step_ok| |].
    + intros k r' Hk Hr'. etrans; [by apply Hbound|by apply Hr].
    + destruct Hx as [Hx|[->|Hx]%elem_of_cons]; [left; by apply Hold|by left|by right].
Qed.

Lemma sorted_by_bgn st (P : region -> Prop) `{!forall r, Decision (P r)} rgns :
  StronglySorted (fun a b => bgn a <= bgn b) (filter P (sort (lt_region st) rgns)).
Proof.
  assert (forall a b, lt_region st a b = true -> lt_region st b a = false) as Hasym
    by apply (keyed_asym cmp_value (value st)).
  assert (forall a b d, le (lt_region st) a b -> le (lt_region st) b d ->
            le (lt_region st) a d) as Htrans
    by apply (keyed_le_trans cmp_value (value st)).
  rewrite (sort_filter _ Hasym Htrans).
  pose proof (sort_sorted _ Hasym Htrans (filter P rgns)) as Hs.
  induction Hs as [|a l Hl IH Ha]; constructor; [done|].
  eapply Forall_impl; [exact Ha|]. intros b Hab.
  apply (le_v_b (value st a) (value st b)). exact Hab.
Qed.

Lemma scan_covers tol st (P : region -> Prop) `{!forall r, Decision (P r)} st0 rgns x :
  x ∈ rgns -> P x ->
  exists k, k ∈ (scan tol st (filter P (sort (lt_region st0) rgns))).2 /\ covers k x.
Proof.
  intros Hx HP. unfold scan.
  apply (scan_fold_covers tol _ (st, [], None)).
  - apply sorted_by_bgn.
  - done.
  - intros k r Hk. by apply elem_of_nil in Hk.
  - right. apply list_elem_of_filter. split; [done|].
    by rewrite (sort_perm (lt_region st0) rgns).
Qed.

(** X14: the list returned holds the merged forward regions followed by
    the merged reverse regions (regions of any other orientation are
    dropped), and of any two regions of a group the later one ends no
    earlier than the earlier one and begins at least [tol] after that
    one's end: nothing that should have been merged is left apart. *)
Theorem merged_regions_apart st rgns tol :
  exists fwd rev,
    (merge_regions st rgns tol).2 = fwd ++ rev
    /\ Forall (fun r => orientation r = 0) fwd
    /\ Forall (fun r => orientation r = 1) rev
    /\ StronglySorted (gap_ok tol) fwd /\ StronglySorted (gap_ok tol) rev.
Proof.
  assert (forall l, Sorted (gap_ok tol) l -> StronglySorted (gap_ok tol) l) as Hall.
  { apply Sorted_StronglySorted. intros a b d [? ?] [? ?]. split; lia. }
  unfold merge_regions.
  set (srt := sort (lt_region st) rgns).
  pose proof (scan_kept tol 0 st (filter (fun r => orientation r = 0) srt)) as HF.
  destruct (scan tol st (filter (fun r => orientation r = 0) srt)) as [st1 fwd].
  pose proof (scan_kept tol 1 st1 (filter (fun r => orientation r = 1) srt)) as HR.
  destruct (scan tol st1 (filter (fun r => orientation r = 1) srt)) as [st2 rev].
  cbn [fst snd] in *. exists fwd, rev. split; [done|].
  destruct HF as [HF1 HF2].
  { apply Forall_forall. by intros r [? _]%list_elem_of_filter. }
  destruct HR as [HR1 HR2].
  { apply Forall_forall. by intros r [? _]%list_elem_of_filter. }
  split; [done|]. split; [done|]. split; by apply Hall.
Qed.

(** X15: nothing is lost by merging: every region of the input with
    orientation 0 or 1 lies inside a region of the list returned that has
    the same orientation (it begins no later and ends no earlier). *)
Theorem merged_regions_cover st rgns tol r :
  r ∈ rgns -> orientation r = 0 \/ orientation r = 1 ->
  exists k, k ∈ (merge_regions st rgns tol).2
            /\ orientation k = orientation r /\ covers k r.
Proof.
  intros Hr Ho. unfold merge_regions.
  set (srt := sort (lt_region st) rgns).
  pose proof (scan_kept tol 0 st (filter (fun r => orientation r = 0) srt)) as HF.
  pose proof (fun H => scan_covers tol st (fun r => orientation r = 0) st rgns r Hr H)
    as HcF. fold srt in HcF.
  destruct (scan tol st (filter (fun r => orientation r = 0) srt)) as [st1 fwd].
  pose proof (scan_kept tol 1 st1 (filter (fun r => orientation r = 1) srt)) as HR.
  pose proof (fun H => scan_covers tol st1 (fun r => orientation r = 1) st rgns r Hr H)
    as HcR. fold srt in HcR.
  destruct (scan tol st1 (filter (fun r => orientation r = 1) srt)) as [st2 rev].
  cbn [fst snd] in *.
  destruct HF as [_ HF]. { apply Forall_forall. by intros ? [? _]%list_elem_of_filter. }
  destruct HR as [_ HR]. { apply Forall_forall. by intros ? [? _]%list_elem_of_filter. }
  rewrite Forall_forall in HF, HR.
  destruct Ho as [Ho|Ho].
  - destruct (HcF Ho) as (k & Hk & Hc). exists k. rewrite elem_of_app.
    split; [by left|]. split; [|done]. rewrite Ho. by apply HF.
  - destruct (HcR Ho) as (k & Hk & Hc). exists k. rewrite elem_of_app.
    split; [by right|]. split; [|done]. rewrite Ho. by apply HR.
Qed.

Lemma merged_regions_cover_witness :
  let h1 := Hits.hp 0 10 0 100 110 0 in
  let h2 := Hits.hp 20 30 0 120 130 0 in
  let st : store := {[ 1 := [h1]; 2 := [h2]; 3 := [h1] ]} in
  let rgns := [ mk_region 150 250 100 0 2; mk_region 0 100 100 0 1;
                mk_region 20 80 60 0 3 ] in
  exists k, k ∈ (merge_regions st rgns 100).2
            /\ orientation k = orientation (mk_region 20 80 60 0 3)
            /\ covers k (mk_region 20 80 60 0 3).
Proof.
  cbv zeta. apply merged_regions_cover; [|by left].
  right. right. left.
Defined.

End Merging.

(** ** [query_sdb] end to end *)

Module Ranges.
Import Order Hits Regions Query.

(** *** The alignments [query_sdb] retains *)

(** The alignments reported for target id [sid] that have more than two
    hit-pairs, in the order of the engine's output. *)
Definition kept_alns {Score} (r : list (Z * list (Score * list hitpair)))
    (sid : Z) : list (list hitpair) :=
  r ≫= fun e =>
    if decide (e.1 = sid)
    then filter (fun aln => 2 < Z.of_nat (length aln)) e.2.*2
    else [].

(** What every region of the result satisfies. *)
Definition well_formed (v : rvalue) : Prop :=
  vb v <= ve v /\ 0 <= vl v /\ (vo v = 0 \/ vo v = 1)
  /\ 2 < Z.of_nat (length (va v)).

(** The entries of [sid_to_alns] at one target id. *)
Definition alns_at (m : gmap Z (list (list hitpair * Z))) (sid : Z)
  : list (list hitpair * Z) :=
  default [] (m !! sid).

(** No empty list is ever stored. *)
Definition no_empty (m : gmap Z (list (list hitpair * Z))) : Prop :=
  forall sid alns, m !! sid = Some alns -> alns <> [].

Lemma append_at_alns m sid' (ao : list hitpair * Z) sid :
  alns_at (append_at m sid' ao) sid
  = alns_at m sid ++ (if decide (sid' = sid) then [ao] else []).
Proof.
  unfold alns_at, append_at. destruct (decide (sid' = sid)) as [->|Hne].
  - by rewrite lookup_insert_eq.
  - rewrite lookup_insert_ne by done. by rewrite app_nil_r.
Qed.

Lemma append_at_no_empty m sid (ao : list hitpair * Z) :
  no_empty m -> no_empty (append_at m sid ao).
Proof.
  intros Hm sid' alns. unfold append_at.
  destruct (decide (sid = sid')) as [->|Hne].
  - rewrite lookup_insert_eq. intros [= <-]. by destruct (default [] _).
  - rewrite lookup_insert_ne by done. apply Hm.
Qed.

Section Fold.
Context {Score : Type}.

Lemma aln_step_alns sid' (st : Z * Z * gmap Z (list (list hitpair * Z)))
    (sa : Score * list hitpair) sid :
  (alns_at (aln_step sid' st sa).2 sid).*1
  = (alns_at st.2 sid).*1
    ++ (if decide (sid' = sid)
        then filter (fun aln => 2 < Z.of_nat (length aln)) [sa.2] else [])
  /\ (no_empty st.2 -> no_empty (aln_step sid' st sa).2)
  /\ forall P : list hitpair * Z -> Prop,
       (forall aln o, 2 < Z.of_nat (length aln) -> o = 0 \/ o = 1 -> P (aln, o)) ->
       Forall P (alns_at st.2 sid) ->
       Forall P (alns_at (aln_step sid' st sa).2 sid).
Proof.
  destruct st as [[f0 r0] m]. unfold aln_step. cbn [fst snd].
  rewrite filter_cons, filter_nil.
  destruct (decide (2 < Z.of_nat (length sa.2))) as [Hd|Hd];
    destruct (Z.ltb_spec 2 (Z.of_nat (length sa.2))) as [Hlen|Hlen]; try lia.
  - destruct (foldl count_hp (f0, r0) sa.2) as [f1 r1]. cbn [fst snd].
    rewrite append_at_alns. split; [|split].
    + rewrite fmap_app. f_equal. by destruct (decide (sid' = sid)).
    + apply append_at_no_empty.
    + intros P HP Hm. apply Forall_app. split; [done|].
      destruct (decide (sid' = sid)); [|constructor].
      constructor; [|constructor]. apply HP; [done|].
      destruct (r1 <? f1); [by left|by right].
  - split; [|split]; [|done|done].
    destruct (decide (sid' = sid)); by rewrite app_nil_r.
Qed.

Lemma aln_fold_alns sid' (sas : list (Score * list hitpair)) sid : forall st,
  (alns_at (foldl (aln_step sid') st sas).2 sid).*1
  = (alns_at st.2 sid).*1
    ++ (if decide (sid' = sid)
        then filter (fun aln => 2 < Z.of_nat (length aln)) sas.*2 else [])
  /\ (no_empty st.2 -> no_empty (foldl (aln_step sid') st sas).2)
  /\ forall P : list hitpair * Z -> Prop,
       (forall aln o, 2 < Z.of_nat (length aln) -> o = 0 \/ o = 1 -> P (aln, o)) ->
       Forall P (alns_at st.2 sid) ->
       Forall P (alns_at (foldl (aln_step sid') st sas).2 sid).
Proof.
  induction sas as [|sa sas IH]; intros st.
  - cbn [foldl]. split; [|split]; [|done|done].
    destruct (decide (sid' = sid)); by rewrite app_nil_r.
  - cbn [foldl]. destruct (IH (aln_step sid' st sa)) as (Ha & Hn & HP).
    destruct (aln_step_alns sid' st sa sid) as (Ha1 & Hn1 & HP1).
    split; [|split].
    + rewrite Ha, Ha1, <- app_assoc. f_equal. rewrite fmap_cons.
      destruct (decide (sid' = sid)); [|done].
      rewrite !filter_cons, filter_nil.
      by destruct (decide (2 < Z.of_nat (length sa.2))).
    + intros H. by apply Hn, Hn1.
    + intros P H0 Hm. apply HP; [done|]. by apply HP1.
Qed.

Lemma sid_to_alns_spec (r : list (Z * list (Score * list hitpair))) sid :
  (alns_at (sid_to_alns r) sid).*1 = kept_alns r sid
  /\ no_empty (sid_to_alns r)
  /\ forall P : list hitpair * Z -> Prop,
       (forall aln o, 2 < Z.of_nat (length aln) -> o = 0 \/ o = 1 -> P (aln, o)) ->
       Forall P (alns_at (sid_to_alns r) sid).
Proof.
  unfold sid_to_alns, kept_alns.
  induction r as [|e r IH] using rev_ind.
  - split; [|split].
    + unfold alns_at. cbn [foldl]. by rewrite lookup_empty.
    + intros s alns. cbn [foldl]. by rewrite lookup_empty.
    + intros P _. unfold alns_at. cbn [foldl]. rewrite lookup_empty. constructor.
  - rewrite foldl_snoc, bind_app. unfold sid_step at 1 3 5.
    destruct IH as (Ha & Hn & HP).
    destruct (aln_fold_alns e.1 e.2 sid (0, 0, foldl sid_step ∅ r))
      as (Ha1 & Hn1 & HP1). cbn [fst snd] in *.
    split; [|split].
    + rewrite Ha1, Ha. f_equal. cbn [mbind list_bind]. by rewrite app_nil_r.
    + by apply Hn1.
    + intros P H0. apply HP1; [done|]. by apply HP.
Qed.

End Fold.

(** *** One region per retained alignment *)

Lemma region_of_aln ao reg :
  region_of ao = Some reg -> r_aln reg = ao.1 /\ r_orientation reg = ao.2.
Proof.
  destruct ao as [aln o]. unfold region_of.
  destruct (Py.first_item _); [|done]. destruct (Py.last_item _); [|done].
  cbn [mbind option_bind]. by intros [= <-].
Qed.

Lemma region_of_ordered aln o reg :
  region_of (aln, o) = Some reg ->
  r_bgn reg <= r_end reg /\ r_len reg = r_end reg - r_bgn reg.
Proof.
  intros H. pose proof H as Hr.
  apply region_of_bounds in H as (f & l & Hf & Hl & Hb & He & Hfle & _).
  specialize (Hfle l Hl). apply le_pair_iff in Hfle. cbn [fst snd] in Hfle.
  split; [lia|].
  unfold region_of in Hr.
  destruct (Py.first_item _); [|done]. destruct (Py.last_item _); [|done].
  cbn [mbind option_bind] in Hr. by injection Hr as <-.
Qed.

Lemma aln_range_regions {Score} (r : list (Z * list (Score * list hitpair))) m sid :
  aln_range r = Some m ->
  r_aln <$> default [] (m !! sid) = kept_alns r sid
  /\ (is_Some (m !! sid) <-> kept_alns r sid <> [])
  /\ Forall (fun reg => well_formed (as_value reg)
                        /\ r_len reg = r_end reg - r_bgn reg)
       (default [] (m !! sid)).
Proof.
  intros H.
  destruct (sid_to_alns_spec r sid) as (Ha & Hn & HP).
  specialize (HP (fun ao => 2 < Z.of_nat (length ao.1) /\ (ao.2 = 0 \/ ao.2 = 1))
                 (fun aln o H1 H2 => conj H1 H2)).
  unfold alns_at in *.
  destruct (m !! sid) as [regs|] eqn:Em.
  - destruct (aln_range_lookup r m sid regs H Em) as (alns & Hs & HF).
    rewrite Hs in *. cbn [from_option id] in *.
    assert (r_aln <$> regs = alns.*1) as Hal.
    { clear -HF. induction HF as [|ao reg alns regs Hr _ IH]; [done|].
      rewrite !fmap_cons, IH. f_equal. by apply region_of_aln in Hr as [-> _]. }
    split; [by rewrite Hal|]. split.
    + split; [|by eauto]. intros _. rewrite <- Ha. intros E.
      apply fmap_nil_inv in E. by apply (Hn sid alns).
    + clear -HF HP. induction HF as [|[aln o] reg alns regs Hr _ IH]; [constructor|].
      apply Forall_cons in HP as [[Hlen Ho] HP]. constructor; [|by apply IH].
      destruct (region_of_aln _ _ Hr) as [Hral Hro].
      destruct (region_of_ordered _ _ _ Hr) as [Hle Hlen'].
      cbn [fst snd] in *. split; [|done].
      unfold well_formed, as_value, vb, ve, vl, vo, va. cbn [fst snd].
      rewrite Hral, Hro. repeat split; try done. lia.
  - cbn [from_option id]. unfold aln_range in H. case_decide as Hall; [|done].
    injection H as <-. rewrite !lookup_fmap in Em.
    destruct (sid_to_alns r !! sid) as [alns|] eqn:Es; [done|].
    cbn [from_option id] in Ha. rewrite <- Ha.
    split; [done|]. split; [|constructor].
    split; [by intros [? ?]|done].
Qed.

(** *** The merging pass sees no shared alignment list *)

Lemma alloc_refs (rgns : list Hits.region) :
  aln <$> (alloc rgns).2 = Z.of_nat <$> seq 0 (length rgns).
Proof.
  unfold alloc. cbn [snd]. rewrite fmap_imap.
  rewrite <- (imap_seq rgns Z.of_nat 0). by apply imap_ext.
Qed.

Lemma alloc_keys (rgns : list Hits.region) :
  (imap (fun i r => (Z.of_nat i, r_aln r)) rgns).*1
  = Z.of_nat <$> seq 0 (length rgns).
Proof.
  rewrite fmap_imap. rewrite <- (imap_seq rgns Z.of_nat 0). by apply imap_ext.
Qed.

Lemma seq_Z_NoDup n : NoDup (Z.of_nat <$> seq 0 n).
Proof. apply NoDup_fmap_2; [apply Nat2Z.inj'|apply NoDup_seq]. Qed.

Lemma alloc_values (rgns : list Hits.region) :
  values (alloc rgns).1 (alloc rgns).2 = as_value <$> rgns.
Proof.
  unfold values. apply list_eq. intros i.
  rewrite !list_lookup_fmap. unfold alloc. cbn [fst snd].
  rewrite list_lookup_imap. destruct (rgns !! i) as [r|] eqn:Ei; [|done].
  cbn [fmap option_fmap option_map]. f_equal.
  unfold value, as_value, mk_region, deref. cbn [bgn end_ len orientation aln].
  rewrite (elem_of_list_to_map_1 _ (Z.of_nat i) (r_aln r)); [done| |].
  - rewrite alloc_keys. apply seq_Z_NoDup.
  - apply elem_of_lookup_imap. by exists i, r.
Qed.

Lemma merged_vmerge rgns tol : merged rgns tol = vmerge (as_value <$> rgns) tol.
Proof.
  unfold merged.
  pose proof (alloc_values rgns) as Hv. pose proof (alloc_refs rgns) as Hr.
  destruct (alloc rgns) as [st rs]. cbn [fst snd] in *.
  destruct (merge_regions st rs tol) as [[st' rgns'] out] eqn:E.
  apply merge_regions_values in E as [-> _]; [by rewrite Hv|].
  rewrite Hr. apply seq_Z_NoDup.
Qed.

(** *** Merging keeps regions well formed *)

Lemma go_well_formed tol rest : forall cur,
  well_formed cur -> Forall well_formed rest -> Forall well_formed (go tol cur rest).
Proof.
  induction rest as [|r rest IH]; intros cur Hc Hr; cbn [go].
  - constructor; [done|constructor].
  - apply Forall_cons in Hr as [Hr Hrest].
    destruct (Z.ltb_spec (ve r) (ve cur)); [by apply IH|].
    destruct (vb r - ve cur <? tol); [|constructor; [done|by apply IH]].
    apply IH; [|done].
    destruct Hc as (H1 & H2 & H3 & H4), Hr as (H5 & H6 & H7 & H8).
    unfold well_formed, vmerge1, vb, ve, vl, vo, va in *. cbn [fst snd].
    rewrite length_app. repeat split; try done; lia.
Qed.

Lemma vmerge_well_formed vs tol :
  Forall well_formed vs -> Forall well_formed (vmerge vs tol).
Proof.
  intros Hvs. unfold vmerge.
  assert (forall P `{!forall v, Decision (P v)},
            Forall well_formed (vscan tol (filter P (sort lt_value vs)))) as H.
  { intros P ?.
    assert (Forall well_formed (filter P (sort lt_value vs))) as Hf.
    { apply Forall_forall. intros v [_ Hv]%list_elem_of_filter.
      rewrite (sort_perm lt_value vs) in Hv. rewrite Forall_forall in Hvs.
      by apply Hvs. }
    destruct (filter P (sort lt_value vs)) as [|x rest]; [constructor|].
    apply Forall_cons in Hf as [Hx Hrest]. by apply go_well_formed. }
  apply Forall_app. split; apply H.
Qed.

Lemma vscan_apart tol vs : StronglySorted (apart tol) (vscan tol vs).
Proof.
  apply Sorted_StronglySorted.
  - intros a b d [? ?] [? ?]. split; lia.
  - destruct vs as [|x rest]; [constructor|]. apply go_apart.
Qed.

(** X16: whatever the tolerance, [query_sdb] returns without error, and
    every region of its result begins no later than it ends, has a
    non-negative length field, orientation 0 or 1 and an alignment of
    more than two hit-pairs.  Without the merging pass the length field
    is end minus begin; a merged region instead carries the sum of the
    lengths it absorbed. *)
Theorem query_regions_well_formed {Score}
    (r : list (Z * list (Score * list hitpair))) tol :
  exists out,
    query_sdb r tol = Some out
    /\ forall sid vs v, out !! sid = Some vs -> v ∈ vs ->
         well_formed v /\ (tol <= 0 -> vl v = ve v - vb v).
Proof.
  unfold query_sdb. destruct (aln_range_total r) as [m Hm]. rewrite Hm.
  eexists. split; [reflexivity|]. intros sid vs v Hl Hv.
  destruct (aln_range_regions r m sid Hm) as (_ & _ & Hwf).
  destruct (Z.ltb_spec 0 tol) as [Ht|Ht]; rewrite lookup_fmap in Hl;
    destruct (m !! sid) as [regs|]; try done;
    cbn [fmap option_fmap option_map from_option id] in *; injection Hl as <-.
  - split; [|lia]. rewrite merged_vmerge in Hv.
    assert (Forall well_formed (as_value <$> regs)) as Hall.
    { apply Forall_fmap. eapply Forall_impl; [exact Hwf|]. by intros ? [? _]. }
    apply (vmerge_well_formed _ tol) in Hall. rewrite Forall_forall in Hall.
    by apply Hall.
  - apply list_elem_of_fmap in Hv as (reg & -> & Hreg).
    rewrite Forall_forall in Hwf. destruct (Hwf reg Hreg) as [H1 H2].
    split; [done|]. intros _. exact H2.
Qed.

(** X17: with a positive tolerance the regions returned for a target id
    are the forward ones followed by the reverse ones, and of any two
    regions of the same group the later one ends no earlier than the
    earlier one and begins at least [merge_range_tol] after that one's
    end.  The alignment lists handed to [merge_regions] are separate
    objects here, so the result is the merge computed on values. *)
Theorem query_regions_apart {Score}
    (r : list (Z * list (Score * list hitpair))) tol out sid vs :
  0 < tol -> query_sdb r tol = Some out -> out !! sid = Some vs ->
  exists regs fwd rev,
    aln_range r = Some regs
    /\ vs = vmerge (as_value <$> default [] (regs !! sid)) tol
    /\ vs = fwd ++ rev
    /\ Forall (fun v => vo v = 0) fwd /\ Forall (fun v => vo v = 1) rev
    /\ StronglySorted (apart tol) fwd /\ StronglySorted (apart tol) rev.
Proof.
  intros Ht H Hl. unfold query_sdb in H.
  destruct (aln_range r) as [m|]; [|done]. injection H as <-.
  destruct (Z.ltb_spec 0 tol); [|lia]. rewrite lookup_fmap in Hl.
  destruct (m !! sid) as [regs|] eqn:Em; [|done].
  cbn [fmap option_fmap option_map] in Hl. injection Hl as <-.
  rewrite merged_vmerge. exists m. eexists _, _. split; [done|].
  rewrite Em. cbn [from_option id].
  split; [reflexivity|]. split; [reflexivity|].
  split; [|split; [|split; apply vscan_apart]].
  - apply vscan_orientation, Forall_forall. by intros v [? _]%list_elem_of_filter.
  - apply vscan_orientation, Forall_forall. by intros v [? _]%list_elem_of_filter.
Qed.

(** X18: a target id has an entry in the result exactly when the engine
    reported for it an alignment of more than two hit-pairs, and without
    the merging pass its regions are those alignments, one region each,
    in the order reported: shorter alignments are dropped, nothing else
    is. *)
Theorem one_region_per_retained_alignment {Score}
    (r : list (Z * list (Score * list hitpair))) tol out sid :
  query_sdb r tol = Some out ->
  (is_Some (out !! sid) <-> kept_alns r sid <> [])
  /\ (tol <= 0 -> va <$> default [] (out !! sid) = kept_alns r sid).
Proof.
  intros H. unfold query_sdb in H.
  destruct (aln_range r) as [m|] eqn:Hm; [|done]. injection H as <-.
  destruct (aln_range_regions r m sid Hm) as (Ha & Hs & _).
  split.
  - rewrite <- Hs. destruct (0 <? tol); rewrite lookup_fmap;
      by rewrite fmap_is_Some.
  - intros Ht. destruct (Z.ltb_spec 0 tol); [lia|]. rewrite lookup_fmap, <- Ha.
    destruct (m !! sid) as [regs|]; [|done].
    cbn [fmap option_fmap option_map from_option id].
    rewrite <- list_fmap_compose. by apply list_fmap_ext.
Qed.

(** *** The orientation the code assigns *)

(** The running tallies of one [for s, aln in alns:] loop, started at
    [(f, r)], over the alignments it retains: each alignment is tallied on
    top of the counts left by the ones before it. *)
Fixpoint orient_run (f r : Z) (alns : list (list hitpair))
  : list (list hitpair * Z) :=
  match alns with
  | [] => []
  | aln :: rest =>
      let c := foldl count_hp (f, r) aln in
      (aln, if c.2 <? c.1 then 0 else 1) :: orient_run c.1 c.2 rest
  end.

(** What the engine's output makes of target id [sid]: the counts start
    at zero with every item of the output. *)
Definition orientations {Score} (r : list (Z * list (Score * list hitpair)))
    (sid : Z) : list (list hitpair * Z) :=
  r ≫= fun e =>
    if decide (e.1 = sid)
    then orient_run 0 0 (filter (fun aln => 2 < Z.of_nat (length aln)) e.2.*2)
    else [].

Lemma aln_fold_run {Score} sid' (sas : list (Score * list hitpair)) sid :
  forall f0 r0 m,
  alns_at (foldl (aln_step sid') (f0, r0, m) sas).2 sid
  = alns_at m sid
    ++ (if decide (sid' = sid)
        then orient_run f0 r0
               (filter (fun aln => 2 < Z.of_nat (length aln)) sas.*2)
        else []).
Proof.
  induction sas as [|sa sas IH]; intros f0 r0 m.
  - cbn [foldl snd]. destruct (decide (sid' = sid)); by rewrite app_nil_r.
  - cbn [foldl]. rewrite fmap_cons, filter_cons. unfold aln_step at 2.
    destruct (decide (2 < Z.of_nat (length sa.2))) as [Hd|Hd];
      destruct (Z.ltb_spec 2 (Z.of_nat (length sa.2))) as [Hlen|Hlen]; try lia.
    + destruct (foldl count_hp (f0, r0) sa.2) as [f1 r1] eqn:Ec.
      rewrite IH, append_at_alns, <- app_assoc. f_equal.
      destruct (decide (sid' = sid)); [|done].
      cbn [orient_run app]. by rewrite Ec.
    + apply IH.
Qed.

Lemma sid_to_alns_run {Score} (r : list (Z * list (Score * list hitpair))) sid :
  alns_at (sid_to_alns r) sid = orientations r sid.
Proof.
  unfold sid_to_alns, orientations.
  induction r as [|e r IH] using rev_ind.
  - unfold alns_at. cbn [foldl]. by rewrite lookup_empty.
  - rewrite foldl_snoc, bind_app. unfold sid_step at 1.
    rewrite aln_fold_run, IH. f_equal. cbn [mbind list_bind].
    by rewrite app_nil_r.
Qed.

(** X24: without the merging pass, the regions of a target id carry, in
    order, the retained alignments with the orientation the running
    counts give: the agreeing and disagreeing hit-pairs of an alignment
    are added to those of the retained alignments before it in the same
    item of the engine's output, and the orientation is 0 exactly when
    the agreeing total is then the larger one. *)
Theorem orientation_by_running_counts {Score}
    (r : list (Z * list (Score * list hitpair))) tol out sid :
  tol <= 0 -> query_sdb r tol = Some out ->
  (fun v => (va v, vo v)) <$> default [] (out !! sid) = orientations r sid.
Proof.
  intros Ht H. unfold query_sdb in H.
  destruct (aln_range r) as [m|] eqn:Hm; [|done]. injection H as <-.
  destruct (Z.ltb_spec 0 tol); [lia|]. rewrite lookup_fmap.
  rewrite <- sid_to_alns_run. unfold alns_at.
  destruct (m !! sid) as [regs|] eqn:Em.
  - destruct (aln_range_lookup r m sid regs Hm Em) as (alns & -> & HF).
    cbn [fmap option_fmap option_map from_option id].
    rewrite <- list_fmap_compose.
    clear -HF. induction HF as [|[aln o] reg alns regs Hr _ IH]; [done|].
    rewrite fmap_cons, IH. f_equal.
    apply region_of_aln in Hr as [Ha Ho]. cbn [fst snd] in *.
    unfold compose, as_value, va, vo. cbn [fst snd]. by rewrite Ha, Ho.
  - unfold aln_range in Hm. case_decide as Hall; [|done].
    injection Hm as <-. rewrite !lookup_fmap in Em.
    by destruct (sid_to_alns r !! sid).
Qed.

Definition example_hits : list (Z * list (unit * list hitpair)) :=
  [ (7, [ (tt, [hp 0 10 0 100 110 0; hp 20 30 0 120 130 0; hp 40 50 0 140 150 0]);
          (tt, [hp 60 70 0 160 170 0; hp 80 90 0 180 190 0]);
          (tt, [hp 100 110 0 200 210 0; hp 120 130 0 220 230 0;
                hp 140 150 0 240 250 0]) ]);
    (9, [ (tt, [hp 0 10 0 100 110 0]) ]) ].

Definition example_regions : list rvalue :=
  [ (100, 150, 50, 0,
     [hp 0 10 0 100 110 0; hp 20 30 0 120 130 0; hp 40 50 0 140 150 0]);
    (200, 250, 50, 0,
     [hp 100 110 0 200 210 0; hp 120 130 0 220 230 0; hp 140 150 0 240 250 0]) ].

Lemma query_regions_apart_witness :
  exists regs fwd rev,
    aln_range example_hits = Some regs
    /\ example_regions = vmerge (as_value <$> default [] (regs !! 7)) 10
    /\ example_regions = fwd ++ rev
    /\ Forall (fun v => vo v = 0) fwd /\ Forall (fun v => vo v = 1) rev
    /\ StronglySorted (apart 10) fwd /\ StronglySorted (apart 10) rev.
Proof.
  apply (query_regions_apart example_hits 10 {[ 7 := example_regions ]} 7).
  - lia.
  - vm_compute. reflexivity.
  - vm_compute. reflexivity.
Defined.

Lemma one_region_per_retained_alignment_witness :
  (is_Some (({[ 7 := example_regions ]} : gmap Z (list rvalue)) !! 9)
   <-> kept_alns example_hits 9 <> [])
  /\ (0 <= 0 ->
      va <$> default [] (({[ 7 := example_regions ]} : gmap Z (list rvalue)) !! 7)
      = kept_alns example_hits 7).
Proof.
  split.
  - apply (one_region_per_retained_alignment example_hits 0
             {[ 7 := example_regions ]} 9).
    vm_compute. reflexivity.
  - apply (one_region_per_retained_alignment example_hits 0
             {[ 7 := example_regions ]} 7).
    vm_compute. reflexivity.
Defined.

Lemma orientation_by_running_counts_witness :
  (fun v => (va v, vo v))
    <$> default [] (({[ 7 := example_regions ]} : gmap Z (list rvalue)) !! 7)
  = orientations example_hits 7.
Proof.
  apply (orientation_by_running_counts example_hits 0 {[ 7 := example_regions ]} 7).
  - lia.
  - vm_compute. reflexivity.
Defined.

End Ranges.

(** ** [group_smps_by_principle_bundle_id]: the shape of the result *)

Module Partitions.
Import Bundles.

(** The tagged entry the loop builds for an input pair; pairs without
    bundle information give none. *)
Definition tagged (x : smp * option bundle_info) : option entry :=
  match x.2 with
  | None => None
  | Some bi =>
      Some {| e_smp := x.1; e_bid := bi.1.1;
              e_d := if direction x.1 =? bi.1.2 then 0 else 1;
              e_bpos := bi.2 |}
  end.

(** All entries of one partition carry the same bundle id and the same
    direction relative to the bundle. *)
Definition homogeneous (p : smp_partition) : Prop :=
  forall a b, a ∈ p -> b ∈ p -> e_bid a = e_bid b /\ e_d a = e_d b.

(** *** Phase 1 *)

Definition entries (st : seg_state) : list entry :=
  concat (all_partitions st) ++ new_partition st.

Definition open_inv (st : seg_state) : Prop :=
  Forall homogeneous (all_partitions st)
  /\ forall a, a ∈ new_partition st ->
       pbid st = Some (e_bid a) /\ pdirection st = Some (e_d a).

Lemma open_homogeneous st : open_inv st -> homogeneous (new_partition st).
Proof.
  intros [_ H] a b Ha Hb. destruct (H a Ha) as [E1 E2], (H b Hb) as [E3 E4].
  rewrite E1 in E3. rewrite E2 in E4. by injection E3; injection E4.
Qed.

Lemma close_sub (b : bool) all (new : smp_partition) base e :
  concat all ++ new `sublist_of` base ->
  concat (if b then all ++ [new] else all) ++ [e] `sublist_of` base ++ [e].
Proof.
  intros H. apply sublist_app; [|done]. destruct b.
  - by rewrite concat_app, concat_cons, concat_nil, app_nil_r.
  - etrans; [|exact H]. by apply sublist_inserts_r.
Qed.

Lemma close_homogeneous (b : bool) all (new : smp_partition) :
  Forall homogeneous all -> homogeneous new ->
  Forall homogeneous (if b then all ++ [new] else all).
Proof.
  intros Ha Hn. destruct b; [|done].
  apply Forall_app. split; [done|]. constructor; [done|constructor].
Qed.

Lemma differs_false x o : differs x o = false -> o = Some x.
Proof.
  destruct o as [y|]; [|done]. simpl. intros H%negb_false_iff.
  apply Z.eqb_eq in H. by subst.
Qed.

Lemma seg_step_entries lc st x st' base :
  seg_step lc st x = Some st' ->
  entries st `sublist_of` base -> open_inv st ->
  entries st' `sublist_of` base ++ option_list (tagged x) /\ open_inv st'.
Proof.
  unfold seg_step, tagged, entries. intros H Hsub Hinv.
  destruct x.2 as [bi|].
  2:{ injection H as <-. by rewrite app_nil_r. }
  cbn [option_list].
  set (e := {| e_smp := x.1; e_bid := bi.1.1;
               e_d := if direction x.1 =? bi.1.2 then 0 else 1;
               e_bpos := bi.2 |}) in *.
  pose proof (open_homogeneous st Hinv) as Hhom. destruct Hinv as [Hall Hnew].
  assert (forall all,
            (exists b : bool, all = if b then all_partitions st ++ [new_partition st]
                                    else all_partitions st) ->
            entries {| pbid := Some (e_bid e); pdirection := Some (e_d e);
                       all_partitions := all; new_partition := [e] |}
              `sublist_of` base ++ [e]
            /\ open_inv {| pbid := Some (e_bid e); pdirection := Some (e_d e);
                           all_partitions := all; new_partition := [e] |})
    as Hfresh.
  { intros all [b ->]. split.
    - unfold entries. cbn [all_partitions new_partition]. by apply close_sub.
    - split; cbn [all_partitions new_partition pbid pdirection].
      + by apply close_homogeneous.
      + by intros a ->%list_elem_of_singleton. }
  assert (differs (e_bid e) (pbid st) || differs (e_d e) (pdirection st) = false ->
          entries {| pbid := pbid st; pdirection := pdirection st;
                     all_partitions := all_partitions st;
                     new_partition := new_partition st ++ [e] |}
            `sublist_of` base ++ [e]
          /\ open_inv {| pbid := pbid st; pdirection := pdirection st;
                         all_partitions := all_partitions st;
                         new_partition := new_partition st ++ [e] |})
    as Hsame.
  { intros [E1%differs_false E2%differs_false]%orb_false_iff. split.
    - unfold entries. cbn [all_partitions new_partition].
      rewrite app_assoc. by apply sublist_app.
    - split; cbn [all_partitions new_partition pbid pdirection]; [done|].
      intros a [Ha| ->%list_elem_of_singleton]%elem_of_app; [by apply Hnew|done]. }
  unfold entries in *.
  destruct (pbid st) as [pb|] eqn:Eb, (pdirection st) as [pd|] eqn:Ed.
  - destruct (differs _ _ || differs _ _) eqn:Ediff.
    + destruct (span (new_partition st)) as [sp|]; [|done].
      cbn [mbind option_bind] in H. injection H as <-.
      apply Hfresh. by exists (lc <? sp).
    + injection H as <-. by apply Hsame.
  - destruct (differs _ _ || differs _ _) eqn:Ediff.
    + destruct (span (new_partition st)) as [sp|]; [|done].
      cbn [mbind option_bind] in H. injection H as <-.
      apply Hfresh. by exists (lc <? sp).
    + injection H as <-. by apply Hsame.
  - destruct (differs _ _ || differs _ _) eqn:Ediff.
    + destruct (span (new_partition st)) as [sp|]; [|done].
      cbn [mbind option_bind] in H. injection H as <-.
      apply Hfresh. by exists (lc <? sp).
    + injection H as <-. by apply Hsame.
  - injection H as <-. apply Hfresh. by exists false.
Qed.

Lemma seg_loop_entries lc smps : forall st st' base,
  seg_loop lc st smps = Some st' ->
  entries st `sublist_of` base -> open_inv st ->
  entries st' `sublist_of` base ++ omap tagged smps /\ open_inv st'.
Proof.
  induction smps as [|x smps IH]; intros st st' base H Hsub Hinv.
  - cbn [seg_loop] in H. injection H as <-. by rewrite app_nil_r.
  - cbn [seg_loop] in H.
    destruct (seg_step lc st x) as [st1|] eqn:E; [|done].
    cbn [mbind option_bind] in H.
    destruct (seg_step_entries lc st x st1 base E Hsub Hinv) as [Hsub1 Hinv1].
    destruct (IH st1 st' _ H Hsub1 Hinv1) as [Hsub' Hinv'].
    split; [|done].
    replace (base ++ omap tagged (x :: smps))
      with ((base ++ option_list (tagged x)) ++ omap tagged smps); [done|].
    rewrite <- app_assoc. f_equal. cbn [omap list_omap].
    by destruct (tagged x).
Qed.

Lemma segment_phase_entries smps lc closed :
  segment_phase smps lc = Some closed ->
  concat closed `sublist_of` omap tagged smps /\ Forall homogeneous closed.
Proof.
  unfold segment_phase. intros H.
  destruct (seg_loop lc _ smps) as [st|] eqn:E; [|done].
  cbn [mbind option_bind] in H.
  apply (seg_loop_entries lc smps _ st []) in E as [Hsub Hinv].
  2:{ done. }
  2:{ split; [constructor|]. intros a Ha. by apply elem_of_nil in Ha. }
  pose proof (open_homogeneous st Hinv) as Hhom. destruct Hinv as [Hall _].
  unfold entries in Hsub. cbn [app] in Hsub.
  destruct (new_partition st) as [|e l] eqn:En.
  - injection H as <-. by rewrite app_nil_r in Hsub.
  - destruct (span (e :: l)) as [sp|]; [|done].
    cbn [mbind option_bind] in H. injection H as <-. split.
    + destruct (lc <? sp).
      * by rewrite concat_app, concat_cons, concat_nil, app_nil_r.
      * etrans; [|exact Hsub]. by apply sublist_inserts_r.
    + by apply close_homogeneous.
Qed.

(** *** Phase 2 *)

Lemma fused_head ml q ps gs :
  fused ml (q :: ps) gs -> exists rest gs', gs = (q ++ rest) :: gs'.
Proof.
  inversion 1; subst.
  - exists [], []. by rewrite app_nil_r.
  - by eexists _, _.
  - exists [], gs0. by rewrite app_nil_r.
Qed.

Lemma mergeable_head ml p q rest :
  q <> [] -> mergeable ml p (q ++ rest) <-> mergeable ml p q.
Proof.
  intros Hq. unfold mergeable. destruct q as [|b q]; [done|]. done.
Qed.

Lemma fused_homogeneous ml closed out :
  fused ml closed out ->
  Forall (fun p => p <> []) closed -> Forall homogeneous closed ->
  Forall (fun p => p <> [] /\ homogeneous p) out.
Proof.
  induction 1 as [|p|p q ps g gs Hm Hf IH|p q ps gs Hn Hf IH]; intros Hne Hhom.
  - constructor.
  - apply Forall_cons in Hne as [? _]. apply Forall_cons in Hhom as [? _].
    constructor; [done|constructor].
  - apply Forall_cons in Hne as [Hp Hne]. apply Forall_cons in Hhom as [Hhp Hhom].
    specialize (IH Hne Hhom). apply Forall_cons in IH as [[Hg Hhg] IH].
    constructor; [|done]. split; [by destruct p|].
    destruct (fused_head _ _ _ _ Hf) as (rest & gs' & [= -> ->]).
    destruct Hm as (a & b & Hl & Hh & Eb & Ed & _).
    apply last_Some_elem_of in Hl.
    assert (b ∈ q ++ rest) as Hb.
    { apply elem_of_app. left. by apply head_Some_elem_of. }
    intros x y [Hx|Hx]%elem_of_app [Hy|Hy]%elem_of_app.
    + by apply Hhp.
    + destruct (Hhp x a Hx Hl), (Hhg b y Hb Hy). split; congruence.
    + destruct (Hhp y a Hy Hl), (Hhg b x Hb Hx). split; congruence.
    + by apply Hhg.
  - apply Forall_cons in Hne as [Hp Hne]. apply Forall_cons in Hhom as [Hhp Hhom].
    constructor; [done|]. by apply IH.
Qed.

Lemma fused_not_mergeable ml closed out :
  fused ml closed out -> Forall (fun p => p <> []) closed ->
  Sorted (fun p q => ~ mergeable ml p q) out.
Proof.
  induction 1 as [|p|p q ps g gs Hm Hf IH|p q ps gs Hn Hf IH]; intros Hne.
  - constructor.
  - repeat constructor.
  - apply Forall_cons in Hne as [Hp Hne]. specialize (IH Hne).
    apply Sorted_inv in IH as [Hs Hh]. constructor; [done|].
    destruct gs as [|g2 gs]; constructor.
    apply HdRel_inv in Hh.
    destruct (fused_head _ _ _ _ Hf) as (rest & gs' & [= -> _]).
    apply Forall_cons in Hne as [Hq _].
    rewrite mergeable_app; [done|by destruct q].
  - apply Forall_cons in Hne as [Hp Hne]. specialize (IH Hne).
    constructor; [done|].
    destruct (fused_head _ _ _ _ Hf) as (rest & gs' & ->). constructor.
    apply Forall_cons in Hne as [Hq _]. by rewrite mergeable_head.
Qed.

Lemma fused_unmerged ml closed out :
  ml <= 0 -> fused ml closed out -> out = closed.
Proof.
  intros Hml. induction 1 as [| |p q ps g gs Hm Hf IH|p q ps gs Hn Hf IH]; try done.
  - destruct Hm as (a & b & _ & _ & _ & _ & Hgap). lia.
  - by rewrite IH.
Qed.

Lemma group_fused smps lc ml rtn :
  group_smps_by_principle_bundle_id smps lc ml = Some rtn ->
  exists closed,
    segment_phase smps lc = Some closed
    /\ Forall (fun p => p <> []) closed /\ fused ml closed rtn.
Proof.
  unfold group_smps_by_principle_bundle_id. intros H.
  destruct (segment_phase_kept smps lc) as (closed & Hc & Hk).
  rewrite Hc in H. cbn [mbind option_bind] in H. exists closed.
  assert (Forall (fun p => p <> []) closed) as Hne.
  { eapply Forall_impl; [exact Hk|]. apply kept_nonempty. }
  split; [done|]. split; [done|].
  destruct (merge_phase_fused ml closed Hne) as (out & Hm & Hf).
  rewrite Hm in H. by injection H as <-.
Qed.

(** X19: the partitions returned are runs of the input: read one after
    the other they list tagged entries of the input pairs in input order,
    none of them twice and none invented (pairs without bundle
    information and the entries of dropped partitions are left out);
    no partition is empty, and all entries of a partition carry the same
    bundle id and the same direction relative to the bundle. *)
Theorem partitions_are_runs_of_input smps len_cutoff merge_length rtn :
  group_smps_by_principle_bundle_id smps len_cutoff merge_length = Some rtn ->
  concat rtn `sublist_of` omap tagged smps
  /\ Forall (fun p => p <> [] /\ homogeneous p) rtn.
Proof.
  intros (closed & Hc & Hne & Hf)%group_fused.
  apply segment_phase_entries in Hc as [Hsub Hhom]. split.
  - by rewrite (fused_concat _ _ _ Hf).
  - by eapply fused_homogeneous.
Qed.

(** X20: merging is exhaustive: two consecutive partitions of the list
    returned never qualify for fusion, that is, they differ in bundle id
    or in direction, or the begin of the second is at least
    [merge_length] away from the end of the first. *)
Theorem returned_partitions_not_mergeable smps len_cutoff merge_length rtn :
  group_smps_by_principle_bundle_id smps len_cutoff merge_length = Some rtn ->
  Sorted (fun p q => ~ mergeable merge_length p q) rtn.
Proof.
  intros (closed & _ & Hne & Hf)%group_fused. by eapply fused_not_mergeable.
Qed.

(** X21: a [merge_length] of zero or below switches the merge phase off:
    the list returned is the list of partitions the segmentation phase
    kept. *)
Theorem no_merging_without_merge_length smps len_cutoff merge_length rtn :
  merge_length <= 0 ->
  group_smps_by_principle_bundle_id smps len_cutoff merge_length = Some rtn ->
  segment_phase smps len_cutoff = Some rtn.
Proof.
  intros Hml (closed & Hc & _ & Hf)%group_fused.
  by rewrite (fused_unmerged _ _ _ Hml Hf).
Qed.

Definition example_smps : list (smp * option bundle_info) :=
  [ (mk_smp 0 100 0, Some (1, 0, 0));
    (mk_smp 100 200 0, Some (1, 0, 1));
    (mk_smp 200 210 0, Some (2, 0, 0));
    (mk_smp 210 300 0, None);
    (mk_smp 300 400 0, Some (1, 0, 2));
    (mk_smp 5000 5100 0, Some (1, 0, 7));
    (mk_smp 9000 9100 1, Some (1, 0, 9));
    (mk_smp 9100 9200 1, Some (1, 0, 8)) ].

Definition example_rtn : list smp_partition :=
  [ [mk_entry 0 100 1 0 0; mk_entry 100 200 1 0 1];
    [mk_entry 300 400 1 0 2; mk_entry 5000 5100 1 0 7];
    [ {| e_smp := mk_smp 9000 9100 1; e_bid := 1; e_d := 1; e_bpos := 9 |};
      {| e_smp := mk_smp 9100 9200 1; e_bid := 1; e_d := 1; e_bpos := 8 |} ] ].

Lemma partitions_are_runs_of_input_witness :
  concat example_rtn `sublist_of` omap tagged example_smps
  /\ Forall (fun p => p <> [] /\ homogeneous p) example_rtn.
Proof.
  apply (partitions_are_runs_of_input example_smps 50 100).
  vm_compute. reflexivity.
Defined.

Lemma returned_partitions_not_mergeable_witness :
  Sorted (fun p q => ~ mergeable 100 p q) example_rtn.
Proof.
  apply (returned_partitions_not_mergeable example_smps 50 100).
  vm_compute. reflexivity.
Defined.

Lemma no_merging_without_merge_length_witness :
  segment_phase example_smps 50
  = Some (example_rtn).
Proof.
  apply (no_merging_without_merge_length example_smps 50 0).
  - lia.
  - vm_compute. reflexivity.
Defined.

End Partitions.

(** ** [compute_graph_diffusion_entropy]: the cells of the matrix *)

Module Weights.
Import Diffusion.

(** An "L" line joins [a] and [b], in either direction. *)
Definition joins (l : link) (a b : Z) : Prop :=
  (n1 l = a /\ n2 l = b) \/ (n2 l = a /\ n1 l = b).

#[export] Instance joins_dec l a b : Decision (joins l a b).
Proof. unfold joins. apply _. Defined.

(** The weight of the last line of the file that joins [a] and [b]. *)
Definition link_weight (links : list link) (a b : Z) : option Z :=
  foldl (fun acc l => if decide (joins l a b) then Some (weight_of l) else acc)
        None links.

Lemma last_write_links links a b :
  last_write (writes_of (adj_list links)) a b = link_weight links a b.
Proof.
  unfold link_weight, adj_list.
  induction links as [|l links IH] using rev_ind; [done|].
  rewrite !foldl_snoc, add_link_last_write by apply (adj_list_closed links).
  rewrite IH.
  destruct (decide ((n1 l = a /\ n2 l = b) \/ (n2 l = a /\ n1 l = b))) as [H|H],
    (decide (joins l a b)) as [H'|H']; done.
Qed.

Lemma link_weight_Some links a b x :
  link_weight links a b = Some x ->
  exists l, l ∈ links /\ joins l a b /\ x = weight_of l.
Proof.
  unfold link_weight. induction links as [|l links IH] using rev_ind; [done|].
  rewrite foldl_snoc. destruct (decide (joins l a b)) as [Hj|Hj].
  - intros [= <-]. exists l. split; [|done].
    rewrite elem_of_app, list_elem_of_singleton. by right.
  - intros (l' & Hin & H)%IH. exists l'. split; [|done].
    rewrite elem_of_app. by left.
Qed.

Lemma link_weight_joined links l a b :
  l ∈ links -> joins l a b -> is_Some (link_weight links a b).
Proof.
  unfold link_weight. induction links as [|l' links IH] using rev_ind.
  - by intros ?%elem_of_nil.
  - rewrite foldl_snoc. intros [Hin| ->%list_elem_of_singleton]%elem_of_app Hj.
    + destruct (decide (joins l' a b)); [by eexists|by apply IH].
    + rewrite decide_True by done. by eexists.
Qed.

Lemma adj_entry links adj a b :
  adj_matrix links = Ok adj ->
  (forall id, id ∈ node_ids links -> 0 <= id) ->
  (a < n_nodes links)%nat -> (b < n_nodes links)%nat ->
  match link_weight links (Z.of_nat a) (Z.of_nat b) with
  | Some weight => F32.of_int weight = Some (entry adj a b)
  | None => entry adj a b = F32.zero
  end.
Proof.
  intros H Hnn Ha Hb. rewrite <- last_write_links.
  by apply adj_matrix_entry.
Qed.

(** X22: when the node ids are non-negative and the matrix is filled
    without an exception, its cell (a, b) holds the float32 value of the
    weight of the last "L" line of the file that joins the nodes a and b,
    in either direction (the value of its last SC tag, 1 if it has none),
    and 0.0 when no line joins them; weights of repeated links are not
    added up.  The float32 value is the weight taken as a C double and
    cast to float: the weight itself up to 2^24 in absolute value, a
    rounded value or an infinity beyond. *)
Theorem adjacency_entry links adj a b :
  adj_matrix links = Ok adj ->
  (forall id, id ∈ node_ids links -> 0 <= id) ->
  (a < n_nodes links)%nat -> (b < n_nodes links)%nat ->
  match link_weight links (Z.of_nat a) (Z.of_nat b) with
  | Some weight => F32.of_int weight = Some (entry adj a b)
  | None => entry adj a b = F32.zero
  end.
Proof. apply adj_entry. Qed.

Definition repeated_links : list link :=
  [mk_link 0 1 [5]; mk_link 1 2 []; mk_link 1 0 [3; 4]].

Definition repeated_adj : list (list F32.t) :=
  let f := F32.of_count in
  [ [f 0; f 4; f 0]; [f 4; f 0; f 1]; [f 0; f 1; f 0] ]%nat.

Lemma adjacency_entry_witness :
  link_weight repeated_links 0 1 = Some 4
  /\ F32.of_int 4 = Some (entry repeated_adj 0 1)
  /\ link_weight repeated_links 0 2 = None
  /\ entry repeated_adj 0 2 = F32.zero.
Proof.
  assert (forall id, id ∈ node_ids repeated_links -> 0 <= id) as Hnn.
  { assert (node_ids repeated_links = [0; 1; 2]) as ->
      by (vm_compute; reflexivity).
    intros id. rewrite !elem_of_cons, elem_of_nil. lia. }
  assert (adj_matrix repeated_links = Ok repeated_adj) as Hadj
    by (vm_compute; reflexivity).
  assert (3 = n_nodes repeated_links)%nat as Hn by (vm_compute; reflexivity).
  pose proof (adjacency_entry repeated_links repeated_adj 0 1 Hadj Hnn) as H1.
  pose proof (adjacency_entry repeated_links repeated_adj 0 2 Hadj Hnn) as H2.
  rewrite <- Hn in H1, H2.
  assert (link_weight repeated_links 0 1 = Some 4) as E1
    by (vm_compute; reflexivity).
  assert (link_weight repeated_links 0 2 = None) as E2
    by (vm_compute; reflexivity).
  change (Z.of_nat 0) with 0 in H1, H2. change (Z.of_nat 1) with 1 in H1.
  change (Z.of_nat 2) with 2 in H2.
  rewrite E1 in H1. rewrite E2 in H2.
  split; [done|]. split; [apply H1; lia|]. split; [done|apply H2; lia].
Defined.

(** A weight that needs more than 24 significant bits is stored rounded:
    the link weight 2^24 + 1 reads back as 2^24. *)
Example large_weight_rounded :
  let links := [mk_link 0 1 [16777217]] in
  let x := S754_finite false 8388608 1 in
  link_weight links 0 1 = Some 16777217
  /\ F32.of_int 16777216 = Some x
  /\ adj_matrix links = Ok [ [F32.zero; x]; [x; F32.zero] ].
Proof. repeat split; vm_compute; reflexivity. Qed.

End Weights.
